(** * PhysicsFS, Windows platform layer (platform/windows.c)

    A shallow embedding of the path canonicalizer, the file-handle wrappers
    and the file-time conversion of [platform/windows.c], and the properties
    of them that the specification states.

    Conventions.
    - A C string is a [list ascii]; what C sees of it stops at the first NUL.
    - A block handed out by the allocator is a map from offsets to chars plus
      a size; an access outside the block has no defined behaviour.
    - [DWORD], [LONG] and the 64-bit types are [Z] with the wrap-around
      written out.
    - The operating system is an interface ([Win32]) whose answers the
      theorems quantify over. *)

From Stdlib Require Import ZArith Lia Bool List Ascii String.
From stdpp Require Import base option list gmap strings.

Local Open Scope nat_scope.

(** ** C strings and allocator blocks *)

Module CString.

Definition NUL : ascii := Ascii.zero.
Definition SEP : ascii := "\"%char.
Definition DOT : ascii := "."%char.
Definition COLON : ascii := ":"%char.

(** The chars of a C string, up to and without its terminator. *)
Fixpoint cstr (s : list ascii) : list ascii :=
  match s with
  | [] => []
  | c :: rest => if Ascii.eqb c NUL then [] else c :: cstr rest
  end.

(** [s[i]] for a C string: the terminator sits right after its chars. *)
Definition char_at (s : list ascii) (i : nat) : ascii := nth i (cstr s) NUL.

(** [s + k], for [k] no larger than [strlen(s)]. *)
Definition advance (k : nat) (s : list ascii) : list ascii := drop k (cstr s).

(** Contents of a block by offset.  What a fresh block holds is whatever
    the allocator left there. *)
Definition block := nat -> ascii.

Section Sized.
(** Size of the block, in chars. *)
Variable size : nat.

Definition peek (m : block) (i : nat) : option ascii :=
  if i <? size then Some (m i) else None.

Definition poke (m : block) (i : nat) (c : ascii) : option block :=
  if i <? size
  then Some (fun j => if j =? i then c else m j)
  else None.

Definition write_chars (m : block) (dst : nat) (l : list ascii) : block :=
  fun j => if (dst <=? j) && (j <? dst + length l)
           then nth (j - dst) l NUL else m j.

Fixpoint strlen_from (m : block) (i room : nat) : option nat :=
  match room with
  | O => None
  | S room' =>
      if Ascii.eqb (m i) NUL then Some O
      else S <$> strlen_from m (S i) room'
  end.

(** [strlen(m + p)]; undefined when no terminator lies inside the block. *)
Definition strlen (m : block) (p : nat) : option nat :=
  strlen_from m p (size - p).

(** [strcpy(m + dst, src)]. *)
Definition strcpy (m : block) (dst : nat) (src : list ascii) : option block :=
  let l := cstr src ++ [NUL] in
  if dst + length l <=? size then Some (write_chars m dst l) else None.

(** [strcat(m, src)]. *)
Definition strcat (m : block) (src : list ascii) : option block :=
  n ← strlen m 0; strcpy m n src.

(** [memmove(m + dst, m + src, n)]: the copy is made as if through a
    temporary, so overlapping ranges are fine. *)
Definition memmove (m : block) (dst src n : nat) : option block :=
  if (dst + n <=? size) && (src + n <=? size)
  then Some (fun j => if (dst <=? j) && (j <? dst + n)
                      then m (src + (j - dst)) else m j)
  else None.

Fixpoint strstr_from (m : block) (i room : nat) : option (option nat) :=
  match room with
  | O => None
  | S room' =>
      if Ascii.eqb (m i) NUL then Some None
      else match room' with
           | O => None
           | S _ =>
               if Ascii.eqb (m i) SEP && Ascii.eqb (m (S i)) DOT
               then Some (Some i)
               else strstr_from m (S i) room'
           end
  end.

(** [strstr(m + p, "\\.")]: offset of the first separator followed by a
    dot at or after [p], [Some None] for a NULL result. *)
Definition strstr_sepdot (m : block) (p : nat) : option (option nat) :=
  strstr_from m p (size - p).

(** The C string that starts at offset [p]. *)
Definition read_cstr (m : block) (p : nat) : option (list ascii) :=
  n ← strlen m p; Some (map m (seq p n)).

End Sized.

(** The scan backwards of [__PHYSFS_platformRealPath]:
    [while ((prevEntry != retval) && ( *prevEntry != '\\')) prevEntry--;] *)
Fixpoint prev_sep (m : block) (q : nat) : nat :=
  match q with
  | O => O
  | S q' => if Ascii.eqb (m q) SEP then q else prev_sep m q'
  end.

End CString.

Import CString.

(** ** Outcomes of a call *)

(** Modelled from the spec: the error kinds this file raises, which
    physfs_internal.h names (section 7: InvalidArgument, OutOfMemory, and
    the platform error that carries a description). *)
Inductive physfs_error : Type :=
| ERR_INVALID_ARGUMENT
| ERR_OUT_OF_MEMORY
| ERR_WIN32 (msg : list ascii)     (* the text of win32strerror() *)
| ERR_ERRNO (msg : list ascii).    (* the text of strerror(errno) *)

Inductive outcome (A : Type) : Type :=
| Ret (a : A)                 (* the call returns [a] *)
| Bail (e : physfs_error)     (* BAIL_MACRO: error set, failure value returned *)
| Undefined                   (* the C program leaves defined behaviour *)
| OutOfFuel.                  (* the loop did not finish in the given steps *)

Arguments Ret {A} a.
Arguments Bail {A} e.
Arguments Undefined {A}.
Arguments OutOfFuel {A}.

Definition obind {A B : Type} (x : outcome A) (f : A -> outcome B) : outcome B :=
  match x with
  | Ret a => f a
  | Bail e => Bail e
  | Undefined => Undefined
  | OutOfFuel => OutOfFuel
  end.

Definition defined {A : Type} (x : option A) : outcome A :=
  match x with Some a => Ret a | None => Undefined end.

Declare Scope outcome_scope.
Delimit Scope outcome_scope with outcome.
Notation "'do' x <- e ; k" := (obind e (fun x => k))
  (at level 10, x name, e at level 100, k at level 200,
   format "'[v' 'do'  x  <-  e ; '/' k ']'") : outcome_scope.
Local Open Scope outcome_scope.

(** ** Path canonicalizer *)

Module RealPath.

(** [MAX_PATH] of the Windows SDK headers. *)
Definition MAX_PATH : nat := 260.

(** What the process and the system hand to one call. *)
Record host : Type := {
  malloc_path : option block;   (* allocator.Malloc(MAX_PATH): NULL or a block *)
  malloc_cwd : option block;    (* the allocation of __PHYSFS_platformCurrentDir *)
  host_cwd : list ascii         (* the directory GetCurrentDirectory reports *)
}.

Definition wrap32 (z : Z) : Z := (z mod 2 ^ 32)%Z.

(** char *__PHYSFS_platformCurrentDir(void) *)
Definition __PHYSFS_platformCurrentDir (h : host) : outcome (list ascii) :=
  let dir := cstr (host_cwd h) in
  (* buflen = GetCurrentDirectory(buflen, NULL): room needed, terminator included *)
  let buflen := wrap32 (Z.of_nat (length dir) + 1) in
  match malloc_cwd h with
  | None => Bail ERR_OUT_OF_MEMORY
  | Some fresh =>
      let size := Z.to_nat (buflen + 2) in
      (* GetCurrentDirectory(buflen, retval) fills the block when it fits *)
      let retval :=
        if (Z.of_nat (length dir) <? buflen)%Z
        then write_chars fresh 0 (dir ++ [NUL]) else fresh in
      do last <- defined (peek size retval (Z.to_nat (wrap32 (buflen - 2))));
      do retval <- (if Ascii.eqb last SEP then Ret retval
                    else defined (strcat size retval [SEP]));
      defined (read_cstr size retval 0)
  end.

(** The loop that takes out "." and ".." entries, [p] being the offset
    the search resumes from. *)
Fixpoint dotscan (fuel : nat) (retval : block) (p : nat) : outcome block :=
  match fuel with
  | O => OutOfFuel
  | S fuel' =>
      do found <- defined (strstr_sepdot MAX_PATH retval p);
      match found with
      | None => Ret retval
      | Some p =>
          do p2 <- defined (peek MAX_PATH retval (p + 2));
          if Ascii.eqb p2 SEP then
            (* a "." entry that doesn't end the string *)
            do n <- defined (strlen MAX_PATH retval (p + 3));
            do retval <- defined (memmove MAX_PATH retval (p + 1) (p + 3) (n + 1));
            dotscan fuel' retval p
          else if Ascii.eqb p2 NUL then
            (* a "." entry that ends the string *)
            do retval <- defined (poke MAX_PATH retval p NUL);
            dotscan fuel' retval p
          else if Ascii.eqb p2 DOT then
            (* a ".." entry *)
            match p with
            | O => Undefined   (* p - 1 points before the block *)
            | S p1 =>
                let prevEntry := prev_sep retval p1 in
                if prevEntry =? 0 then
                  (* make it look like a "." entry *)
                  do n <- defined (strlen MAX_PATH retval (p + 2));
                  do retval <- defined (memmove MAX_PATH retval (p + 1) (p + 2) (n + 1));
                  dotscan fuel' retval p
                else
                  do p3 <- defined (peek MAX_PATH retval (p + 3));
                  do retval <-
                    (if negb (Ascii.eqb p3 NUL)
                     then defined (poke MAX_PATH retval prevEntry NUL)
                     else
                       do n <- defined (strlen MAX_PATH retval (p + 4));
                       defined (memmove MAX_PATH retval (prevEntry + 1) (p + 4) (n + 1)));
                  dotscan fuel' retval prevEntry
            end
          else
            (* look past current char *)
            dotscan fuel' retval (p + 1)
      end
  end.

(** The first half of [__PHYSFS_platformRealPath]: the path made absolute,
    written into the fresh block. *)
Definition absolutize (h : host) (path : list ascii) (retval : block)
  : outcome block :=
  if Ascii.eqb (char_at path 0) SEP && Ascii.eqb (char_at path 1) SEP then
    defined (strcpy MAX_PATH retval 0 path)
  else
    match __PHYSFS_platformCurrentDir h with
    | Bail _ => Bail ERR_OUT_OF_MEMORY
    | Undefined => Undefined
    | OutOfFuel => OutOfFuel
    | Ret currentDir =>
        if Ascii.eqb (char_at path 1) COLON then
          (* drive letter specified *)
          if Ascii.eqb (char_at path 2) SEP then
            defined (strcpy MAX_PATH retval 0 path)
          else if Ascii.eqb (char_at path 0) (char_at currentDir 0) then
            (* current drive; relative *)
            do retval <- defined (strcpy MAX_PATH retval 0 currentDir);
            defined (strcat MAX_PATH retval (advance 2 path))
          else
            (* not current drive; absolute *)
            do retval <- defined (poke MAX_PATH retval 0 (char_at path 0));
            do retval <- defined (poke MAX_PATH retval 1 COLON);
            do retval <- defined (poke MAX_PATH retval 2 SEP);
            defined (strcpy MAX_PATH retval 3 (advance 2 path))
        else
          (* no drive letter specified *)
          if Ascii.eqb (char_at path 0) SEP then
            do retval <- defined (poke MAX_PATH retval 0 (char_at currentDir 0));
            do retval <- defined (poke MAX_PATH retval 1 COLON);
            defined (strcpy MAX_PATH retval 2 path)
          else
            do retval <- defined (strcpy MAX_PATH retval 0 currentDir);
            defined (strcat MAX_PATH retval path)
    end.

(** char *__PHYSFS_platformRealPath(const char *path); a NULL [path] is
    [None].  The result is the string in the returned block: the closing
    Realloc keeps the contents whether it succeeds or not. *)
Definition __PHYSFS_platformRealPath
    (fuel : nat) (h : host) (path : option (list ascii)) : outcome (list ascii) :=
  match path with
  | None => Bail ERR_INVALID_ARGUMENT
  | Some path =>
      if Ascii.eqb (char_at path 0) NUL then Bail ERR_INVALID_ARGUMENT
      else
        match malloc_path h with
        | None => Bail ERR_OUT_OF_MEMORY
        | Some fresh =>
            do retval <- absolutize h path fresh;
            do retval <- dotscan fuel retval 0;
            defined (read_cstr MAX_PATH retval 0)
        end
  end.

End RealPath.

Import RealPath.

(** ** File handles and the calls into the operating system *)

Module FileIO.

Local Open Scope Z_scope.

(** Constants of the Windows SDK headers. *)
Definition INVALID_HANDLE_VALUE : Z := -1.
Definition NO_ERROR : Z := 0.
Definition ERROR_INVALID_HANDLE : Z := 6.
Definition GENERIC_READ : Z := 0x80000000.
Definition GENERIC_WRITE : Z := 0x40000000.
Definition CREATE_ALWAYS : Z := 2.
Definition OPEN_EXISTING : Z := 3.
Definition OPEN_ALWAYS : Z := 4.
Definition FILE_BEGIN : Z := 0.
Definition FILE_CURRENT : Z := 1.
Definition FILE_END : Z := 2.
Definition FILE_ATTRIBUTE_READONLY : Z := 0x1.
Definition FILE_ATTRIBUTE_HIDDEN : Z := 0x2.
Definition FILE_ATTRIBUTE_DIRECTORY : Z := 0x10.
Definition FILE_ATTRIBUTE_ARCHIVE : Z := 0x20.

(** Constants of windows.c. *)
Definition PHYSFS_INVALID_SET_FILE_POINTER : Z := 0xFFFFFFFF.
Definition PHYSFS_INVALID_FILE_ATTRIBUTES : Z := 0xFFFFFFFF.

Definition uint32 (z : Z) : Z := z mod 2 ^ 32.
Definition uint64 (z : Z) : Z := z mod 2 ^ 64.
Definition sint64 (z : Z) : Z :=
  let w := z mod 2 ^ 64 in if w <? 2 ^ 63 then w else w - 2 ^ 64.

(** typedef struct { HANDLE handle; int readonly; } win32file; *)
Record win32file : Type := { handle : Z; readonly : Z }.

(** [sizeof (win32file)] with 32-bit handles. *)
Definition sizeof_win32file : Z := 8.

(** What a call answers: its value, and the code it leaves for
    GetLastError ([None]: the code is left as it was). *)
Record reply (A : Type) : Type := { value : A; sets_error : option Z }.
Arguments value {A} _.
Arguments sets_error {A} _.

(** The operating system and the allocator, as far as this file calls
    them.  Each field is the answer to one call; [Malloc] stands for
    [allocator.Malloc]. *)
Class Win32 : Type := {
  CreateFile : list ascii -> Z -> Z -> reply Z;          (* the HANDLE *)
  Malloc : Z -> Z;                                       (* 0 is NULL *)
  SetFilePointer : Z -> Z -> option Z -> Z -> reply (Z * Z);
                                  (* low DWORD returned, high DWORD stored *)
  GetFileSize : Z -> reply (Z * Z);                      (* low, high *)
  ReadFile : Z -> Z -> reply (option Z);                 (* bytes read, None: FALSE *)
  WriteFile : Z -> Z -> reply (option Z);
  FlushFileBuffers : Z -> reply bool;
  GetFileAttributes : list ascii -> reply Z;
  RemoveDirectory : list ascii -> reply bool;
  DeleteFile : list ascii -> reply bool;
  FormatMessage : Z -> list ascii
}.

(** The calls that leave the process, in the order they are made. *)
Inductive event : Type :=
| CallCreateFile (fname : list ascii) (mode creation : Z)
| CallCloseHandle (h : Z)
| CallMalloc (bytes : Z)
| CallFree (ptr : Z)
| CallSetFilePointer (h lo : Z) (hi : option Z) (method : Z)
| CallGetFileSize (h : Z)
| CallReadFile (h bytes : Z)
| CallWriteFile (h bytes : Z)
| CallFlushFileBuffers (h : Z)
| CallGetFileAttributes (path : list ascii)
| CallRemoveDirectory (path : list ascii)
| CallDeleteFile (path : list ascii)
| SetError (e : physfs_error).

(** The process, as far as the file handle functions see it. *)
Record proc : Type := {
  handles : gset Z;                 (* native descriptors held open *)
  heap : gmap Z (option win32file); (* live blocks by address; None: not
                                       written since the allocation *)
  last_error : Z;                   (* GetLastError() *)
  physfs_err : option physfs_error; (* __PHYSFS_setError *)
  trace : list event
}.

(** A computation on the process; [None] when the program aborts (a failed
    assert) or leaves defined behaviour. *)
Definition M (A : Type) : Type := proc -> option (A * proc).

Definition ret {A : Type} (a : A) : M A := fun st => Some (a, st).
Definition bind {A B : Type} (m : M A) (f : A -> M B) : M B :=
  fun st => match m st with
            | Some (a, st') => f a st'
            | None => None
            end.
Definition abort {A : Type} : M A := fun _ => None.

#[global] Instance M_ret : MRet M := @ret.
#[global] Instance M_bind : MBind M := fun A B f m => bind m f.

Definition log (e : event) : M unit :=
  fun st => Some (tt, {| handles := handles st; heap := heap st;
                         last_error := last_error st;
                         physfs_err := physfs_err st;
                         trace := trace st ++ [e] |}).

Definition leave_error (code : option Z) : M unit :=
  fun st => Some (tt, {| handles := handles st; heap := heap st;
                         last_error := default (last_error st) code;
                         physfs_err := physfs_err st;
                         trace := trace st |}).

Definition GetLastError : M Z := fun st => Some (last_error st, st).

(** Modelled from the spec: BAIL_MACRO(e, r) of physfs_internal.h, which
    records the error for the caller and returns the failure value [r]
    (section 7). *)
Definition BAIL_MACRO {A : Type} (e : physfs_error) (r : A) : M A :=
  fun st => Some (r, {| handles := handles st; heap := heap st;
                        last_error := last_error st;
                        physfs_err := Some e;
                        trace := trace st ++ [SetError e] |}).

Definition set_handles (f : gset Z -> gset Z) : M unit :=
  fun st => Some (tt, {| handles := f (handles st); heap := heap st;
                         last_error := last_error st;
                         physfs_err := physfs_err st;
                         trace := trace st |}).

Definition set_heap
    (f : gmap Z (option win32file) -> gmap Z (option win32file)) : M unit :=
  fun st => Some (tt, {| handles := handles st; heap := f (heap st);
                         last_error := last_error st;
                         physfs_err := physfs_err st;
                         trace := trace st |}).

(** [*( (win32file * ) opaque)]: defined on a live block whose fields
    have been written. *)
Definition deref (opaque : Z) : M win32file :=
  fun st => match heap st !! opaque with
            | Some (Some f) => Some (f, st)
            | _ => None
            end.

(** Writing both fields of [*retval]. *)
Definition store (retval : Z) (f : win32file) : M unit :=
  fun st => match heap st !! retval with
            | Some _ => set_heap (fun hp => <[ retval := Some f ]> hp) st
            | None => None
            end.

(** Whether the process holds descriptor [h]. *)
Definition holds (h : Z) : M bool :=
  fun st => Some (bool_decide (h ∈ handles st), st).

Section Calls.
Context {os : Win32}.

Definition call_CreateFile (fname : list ascii) (mode creation : Z) : M Z :=
  log (CallCreateFile fname mode creation) ;;
  let r := CreateFile fname mode creation in
  leave_error (sets_error r) ;;
  (if value r =? INVALID_HANDLE_VALUE then ret tt
   else set_handles (fun hs => {[ value r ]} ∪ hs)) ;;
  ret (value r).

(** CloseHandle releases a descriptor the process holds, and fails on
    anything else. *)
Definition call_CloseHandle (h : Z) : M bool :=
  log (CallCloseHandle h) ;;
  held ← holds h;
  if held : bool then set_handles (fun hs => hs ∖ {[ h ]}) ;; ret true
  else leave_error (Some ERROR_INVALID_HANDLE) ;; ret false.

Definition call_Malloc (bytes : Z) : M Z :=
  log (CallMalloc bytes) ;;
  let p := Malloc bytes in
  (if p =? 0 then ret tt else set_heap (fun hp => <[ p := None ]> hp)) ;;
  ret p.

Definition call_Free (ptr : Z) : M unit :=
  log (CallFree ptr) ;;
  set_heap (fun hp => delete ptr hp).

Definition call_SetFilePointer (h lo : Z) (hi : option Z) (method : Z)
  : M (Z * Z) :=
  log (CallSetFilePointer h lo hi method) ;;
  let r := SetFilePointer h lo hi method in
  leave_error (sets_error r) ;;
  ret (value r).

Definition call_GetFileSize (h : Z) : M (Z * Z) :=
  log (CallGetFileSize h) ;;
  let r := GetFileSize h in
  leave_error (sets_error r) ;;
  ret (value r).

Definition call_ReadFile (h bytes : Z) : M (option Z) :=
  log (CallReadFile h bytes) ;;
  let r := ReadFile h bytes in
  leave_error (sets_error r) ;;
  ret (value r).

Definition call_WriteFile (h bytes : Z) : M (option Z) :=
  log (CallWriteFile h bytes) ;;
  let r := WriteFile h bytes in
  leave_error (sets_error r) ;;
  ret (value r).

Definition call_GetFileAttributes (path : list ascii) : M Z :=
  log (CallGetFileAttributes path) ;;
  let r := GetFileAttributes path in
  leave_error (sets_error r) ;;
  ret (value r).

Definition call_RemoveDirectory (path : list ascii) : M bool :=
  log (CallRemoveDirectory path) ;;
  let r := RemoveDirectory path in
  leave_error (sets_error r) ;;
  ret (value r).

Definition call_DeleteFile (path : list ascii) : M bool :=
  log (CallDeleteFile path) ;;
  let r := DeleteFile path in
  leave_error (sets_error r) ;;
  ret (value r).

Definition call_FlushFileBuffers (h : Z) : M bool :=
  log (CallFlushFileBuffers h) ;;
  let r := FlushFileBuffers h in
  leave_error (sets_error r) ;;
  ret (value r).

(** The loop of win32strerror that chops off the first newline. *)
Fixpoint chop_newline (msg : list ascii) : list ascii :=
  match msg with
  | [] => []
  | c :: rest =>
      if Ascii.eqb c "010"%char || Ascii.eqb c "013"%char
      then " "%char :: rest
      else c :: chop_newline rest
  end.

(** static const char *win32strerror(void) *)
Definition win32strerror : M physfs_error :=
  code ← GetLastError;
  ret (ERR_WIN32 (chop_newline (cstr (FormatMessage code)))).

(** static void *doOpen(const char *fname, DWORD mode, DWORD creation,
    int rdonly); the result is the pointer, 0 for NULL. *)
Definition doOpen (fname : list ascii) (mode creation rdonly : Z) : M Z :=
  fileHandle ← call_CreateFile fname mode creation;
  if fileHandle =? INVALID_HANDLE_VALUE then
    e ← win32strerror; BAIL_MACRO e 0
  else
    retval ← call_Malloc sizeof_win32file;
    if retval =? 0 then
      call_CloseHandle fileHandle ;;
      BAIL_MACRO ERR_OUT_OF_MEMORY 0
    else
      store retval {| handle := fileHandle; readonly := rdonly |} ;;
      ret retval.

Definition __PHYSFS_platformOpenRead (filename : list ascii) : M Z :=
  doOpen filename GENERIC_READ OPEN_EXISTING 1.

Definition __PHYSFS_platformOpenWrite (filename : list ascii) : M Z :=
  doOpen filename GENERIC_WRITE CREATE_ALWAYS 0.

Definition __PHYSFS_platformOpenAppend (filename : list ascii) : M Z :=
  retval ← doOpen filename GENERIC_WRITE OPEN_ALWAYS 0;
  if negb (retval =? 0) then
    f ← deref retval;
    let h := handle f in
    rc ← call_SetFilePointer h 0 None FILE_END;
    if fst rc =? PHYSFS_INVALID_SET_FILE_POINTER then
      err ← win32strerror;
      call_CloseHandle h ;;
      call_Free retval ;;
      BAIL_MACRO err 0
    else ret retval
  else ret retval.

(** PHYSFS_sint64 __PHYSFS_platformRead(void *opaque, void *buffer,
    PHYSFS_uint32 size, PHYSFS_uint32 count); the result is the count
    returned, the bytes themselves are not modelled. *)
Definition __PHYSFS_platformRead (opaque : Z) (size count : Z) : M Z :=
  f ← deref opaque;
  r ← call_ReadFile (handle f) (uint32 (count * size));
  match r with
  | None => e ← win32strerror; BAIL_MACRO e (-1)
  | Some CountOfBytesRead =>
      if size =? 0 then abort   (* division by zero *)
      else ret (sint64 (uint32 CountOfBytesRead / size))
  end.

Definition __PHYSFS_platformWrite (opaque : Z) (size count : Z) : M Z :=
  f ← deref opaque;
  r ← call_WriteFile (handle f) (uint32 (count * size));
  match r with
  | None => e ← win32strerror; BAIL_MACRO e (-1)
  | Some CountOfBytesWritten =>
      if size =? 0 then abort
      else ret (sint64 (uint32 CountOfBytesWritten / size))
  end.

(** [assert(retval >= 0)] *)
Definition assert_nonneg (retval : Z) : M unit :=
  if 0 <=? retval then ret tt else abort.

(** PHYSFS_sint64 __PHYSFS_platformTell(void *opaque) *)
Definition __PHYSFS_platformTell (opaque : Z) : M Z :=
  f ← deref opaque;
  '(LowPos, HighPos) ← call_SetFilePointer (handle f) 0 (Some 0) FILE_CURRENT;
  code ← GetLastError;
  if (LowPos =? PHYSFS_INVALID_SET_FILE_POINTER) && negb (code =? NO_ERROR)
  then e ← win32strerror; BAIL_MACRO e 0
  else
    let retval := sint64 (Z.lor (uint64 (Z.shiftl (uint32 HighPos) 32))
                                (uint32 LowPos)) in
    assert_nonneg retval ;;
    ret retval.

(** PHYSFS_sint64 __PHYSFS_platformFileLength(void *opaque) *)
Definition __PHYSFS_platformFileLength (opaque : Z) : M Z :=
  f ← deref opaque;
  '(SizeLow, SizeHigh) ← call_GetFileSize (handle f);
  code ← GetLastError;
  if (SizeLow =? PHYSFS_INVALID_SET_FILE_POINTER) && negb (code =? NO_ERROR)
  then e ← win32strerror; BAIL_MACRO e (-1)
  else
    let retval := sint64 (Z.lor (uint64 (Z.shiftl (uint32 SizeHigh) 32))
                                (uint32 SizeLow)) in
    assert_nonneg retval ;;
    ret retval.

(** int __PHYSFS_platformEOF(void *opaque) *)
Definition __PHYSFS_platformEOF (opaque : Z) : M Z :=
  FilePosition ← __PHYSFS_platformTell opaque;
  if negb (FilePosition =? 0) then
    len ← __PHYSFS_platformFileLength opaque;
    ret (if FilePosition =? len then 1 else 0)
  else ret 0.

(** int __PHYSFS_platformFlush(void *opaque) *)
Definition __PHYSFS_platformFlush (opaque : Z) : M Z :=
  fh ← deref opaque;
  if readonly fh =? 0 then
    ok ← call_FlushFileBuffers (handle fh);
    if negb ok then e ← win32strerror; BAIL_MACRO e 0 else ret 1
  else ret 1.

(** int __PHYSFS_platformClose(void *opaque) *)
Definition __PHYSFS_platformClose (opaque : Z) : M Z :=
  f ← deref opaque;
  ok ← call_CloseHandle (handle f);
  if negb ok then e ← win32strerror; BAIL_MACRO e 0
  else call_Free opaque ;; ret 1.

(** int __PHYSFS_platformIsDirectory(const char *fname) *)
Definition __PHYSFS_platformIsDirectory (fname : list ascii) : M Z :=
  attr ← call_GetFileAttributes fname;
  ret (if negb (Z.land attr FILE_ATTRIBUTE_DIRECTORY =? 0) then 1 else 0).

(** int __PHYSFS_platformDelete(const char *path) *)
Definition __PHYSFS_platformDelete (path : list ascii) : M Z :=
  attr ← call_GetFileAttributes path;
  if attr =? FILE_ATTRIBUTE_DIRECTORY then
    ok ← call_RemoveDirectory path;
    if negb ok then e ← win32strerror; BAIL_MACRO e 0 else ret 1
  else
    ok ← call_DeleteFile path;
    if negb ok then e ← win32strerror; BAIL_MACRO e 0 else ret 1.

End Calls.

End FileIO.

Import FileIO.

(** ** File times *)

Module FileTime.

Local Open Scope Z_scope.

(** Constants of the Windows SDK headers. *)
Definition TIME_ZONE_ID_UNKNOWN : Z := 0.
Definition TIME_ZONE_ID_STANDARD : Z := 1.
Definition TIME_ZONE_ID_DAYLIGHT : Z := 2.
Definition TIME_ZONE_ID_INVALID : Z := 0xFFFFFFFF.

Record FILETIME : Type := { dwLowDateTime : Z; dwHighDateTime : Z }.

Record SYSTEMTIME : Type := {
  wYear : Z; wMonth : Z; wDayOfWeek : Z; wDay : Z;
  wHour : Z; wMinute : Z; wSecond : Z; wMilliseconds : Z
}.

(** The fields of TIME_ZONE_INFORMATION that are read, in minutes. *)
Record TIME_ZONE_INFORMATION : Type := {
  Bias : Z; StandardBias : Z; DaylightBias : Z
}.

Record tm : Type := {
  tm_sec : Z; tm_min : Z; tm_hour : Z; tm_mday : Z; tm_mon : Z;
  tm_year : Z; tm_wday : Z; tm_yday : Z; tm_isdst : Z
}.

(** The time calls of the system and [mktime] of the C runtime. *)
Class TimeApi : Type := {
  FileTimeToSystemTime : FILETIME -> reply (option SYSTEMTIME);
  GetTimeZoneInformation : reply (Z * TIME_ZONE_INFORMATION);
  SystemTimeToTzSpecificLocalTime :
    TIME_ZONE_INFORMATION -> SYSTEMTIME -> reply (option SYSTEMTIME);
  mktime : tm -> Z;
  strerror_errno : list ascii
}.

Definition sint32 (z : Z) : Z :=
  let w := z mod 2 ^ 32 in if w <? 2 ^ 31 then w else w - 2 ^ 32.

(** [ui64.QuadPart] once [LowPart] and [HighPart] hold the two words. *)
Definition QuadPart (ft : FILETIME) : Z :=
  uint32 (dwLowDateTime ft) + 2 ^ 32 * uint32 (dwHighDateTime ft).

(** [tzi.Bias] after the two [+=] of the fallback. *)
Definition total_bias (tzid : Z) (tzi : TIME_ZONE_INFORMATION) : Z :=
  if tzid =? TIME_ZONE_ID_STANDARD then sint32 (Bias tzi + StandardBias tzi)
  else if tzid =? TIME_ZONE_ID_DAYLIGHT then sint32 (Bias tzi + DaylightBias tzi)
  else Bias tzi.

(** The "do it by hand" block of FileTimeToPhysfsTime, up to [new_ft]:
    [ui64.QuadPart -= (((LONGLONG) tzi.Bias) * (600000000));] *)
Definition apply_bias (tzid : Z) (tzi : TIME_ZONE_INFORMATION) (ft : FILETIME)
  : FILETIME :=
  let quad := QuadPart ft in
  let quad := uint64 (quad - sint64 (sint64 (total_bias tzid tzi) * 600000000)) in
  {| dwLowDateTime := uint32 quad; dwHighDateTime := uint32 (quad / 2 ^ 32) |}.

(** The fields handed to [mktime]. *)
Definition to_tm (st_localtz : SYSTEMTIME) : tm :=
  {| tm_sec := wSecond st_localtz;
     tm_min := wMinute st_localtz;
     tm_hour := wHour st_localtz;
     tm_mday := wDay st_localtz;
     tm_mon := wMonth st_localtz - 1;
     tm_year := wYear st_localtz - 1900;
     tm_wday := -1;
     tm_yday := -1;
     tm_isdst := -1 |}.

Section Calls.
Context {os : Win32} {clock : TimeApi}.

Definition call_FileTimeToSystemTime (ft : FILETIME) : M (option SYSTEMTIME) :=
  let r := FileTimeToSystemTime ft in
  leave_error (sets_error r) ;; ret (value r).

Definition call_GetTimeZoneInformation : M (Z * TIME_ZONE_INFORMATION) :=
  let r := GetTimeZoneInformation in
  leave_error (sets_error r) ;; ret (value r).

Definition call_SystemTimeToTzSpecificLocalTime
    (tzi : TIME_ZONE_INFORMATION) (st_utc : SYSTEMTIME) : M (option SYSTEMTIME) :=
  let r := SystemTimeToTzSpecificLocalTime tzi st_utc in
  leave_error (sets_error r) ;; ret (value r).

(** The end of FileTimeToPhysfsTime, from "Convert to a format that
    mktime() can grok" on. *)
Definition to_epoch (st_localtz : SYSTEMTIME) : M Z :=
  let retval := sint64 (mktime (to_tm st_localtz)) in
  if retval =? -1 then BAIL_MACRO (ERR_ERRNO (cstr strerror_errno)) (-1)
  else ret retval.

(** static PHYSFS_sint64 FileTimeToPhysfsTime(const FILETIME *ft) *)
Definition FileTimeToPhysfsTime (ft : FILETIME) : M Z :=
  utc ← call_FileTimeToSystemTime ft;
  match utc with
  | None => e ← win32strerror; BAIL_MACRO e (-1)
  | Some st_utc =>
      '(tzid, tzi) ← call_GetTimeZoneInformation;
      if tzid =? TIME_ZONE_ID_INVALID then e ← win32strerror; BAIL_MACRO e (-1)
      else
        direct ← call_SystemTimeToTzSpecificLocalTime tzi st_utc;
        match direct with
        | Some st_localtz => to_epoch st_localtz
        | None =>
            (* do it by hand *)
            let new_ft := apply_bias tzid tzi ft in
            byhand ← call_FileTimeToSystemTime new_ft;
            match byhand with
            | None => e ← win32strerror; BAIL_MACRO e (-1)
            | Some st_localtz => to_epoch st_localtz
            end
        end
  end.

End Calls.

End FileTime.

Import FileTime.

(** ** Sample systems, to run the functions on *)

Module Samples.

Local Open Scope Z_scope.

Definition text (x : string) : list ascii := list_ascii_of_string x.

Definition quiet {A : Type} (a : A) : reply A :=
  {| value := a; sets_error := None |}.

Definition failing {A : Type} (a : A) (code : Z) : reply A :=
  {| value := a; sets_error := Some code |}.

(** A system on which every descriptor is a file of [len] bytes positioned
    at [pos], every path has attributes [attr], CreateFile hands out
    descriptor 3, Malloc the block at 4096, a seek to the end answers
    [end_seek] and ReadFile transfers [transfer] bytes. *)
Definition sample_os (pos len attr : Z) (end_seek : reply (Z * Z))
    (transfer : option Z) : Win32 :=
  {| CreateFile := fun _ _ _ => quiet 3;
     Malloc := fun _ => 4096;
     SetFilePointer := fun _ _ _ method =>
       if method =? FILE_END then end_seek
       else {| value := (pos mod 2 ^ 32, pos / 2 ^ 32);
               sets_error := Some NO_ERROR |};
     GetFileSize := fun _ =>
       {| value := (len mod 2 ^ 32, len / 2 ^ 32); sets_error := Some NO_ERROR |};
     ReadFile := fun _ _ => quiet transfer;
     WriteFile := fun _ _ => quiet transfer;
     FlushFileBuffers := fun _ => quiet true;
     GetFileAttributes := fun _ => quiet attr;
     RemoveDirectory := fun _ => quiet true;
     DeleteFile := fun _ => failing false 5;
     FormatMessage := fun _ => text "Access is denied." |}.

(** A process that holds descriptor 3 behind the win32file at 4096. *)
Definition one_open_file : proc :=
  {| handles := {[ 3 ]};
     heap := {[ 4096 := Some {| handle := 3; readonly := 1 |} ]};
     last_error := 0;
     physfs_err := None;
     trace := [] |}.

(** A process that holds nothing. *)
Definition idle : proc :=
  {| handles := ∅; heap := ∅; last_error := 0; physfs_err := None; trace := [] |}.

(** A system in the daylight regime, 300 minutes west of UTC with a
    daylight bias of -60, whose direct conversion to local time fails;
    FileTimeToSystemTime keeps the count in [wMilliseconds]. *)
Definition sample_clock : TimeApi :=
  {| FileTimeToSystemTime := fun ft =>
       quiet (Some {| wYear := 2001; wMonth := 2; wDayOfWeek := 0; wDay := 3;
                      wHour := 4; wMinute := 5; wSecond := 6;
                      wMilliseconds := QuadPart ft |});
     GetTimeZoneInformation :=
       quiet (TIME_ZONE_ID_DAYLIGHT,
              {| Bias := 300; StandardBias := 0; DaylightBias := -60 |});
     SystemTimeToTzSpecificLocalTime := fun _ _ => failing None 120;
     mktime := fun t => tm_sec t + 60 * tm_min t;
     strerror_errno := text "Invalid argument" |}.

Definition filled (c : ascii) : block := fun _ => c.

(** A block that holds [l] from offset [start] on and [c] elsewhere. *)
Definition holding (c : ascii) (start : nat) (l : list ascii) : block :=
  write_chars (filled c) start l.

(** A process in C:\Users\x whose allocations succeed, the block for the
    path being [fresh]. *)
Definition sample_host_with (fresh : block) : host :=
  {| malloc_path := Some fresh;
     malloc_cwd := Some (filled "X");
     host_cwd := text "C:\Users\x" |}.

(** A process in C:\Users\x whose allocations succeed, fresh blocks being
    filled with [c]. *)
Definition sample_host (c : ascii) : host :=
  {| malloc_path := Some (filled c);
     malloc_cwd := Some (filled c);
     host_cwd := text "C:\Users\x" |}.

End Samples.

Import Samples.

(** ** Vocabulary of the statements *)

Section Vocabulary.

Local Open Scope Z_scope.

(** The call answers the 64-bit value [v] in two halves, and when the low
    half looks like the failure value it leaves NO_ERROR behind. *)
Definition reports (r : reply (Z * Z)) (v : Z) : Prop :=
  value r = (v mod 2 ^ 32, v / 2 ^ 32) /\
  (v mod 2 ^ 32 = PHYSFS_INVALID_SET_FILE_POINTER -> sets_error r = Some NO_ERROR).

(** The bias of the regime the system reports as active. *)
Definition regime_bias (tzid : Z) (tzi : TIME_ZONE_INFORMATION) : Z :=
  if tzid =? TIME_ZONE_ID_STANDARD then StandardBias tzi
  else if tzid =? TIME_ZONE_ID_DAYLIGHT then DaylightBias tzi
  else 0.

(** The directory GetCurrentDirectory writes into the block. *)
Definition reported_dir (h : host) : list ascii := cstr (host_cwd h).

(** The chars that make the scan act on a separator-dot pair. *)
Definition acts_on (c : ascii) : Prop := c = SEP \/ c = NUL \/ c = DOT.

(** A separator-dot pair at [i], if any, is one the scan steps over. *)
Definition settled_at (m : block) (i : nat) : Prop :=
  m i = SEP -> m (S i) = DOT -> ~ acts_on (m (S (S i))).

(** Below [p] the block holds chars of the string, with every
    separator-dot pair settled. *)
Definition scanned (m : block) (p : nat) : Prop :=
  forall i, (i < p)%nat -> m i <> NUL /\ settled_at m i.

(** Between [p] and [q] there is no terminator and no separator-dot pair. *)
Definition plain (m : block) (p q : nat) : Prop :=
  forall i, (p <= i < q)%nat -> m i <> NUL /\ ~ (m i = SEP /\ m (S i) = DOT).

(** The result is in one of the two forms taken verbatim: it starts with two
    separators, or with a drive designator followed by a separator. *)
Definition is_absolute (r : list ascii) : bool :=
  Ascii.eqb (char_at r 0) SEP && Ascii.eqb (char_at r 1) SEP
  || Ascii.eqb (char_at r 1) COLON && Ascii.eqb (char_at r 2) SEP.

End Vocabulary.

(** ** Names for the host: generic to native *)

Module Dependent.

Definition SLASH : ascii := "/"%char.

Section Sized.
Variable size : nat.

Fixpoint strchr_from (m : block) (c : ascii) (i room : nat) : option (option nat) :=
  match room with
  | O => None
  | S room' =>
      if Ascii.eqb (m i) c then Some (Some i)
      else if Ascii.eqb (m i) NUL then Some None
      else strchr_from m c (S i) room'
  end.

(** [strchr(m + p, c)]: offset of the first [c] at or after [p] in the
    string, [Some None] for a NULL result. *)
Definition strchr (m : block) (p : nat) (c : ascii) : option (option nat) :=
  strchr_from m c p (size - p).

(** The loop
    [for (p = strchr(retval, '/'); p != NULL; p = strchr(p + 1, '/')) *p = '\\';]
    from the test of [p] on. *)
Fixpoint slash_loop (fuel : nat) (retval : block) (p : option nat) : outcome block :=
  match p with
  | None => Ret retval
  | Some q =>
      match fuel with
      | O => OutOfFuel
      | S fuel' =>
          do retval <- defined (poke size retval q SEP);
          do next <- defined (strchr retval (q + 1) SLASH);
          slash_loop fuel' retval next
      end
  end.

End Sized.

(** [strlen] of a pointer that may be NULL, as in
    [(prepend) ? strlen(prepend) : 0]. *)
Definition strlen_or_0 (s : option (list ascii)) : nat :=
  match s with Some s => length (cstr s) | None => 0 end.

(** char *__PHYSFS_platformCvtToDependent(const char *prepend,
    const char *dirName, const char *append); [fresh] is what
    allocator.Malloc(len) answers.  [int] and [size_t] are 32 bits wide.
    The loop moves [p] forward at every turn, so [len] turns are enough. *)
Definition __PHYSFS_platformCvtToDependent
    (fresh : option block)
    (prepend : option (list ascii)) (dirName : list ascii)
    (append : option (list ascii)) : outcome (list ascii) :=
  let len := wrap32 (Z.of_nat (strlen_or_0 prepend + strlen_or_0 append
                               + length (cstr dirName) + 1)) in
  let size := Z.to_nat len in
  match fresh with
  | None => Bail ERR_OUT_OF_MEMORY
  | Some retval =>
      do retval <- defined (match prepend with
                            | Some s => strcpy size retval 0 s
                            | None => poke size retval 0 NUL
                            end);
      do retval <- defined (strcat size retval dirName);
      do retval <- defined (match append with
                            | Some s => strcat size retval s
                            | None => Some retval
                            end);
      do p <- defined (strchr size retval 0 SLASH);
      do retval <- slash_loop size size retval p;
      defined (read_cstr size retval 0)
  end.

End Dependent.

Import Dependent.

(** ** Directory enumeration *)

Module Enumerate.

(** What the function does to the outside, in order. *)
Inductive enum_event : Type :=
| SearchFirst (pattern : list ascii)            (* FindFirstFile(SearchPath, &ent) *)
| SmallFree                                     (* __PHYSFS_smallFree(SearchPath) *)
| Callback (origdir name : list ascii)          (* callback(callbackdata, origdir, name) *)
| SearchClose.                                  (* FindClose(dir) *)

(** What the process and the system hand to one call: the block of
    __PHYSFS_smallAlloc, NULL or fresh, and for a search pattern either
    INVALID_HANDLE_VALUE or the entry FindFirstFile finds and the entries
    FindNextFile finds after it, until it answers 0. *)
Record dir_host : Type := {
  small_alloc : option block;
  find_files : list ascii -> option (list ascii * list (list ascii))
}.

(** [strcmp(a, b) == 0] *)
Definition same_string (a b : list ascii) : bool :=
  bool_decide (cstr a = cstr b).

(** One turn of the do-while loop, up to its condition. *)
Definition visit (origdir cFileName : list ascii) : list enum_event :=
  if same_string cFileName [DOT] then []
  else if same_string cFileName [DOT; DOT] then []
  else [Callback (cstr origdir) (cstr cFileName)].

(** The do-while loop: [ent] is the entry at hand, [later] the entries
    FindNextFile will give. *)
Fixpoint visit_all (origdir ent : list ascii) (later : list (list ascii))
  : list enum_event :=
  visit origdir ent ++
  match later with
  | [] => []
  | next :: later' => visit_all origdir next later'
  end.

(** void __PHYSFS_platformEnumerateFiles(const char *dirname,
    int omitSymLinks, PHYSFS_EnumFilesCallback callback,
    const char *origdir, void *callbackdata) *)
Definition __PHYSFS_platformEnumerateFiles
    (host : dir_host) (dirname origdir : list ascii) : outcome (list enum_event) :=
  let len := length (cstr dirname) in
  let size := len + 3 in
  match small_alloc host with
  | None => Ret []
  | Some SearchPath =>
      do SearchPath <- defined (strcpy size SearchPath 0 dirname);
      (* SearchPath[len - 1]: with len 0 the index wraps to the largest size_t *)
      do last <- match len with
                 | O => Undefined
                 | S before => defined (peek size SearchPath before)
                 end;
      do SearchPath <-
        (if negb (Ascii.eqb last SEP) then
           do SearchPath <- defined (poke size SearchPath len SEP);
           defined (poke size SearchPath (len + 1) NUL)
         else Ret SearchPath);
      do SearchPath <- defined (strcat size SearchPath ["*"%char]);
      do pattern <- defined (read_cstr size SearchPath 0);
      match find_files host pattern with
      | None => Ret [SearchFirst pattern; SmallFree]
      | Some (ent, later) =>
          Ret ([SearchFirst pattern; SmallFree]
               ++ visit_all origdir ent later ++ [SearchClose])
      end
  end.

End Enumerate.

Import Enumerate.

(** ** More of the file functions *)

Module MoreFileIO.

Local Open Scope Z_scope.

(** #define LOWORDER_UINT64(pos) (PHYSFS_uint32) (pos & 0x00000000FFFFFFFF) *)
Definition LOWORDER_UINT64 (pos : Z) : Z :=
  uint32 (Z.land pos 0x00000000FFFFFFFF).

(** #define HIGHORDER_UINT64(pos) (PHYSFS_uint32)
    (((pos & 0xFFFFFFFF00000000) >> 32) & 0x00000000FFFFFFFF) *)
Definition HIGHORDER_UINT64 (pos : Z) : Z :=
  uint32 (Z.land (Z.shiftr (Z.land pos 0xFFFFFFFF00000000) 32) 0x00000000FFFFFFFF).

(** Modelled from the spec: BAIL_IF_MACRO(c, NULL, r) of physfs_internal.h
    when [c] holds and the error given is NULL: the failure value is
    returned and the error stays the one the failing callee recorded
    (section 7: errors are surfaced to the immediate caller). *)
Definition BAIL_NULL {A : Type} (r : A) : M A := FileIO.ret r.

(** The calls for the time of the last write.  GetFileAttributesExA is
    looked up at start-up and may be missing; each call answers the
    FILETIME it stores, [None] when it answers FALSE. *)
Class LastWriteApi : Type := {
  pGetFileAttributesExA : option (list ascii -> reply (option FILETIME));
  GetFileTime : Z -> reply (option FILETIME)
}.

Section Calls.
Context {os : Win32} {clock : TimeApi} {attrs : LastWriteApi}.

(** int __PHYSFS_platformSeek(void *opaque, PHYSFS_uint64 pos) *)
Definition __PHYSFS_platformSeek (opaque : Z) (pos : Z) : M Z :=
  f ← deref opaque;
  let HighOrderPos := HIGHORDER_UINT64 pos in
  let pHighOrderPos := if HighOrderPos =? 0 then None else Some HighOrderPos in
  '(rc, _) ← call_SetFilePointer (handle f) (LOWORDER_UINT64 pos)
               pHighOrderPos FILE_BEGIN;
  if rc =? PHYSFS_INVALID_SET_FILE_POINTER then
    code ← GetLastError;
    if negb (code =? NO_ERROR) then e ← win32strerror; BAIL_MACRO e 0
    else ret 1
  else ret 1.

(** int __PHYSFS_platformExists(const char *fname) *)
Definition __PHYSFS_platformExists (fname : list ascii) : M Z :=
  attr ← call_GetFileAttributes fname;
  if attr =? PHYSFS_INVALID_FILE_ATTRIBUTES then
    e ← win32strerror; BAIL_MACRO e 0
  else ret 1.

(** int __PHYSFS_platformIsSymLink(const char *fname) *)
Definition __PHYSFS_platformIsSymLink (fname : list ascii) : M Z := ret 0.

Definition call_GetFileAttributesEx
    (getattr : list ascii -> reply (option FILETIME)) (fname : list ascii)
  : M (option FILETIME) :=
  let r := getattr fname in
  leave_error (sets_error r) ;; ret (value r).

Definition call_GetFileTime (h : Z) : M (option FILETIME) :=
  let r := GetFileTime h in
  leave_error (sets_error r) ;; ret (value r).

(** The first half of __PHYSFS_platformGetLastModTime: the time from the
    attributes of the file, -1 when it is not to be had that way. *)
Definition time_from_attributes (fname : list ascii) : M Z :=
  match pGetFileAttributesExA with
  | None => ret (-1)
  | Some getattr =>
      found ← call_GetFileAttributesEx getattr fname;
      match found with
      | None => ret (-1)
      | Some ftLastWriteTime =>
          if negb (dwHighDateTime ftLastWriteTime =? 0)
             || negb (dwLowDateTime ftLastWriteTime =? 0)
          then FileTimeToPhysfsTime ftLastWriteTime
          else ret (-1)
      end
  end.

(** PHYSFS_sint64 __PHYSFS_platformGetLastModTime(const char *fname) *)
Definition __PHYSFS_platformGetLastModTime (fname : list ascii) : M Z :=
  retval ← time_from_attributes fname;
  if retval =? -1 then
    (* try a fallback *)
    f ← __PHYSFS_platformOpenRead fname;
    if f =? 0 then BAIL_NULL (-1)
    else
      file ← deref f;
      rc ← call_GetFileTime (handle file);
      err ← win32strerror;
      call_CloseHandle (handle file) ;;
      call_Free f ;;
      match rc with
      | None => BAIL_MACRO err (-1)
      | Some ft => FileTimeToPhysfsTime ft
      end
  else ret retval.

End Calls.

End MoreFileIO.

Import MoreFileIO.

(** ** The directory of the executable *)

Module ExePath.

Local Open Scope Z_scope.

(** The separator as a WCHAR. *)
Definition WSEP : Z := 92.

(** Modelled from the spec: the error of physfs_internal.h for a module
    path without a directory, beside the errors of the other functions
    (section 4.4: the base directory is the directory that contains the
    running executable). *)
Inductive base_error : Type :=
| Physfs (e : physfs_error)
| ERR_GETMODFN_NO_DIR.

Inductive exe_outcome : Type :=
| Dir (retval : list ascii)     (* the string returned *)
| Null (e : base_error)         (* NULL returned, with the error set *)
| Nothing                       (* NULL returned, no error set *)
| Turning.                      (* the loop has not ended in the turns given *)

(** What the process and the system hand to one call.  PHYSFS_utf8FromUcs2
    is not part of this file and is taken as given. *)
Record exe_host : Type := {
  module_path : list Z;               (* the path of the executable, in UCS-2 *)
  module_known : bool;                (* false: GetModuleFileNameW answers 0 *)
  realloc_ok : Z -> bool;             (* allocator.Realloc(modpath, bytes) gives a block *)
  malloc_ok : Z -> bool;              (* allocator.Malloc(bytes) gives a block *)
  module_error : list ascii;          (* win32strerror() after a failure *)
  utf8FromUcs2 : list Z -> list ascii (* PHYSFS_utf8FromUcs2 *)
}.

(** rc = pGetModuleFileNameW(NULL, modpath, buflen): the chars stored, all
    of the path when it fits with room to spare, [buflen] of them when it
    does not. *)
Definition GetModuleFileNameW (host : exe_host) (buflen : Z) : Z :=
  if module_known host
  then Z.min (Z.of_nat (length (module_path host))) buflen
  else 0.

(** The [while (1)] loop: [Dir] is not used here, the result is the value
    of [buflen] at the [break]. *)
Fixpoint grow (turns : nat) (host : exe_host) (buflen : Z) : Z + exe_outcome :=
  match turns with
  | O => inr Turning
  | S turns' =>
      if negb (realloc_ok host (uint32 (buflen * 2))) then
        inr (Null (Physfs ERR_OUT_OF_MEMORY))
      else
        let rc := GetModuleFileNameW host buflen in
        if rc =? 0 then inr (Null (Physfs (ERR_WIN32 (module_error host))))
        else if rc <? buflen then inl rc
        else grow turns' host (uint32 (buflen * 2))
  end.

(** [while (ptr != modpath) { if ( *ptr == '\\') break; ptr--; }], [ptr]
    being an index into [modpath]. *)
Fixpoint last_wsep (modpath : list Z) (ptr : nat) : nat :=
  match ptr with
  | O => O
  | S ptr' => if nth ptr modpath 0 =? WSEP then ptr else last_wsep modpath ptr'
  end.

(** static char *getExePath(void).  [buflen] doubles from 64 as a DWORD
    and is 0 after 26 doublings, where GetModuleFileNameW answers 0: 27
    turns end the loop. *)
Definition getExePath (host : exe_host) : exe_outcome :=
  match grow 27 host 64 with
  | inr failure => failure
  | inl buflen =>
      let modpath := take (Z.to_nat buflen) (module_path host) in
      if 0 <? buflen then
        let ptr := last_wsep modpath (Z.to_nat buflen - 1) in
        if (ptr =? 0)%nat && negb (nth ptr modpath 0 =? WSEP)
        then Null ERR_GETMODFN_NO_DIR
        else
          (* chop off filename *)
          let modpath := take (ptr + 1) modpath in
          if malloc_ok host (uint32 (buflen * 6))
          then Dir (cstr (utf8FromUcs2 host modpath))
          else Null (Physfs ERR_OUT_OF_MEMORY)
      else Nothing
  end.

(** char *__PHYSFS_platformCalcBaseDir(const char *argv0); the test is
    [(argv0 != NULL) && (strchr(argv0, '\\') != NULL)]. *)
Definition __PHYSFS_platformCalcBaseDir
    (host : exe_host) (argv0 : option (list ascii)) : exe_outcome :=
  match argv0 with
  | Some s =>
      if existsb (Ascii.eqb SEP) (cstr s) then Nothing else getExePath host
  | None => getExePath host
  end.

End ExePath.

Import ExePath.

(** ** Removable media *)

Module Housekeeping.

Local Open Scope Z_scope.

(** Constants of the Windows SDK headers. *)
Definition DRIVE_CDROM : Z := 5.
Definition SEM_FAILCRITICALERRORS : Z := 1.

Inductive cd_event : Type :=
| CallSetErrorMode (mode : Z)
| CallGetVolumeInformation (drive : list ascii)
| CdCallback (drive : list ascii).

(** The drives of the system, and the error mode of the process with what
    has been done so far. *)
Record cd_host : Type := {
  GetDriveType : list ascii -> Z;
  GetVolumeInformation : list ascii -> bool
}.

Record cd_state : Type := { error_mode : Z; cd_trace : list cd_event }.

(** SetErrorMode(mode): the mode is set and the one before is returned. *)
Definition SetErrorMode (mode : Z) (st : cd_state) : Z * cd_state :=
  (error_mode st,
   {| error_mode := mode; cd_trace := cd_trace st ++ [CallSetErrorMode mode] |}).

(** static BOOL mediaInDrive(const char *drive) *)
Definition mediaInDrive (host : cd_host) (drive : list ascii) (st : cd_state)
  : bool * cd_state :=
  let '(oldErrorMode, st) := SetErrorMode SEM_FAILCRITICALERRORS st in
  let retval := GetVolumeInformation host drive in
  let st := {| error_mode := error_mode st;
               cd_trace := cd_trace st ++ [CallGetVolumeInformation drive] |} in
  let '(_, st) := SetErrorMode oldErrorMode st in
  (retval, st).

(** [char drive_str[4] = "x:\\"; drive_str[0] = ch;] *)
Definition drive_str (ch : ascii) : list ascii := [ch; COLON; SEP].

(** One turn of the loop over the letters. *)
Definition detect_one (host : cd_host) (ch : ascii) (st : cd_state) : cd_state :=
  if GetDriveType host (drive_str ch) =? DRIVE_CDROM then
    let '(media, st) := mediaInDrive host (drive_str ch) st in
    if media
    then {| error_mode := error_mode st;
            cd_trace := cd_trace st ++ [CdCallback (drive_str ch)] |}
    else st
  else st.

(** [for (ch = 'A'; ch <= 'Z'; ch++)], [count] letters from [ch] on. *)
Fixpoint detect_from (host : cd_host) (ch : nat) (count : nat) (st : cd_state)
  : cd_state :=
  match count with
  | O => st
  | S count' =>
      detect_from host (S ch) count' (detect_one host (ascii_of_nat ch) st)
  end.

(** void __PHYSFS_platformDetectAvailableCDs(PHYSFS_StringCallback cb,
    void *data): 'A' is 65 and 'Z' is 90. *)
Definition __PHYSFS_platformDetectAvailableCDs (host : cd_host) (st : cd_state)
  : cd_state :=
  detect_from host 65 26 st.

End Housekeeping.

Import Housekeeping.

(** ** More vocabulary *)

Section MoreVocabulary.

(** The block holds the string [l], terminator included, and [l] fits. *)
Definition holds_string (size : nat) (m : block) (l : list ascii) : Prop :=
  Forall (fun c => c <> NUL) l
  /\ length l < size
  /\ forall k, k <= length l -> m k = nth k l NUL.

(** No separator-dot pair of [r] is followed by a separator, a dot or the
    end of the string: no "." entry and nothing that starts with ".."
    follows a separator. *)
Definition no_dot_entry (r : list ascii) : Prop :=
  forall i,
    nth i r NUL = SEP -> nth (S i) r NUL = DOT ->
    ~ acts_on (nth (S (S i)) r NUL).

(** The first half of canonicalization on strings: the path as it is when
    it starts with two separators or with a drive designator and a
    separator; the current directory followed by what follows the
    designator when the drive is the current one; the drive's root
    followed by it otherwise; the current drive followed by a path that
    starts with a separator; the current directory followed by any other
    path. *)
Definition splice (cwd path : list ascii) : list ascii :=
  let path := cstr path in
  if Ascii.eqb (nth 0 path NUL) SEP && Ascii.eqb (nth 1 path NUL) SEP then path
  else if Ascii.eqb (nth 1 path NUL) COLON then
    if Ascii.eqb (nth 2 path NUL) SEP then path
    else if Ascii.eqb (nth 0 path NUL) (nth 0 cwd NUL) then cwd ++ drop 2 path
    else nth 0 path NUL :: COLON :: SEP :: drop 2 path
  else if Ascii.eqb (nth 0 path NUL) SEP then nth 0 cwd NUL :: COLON :: path
  else cwd ++ path.

(** [no_dot_entry], as a test. *)
Fixpoint dot_free (r : list ascii) : bool :=
  match r with
  | [] => true
  | a :: rest =>
      negb (Ascii.eqb a SEP && Ascii.eqb (nth 0 rest NUL) DOT
            && (Ascii.eqb (nth 1 rest NUL) SEP || Ascii.eqb (nth 1 rest NUL) NUL
                || Ascii.eqb (nth 1 rest NUL) DOT))
      && dot_free rest
  end.

(** No separator of [r] is followed by two dots: no ".." entry and
    nothing that starts with two dots follows a separator. *)
Definition no_parent_entry (r : list ascii) : Prop :=
  forall i,
    nth i r NUL = SEP -> nth (S i) r NUL = DOT -> nth (S (S i)) r NUL <> DOT.

(** [no_parent_entry], as a test. *)
Fixpoint parent_free (r : list ascii) : bool :=
  match r with
  | [] => true
  | a :: rest =>
      negb (Ascii.eqb a SEP && Ascii.eqb (nth 0 rest NUL) DOT
            && Ascii.eqb (nth 1 rest NUL) DOT)
      && parent_free rest
  end.

(** The generic separator becomes the native one. *)
Definition to_native (c : ascii) : ascii := if Ascii.eqb c SLASH then SEP else c.

(** The pattern handed to FindFirstFile for a directory: its name, a
    separator unless the name ends with one, and a star. *)
Definition search_pattern (dir : list ascii) : list ascii :=
  dir ++ (if Ascii.eqb (nth (length dir - 1) dir NUL) SEP then [] else [SEP])
      ++ ["*"%char].

(** The entries "." and "..". *)
Definition pseudo_entry (name : list ascii) : bool :=
  bool_decide (name = [DOT]) || bool_decide (name = [DOT; DOT]).

(** The computation ends, and the process then holds the descriptors and
    the blocks it held before. *)
Definition keeps_resources {A : Type} (m : M A) : Prop :=
  forall st, exists a st',
    m st = Some (a, st')
    /\ handles st' = handles st
    /\ heap st' = heap st.

(** The drive letters, A to Z. *)
Definition drive_letters : list ascii := map ascii_of_nat (seq 65 26).

(** Whether the callback is made for the drive of a letter. *)
Definition cd_with_media (host : cd_host) (ch : ascii) : bool :=
  (GetDriveType host (drive_str ch) =? DRIVE_CDROM)%Z
  && GetVolumeInformation host (drive_str ch).

(** Carriage return or line feed. *)
Definition newline (c : ascii) : Prop := c = "010"%char \/ c = "013"%char.

(** The chars of a string that may be missing. *)
Definition chars_of (s : option (list ascii)) : list ascii :=
  match s with Some s => cstr s | None => [] end.

End MoreVocabulary.

(** ** More sample systems *)

Module MoreSamples.

(** A host on which C:\games holds ".", "..", a.txt, .config and saves,
    and no other directory can be searched. *)
Definition sample_dir : dir_host :=
  {| small_alloc := Some (filled "X");
     find_files := fun pattern =>
       if bool_decide (pattern = text "C:\games\*")
       then Some (text ".", [text ".."; text "a.txt"; text ".config"; text "saves"])
       else None |}.

Definition sample_time : FILETIME :=
  {| dwLowDateTime := 0x12345678%Z; dwHighDateTime := 0x01C1A2B3%Z |}.

(** A system that has GetFileAttributesExA, which gives [sample_time]. *)
Definition sample_attrs : LastWriteApi :=
  {| pGetFileAttributesExA := Some (fun _ => quiet (Some sample_time));
     GetFileTime := fun _ => quiet (Some sample_time) |}.

(** A system without GetFileAttributesExA. *)
Definition sample_attrs_old : LastWriteApi :=
  {| pGetFileAttributesExA := None;
     GetFileTime := fun _ => quiet (Some sample_time) |}.

(** The sample system with its defaults: a file of 10 bytes, position 4. *)
Definition plain_os : Win32 :=
  sample_os 4 10 FILE_ATTRIBUTE_ARCHIVE (quiet (10, 0)%Z) (Some 30%Z).

(** The sample system when Malloc fails. *)
Definition no_memory_os : Win32 :=
  {| CreateFile := CreateFile (Win32 := plain_os);
     Malloc := fun _ => 0%Z;
     SetFilePointer := SetFilePointer (Win32 := plain_os);
     GetFileSize := GetFileSize (Win32 := plain_os);
     ReadFile := ReadFile (Win32 := plain_os);
     WriteFile := WriteFile (Win32 := plain_os);
     FlushFileBuffers := FlushFileBuffers (Win32 := plain_os);
     GetFileAttributes := GetFileAttributes (Win32 := plain_os);
     RemoveDirectory := RemoveDirectory (Win32 := plain_os);
     DeleteFile := DeleteFile (Win32 := plain_os);
     FormatMessage := FormatMessage (Win32 := plain_os) |}.

(** The sample system with error texts that end in a carriage return and
    a line feed, as FormatMessage gives them. *)
Definition crlf_os : Win32 :=
  {| CreateFile := CreateFile (Win32 := plain_os);
     Malloc := Malloc (Win32 := plain_os);
     SetFilePointer := SetFilePointer (Win32 := plain_os);
     GetFileSize := GetFileSize (Win32 := plain_os);
     ReadFile := ReadFile (Win32 := plain_os);
     WriteFile := WriteFile (Win32 := plain_os);
     FlushFileBuffers := FlushFileBuffers (Win32 := plain_os);
     GetFileAttributes := GetFileAttributes (Win32 := plain_os);
     RemoveDirectory := RemoveDirectory (Win32 := plain_os);
     DeleteFile := DeleteFile (Win32 := plain_os);
     FormatMessage := fun _ => text "Access is denied." ++ ["013"; "010"]%char |}.

(** A process whose win32file at 4096 names a descriptor it no longer
    holds. *)
Definition stale_file : proc :=
  {| handles := ∅;
     heap := {[ 4096%Z := Some {| handle := 3%Z; readonly := 1%Z |} ]};
     last_error := 0%Z;
     physfs_err := None;
     trace := [] |}.

(** An executable at C:\games\doom.exe, in UCS-2. *)
Definition sample_exe : exe_host :=
  {| module_path := map (fun c => Z.of_nat (nat_of_ascii c)) (text "C:\games\doom.exe");
     module_known := true;
     realloc_ok := fun _ => true;
     malloc_ok := fun _ => true;
     module_error := text "The operation completed successfully.";
     utf8FromUcs2 := map (fun w => ascii_of_nat (Z.to_nat w)) |}.

(** A system whose drives D and F are CD-ROM drives, D with a disc. *)
Definition sample_drives : cd_host :=
  {| GetDriveType := fun drive =>
       if bool_decide (drive = text "D:\") || bool_decide (drive = text "F:\")
       then DRIVE_CDROM else 3%Z;
     GetVolumeInformation := fun drive => bool_decide (drive = text "D:\") |}.

End MoreSamples.

Import MoreSamples.

Ltac run_M :=
  unfold mbind, M_bind, FileIO.bind, mret, M_ret, FileIO.ret, FileIO.log,
    leave_error, GetLastError, set_handles, set_heap, BAIL_MACRO, abort;
  simpl.

(** ** Properties of the file handle functions *)

Section FileHandleFacts.

Local Open Scope Z_scope.
Context {os : Win32}.

Lemma lor_halves (hi lo : Z) :
  0 <= lo < 2 ^ 32 -> Z.lor (Z.shiftl hi 32) lo = hi * 2 ^ 32 + lo.
Proof.
  intros Hlo.
  rewrite <- Z.shiftl_mul_pow2 by lia.
  rewrite <- Z.lxor_lor, <- Z.add_nocarry_lxor; trivial.
  all: apply Z.bits_inj'; intros n Hn; rewrite Z.land_spec, Z.bits_0.
  all: destruct (Z.lt_ge_cases n 32) as [Hlt | Hge].
  all: try (rewrite Z.shiftl_spec_low by lia; reflexivity).
  all: replace lo with (lo mod 2 ^ 32) by (apply Z.mod_small; lia).
  all: rewrite Z.mod_pow2_bits_high by lia; apply andb_false_r.
Qed.

Lemma join_halves (v : Z) :
  0 <= v < 2 ^ 63 ->
  sint64 (Z.lor (uint64 (Z.shiftl (uint32 (v / 2 ^ 32)) 32))
                (uint32 (v mod 2 ^ 32))) = v.
Proof.
  intros Hv. unfold uint32, uint64, sint64.
  assert (0 <= v / 2 ^ 32 < 2 ^ 31) by
    (split; [apply Z.div_pos; lia | apply Z.div_lt_upper_bound; lia]).
  assert (0 <= v mod 2 ^ 32 < 2 ^ 32) by (apply Z.mod_pos_bound; lia).
  rewrite (Z.mod_small (v / 2 ^ 32)) by lia.
  rewrite (Z.mod_small (v mod 2 ^ 32)) by lia.
  rewrite Z.shiftl_mul_pow2 by lia.
  rewrite (Z.mod_small (v / 2 ^ 32 * 2 ^ 32)) by lia.
  rewrite <- Z.shiftl_mul_pow2 by lia.
  rewrite lor_halves by lia.
  assert (Hsplit : v / 2 ^ 32 * 2 ^ 32 + v mod 2 ^ 32 = v)
    by (pose proof (Z.div_mod v (2 ^ 32)); lia).
  rewrite Hsplit, Z.mod_small by lia.
  destruct (Z.ltb_spec v (2 ^ 63)); lia.
Qed.

Lemma tell_reports (st : proc) (opaque : Z) (f : win32file) (off : Z) :
  heap st !! opaque = Some (Some f) ->
  0 <= off < 2 ^ 63 ->
  reports (SetFilePointer (handle f) 0 (Some 0) FILE_CURRENT) off ->
  exists st', __PHYSFS_platformTell opaque st = Some (off, st')
              /\ heap st' = heap st.
Proof.
  intros Hf Hoff [Hval Herr].
  unfold __PHYSFS_platformTell, call_SetFilePointer, deref.
  run_M. rewrite Hf. run_M. rewrite Hval. run_M.
  rewrite join_halves by assumption.
  destruct (Z.eqb_spec (off mod 2 ^ 32) PHYSFS_INVALID_SET_FILE_POINTER) as [Hbad | Hgood].
  - rewrite (Herr Hbad). run_M.
    unfold assert_nonneg. destruct (Z.leb_spec 0 off); [| lia].
    run_M. eexists; split; reflexivity.
  - run_M. unfold assert_nonneg. destruct (Z.leb_spec 0 off); [| lia].
    run_M. eexists; split; reflexivity.
Qed.

Lemma length_reports (st : proc) (opaque : Z) (f : win32file) (len : Z) :
  heap st !! opaque = Some (Some f) ->
  0 <= len < 2 ^ 63 ->
  reports (GetFileSize (handle f)) len ->
  exists st', __PHYSFS_platformFileLength opaque st = Some (len, st')
              /\ heap st' = heap st.
Proof.
  intros Hf Hlen [Hval Herr].
  unfold __PHYSFS_platformFileLength, call_GetFileSize, deref.
  run_M. rewrite Hf. run_M. rewrite Hval. run_M.
  rewrite join_halves by assumption.
  destruct (Z.eqb_spec (len mod 2 ^ 32) PHYSFS_INVALID_SET_FILE_POINTER) as [Hbad | Hgood].
  - rewrite (Herr Hbad). run_M.
    unfold assert_nonneg. destruct (Z.leb_spec 0 len); [| lia].
    run_M. eexists; split; reflexivity.
  - run_M. unfold assert_nonneg. destruct (Z.leb_spec 0 len); [| lia].
    run_M. eexists; split; reflexivity.
Qed.

(** C1, as the code has it: on an open handle whose position and length the
    system reports, [eof] answers 1 or 0, and 1 exactly when the offset is
    not zero and equals the length of the file.  At offset 0 the answer is
    0 whatever the length: the test [!= 0], which is there for the 0 that
    [tell] returns when it fails, also keeps the comparison "Non-zero if
    EOF is equal to the file length" from being made on an empty file. *)
Theorem eof_iff_nonzero_offset_at_length
    (st : proc) (opaque : Z) (f : win32file) (off len : Z) :
  heap st !! opaque = Some (Some f) ->
  0 <= off < 2 ^ 63 ->
  0 <= len < 2 ^ 63 ->
  reports (SetFilePointer (handle f) 0 (Some 0) FILE_CURRENT) off ->
  reports (GetFileSize (handle f)) len ->
  exists r st',
    __PHYSFS_platformEOF opaque st = Some (r, st')
    /\ (r = 1 \/ r = 0)
    /\ (r = 1 <-> off <> 0 /\ off = len).
Proof.
  intros Hf Hoff Hlen Hpos Hsize.
  destruct (tell_reports st opaque f off Hf Hoff Hpos) as (st1 & Htell & Hheap).
  unfold __PHYSFS_platformEOF. run_M. rewrite Htell.
  destruct (Z.eqb_spec off 0) as [Hzero | Hnz]; simpl.
  - exists 0, st1. repeat split; try tauto; intros; lia.
  - rewrite <- Hheap in Hf.
    destruct (length_reports st1 opaque f len Hf Hlen Hsize) as (st2 & Hlength & _).
    rewrite Hlength.
    destruct (Z.eqb_spec off len) as [Heq | Hne].
    + exists 1, st2. repeat split; auto.
    + exists 0, st2. repeat split; auto; intros; lia.
Qed.

(** C6: when the file opens and the seek to its end fails, open_append
    closes the descriptor, frees the win32file, sets the error and returns
    NULL, in that order; the process holds what it held before. *)
Theorem open_append_failed_seek_releases
    (st : proc) (filename : list ascii) (h p : Z) :
  value (CreateFile filename GENERIC_WRITE OPEN_ALWAYS) = h ->
  h <> INVALID_HANDLE_VALUE ->
  h ∉ handles st ->
  Malloc sizeof_win32file = p ->
  p <> 0 ->
  heap st !! p = None ->
  fst (value (SetFilePointer h 0 None FILE_END)) = PHYSFS_INVALID_SET_FILE_POINTER ->
  exists st' e,
    __PHYSFS_platformOpenAppend filename st = Some (0, st')
    /\ handles st' = handles st
    /\ heap st' = heap st
    /\ physfs_err st' = Some e
    /\ trace st' = trace st ++
          [CallCreateFile filename GENERIC_WRITE OPEN_ALWAYS;
           CallMalloc sizeof_win32file;
           CallSetFilePointer h 0 None FILE_END;
           CallCloseHandle h;
           CallFree p;
           SetError e].
Proof.
  intros Hh Hvalid Hnew Hp Hnonnull Hfree Hseek.
  unfold __PHYSFS_platformOpenAppend, doOpen, call_CreateFile, call_Malloc,
    call_SetFilePointer, call_CloseHandle, call_Free, win32strerror,
    store, deref, holds.
  assert (Eh : (h =? INVALID_HANDLE_VALUE) = false) by (apply Z.eqb_neq; assumption).
  assert (Ep : (p =? 0) = false) by (apply Z.eqb_neq; assumption).
  assert (Eheld : bool_decide (h ∈ {[h]} ∪ handles st) = true)
    by (apply bool_decide_eq_true_2, elem_of_union_l, elem_of_singleton;
        reflexivity).
  repeat (progress (run_M; rewrite ?Hh, ?Hp, ?Eh, ?Ep, ?lookup_insert_eq,
                      ?Hseek, ?Z.eqb_refl, ?Eheld)).
  eexists _, _. split; [reflexivity |]. simpl.
  repeat split.
  - rewrite difference_union_distr_l_L, difference_diag_L, union_empty_l_L.
    apply difference_disjoint_L, disjoint_singleton_r. assumption.
  - rewrite insert_insert_eq. apply delete_insert_id. assumption.
  - repeat rewrite <- app_assoc. reflexivity.
Qed.

(** Which removal primitive [delete] calls is settled by comparing the
    whole attribute word with FILE_ATTRIBUTE_DIRECTORY. *)
Lemma delete_dispatch (st : proc) (path : list ascii) :
  exists r st' rest,
    __PHYSFS_platformDelete path st = Some (r, st')
    /\ trace st' = trace st ++
          CallGetFileAttributes path ::
          (if value (GetFileAttributes path) =? FILE_ATTRIBUTE_DIRECTORY
           then CallRemoveDirectory path else CallDeleteFile path) :: rest.
Proof.
  unfold __PHYSFS_platformDelete, call_GetFileAttributes,
    call_RemoveDirectory, call_DeleteFile, win32strerror.
  run_M.
  destruct (value (GetFileAttributes path) =? FILE_ATTRIBUTE_DIRECTORY); run_M.
  - destruct (value (RemoveDirectory path)); run_M;
      eexists _, _, _; (split; [reflexivity |]); simpl;
      repeat rewrite <- app_assoc; reflexivity.
  - destruct (value (DeleteFile path)); run_M;
      eexists _, _, _; (split; [reflexivity |]); simpl;
      repeat rewrite <- app_assoc; reflexivity.
Qed.

(** C8: a transfer of [B] bytes with elements of [size] bytes makes [read]
    return the quotient of [B] by [size], rounded down: the elements that
    arrived whole. *)
Theorem read_counts_whole_elements
    (st : proc) (opaque : Z) (f : win32file) (size count B : Z) :
  heap st !! opaque = Some (Some f) ->
  0 < size < 2 ^ 32 ->
  0 <= B < 2 ^ 32 ->
  value (ReadFile (handle f) (uint32 (count * size))) = Some B ->
  exists st',
    __PHYSFS_platformRead opaque size count st = Some (B / size, st')
    /\ B / size * size <= B < (B / size + 1) * size.
Proof.
  intros Hf Hsize HB Hread.
  unfold __PHYSFS_platformRead, call_ReadFile, deref.
  run_M. rewrite Hf. run_M. rewrite Hread. run_M.
  destruct (Z.eqb_spec size 0) as [| _]; [lia |].
  assert (Hq : 0 <= B / size <= B).
  { split; [apply Z.div_pos; lia |].
    apply Z.div_le_upper_bound; nia. }
  unfold uint32, sint64. rewrite (Z.mod_small B) by lia.
  rewrite (Z.mod_small (B / size)) by lia.
  destruct (Z.ltb_spec (B / size) (2 ^ 63)); [| lia].
  eexists. split; [reflexivity |].
  pose proof (Z.div_mod B size). pose proof (Z.mod_pos_bound B size). nia.
Qed.

End FileHandleFacts.

(** ** Properties of the file time conversion *)

Section FileTimeFacts.

Local Open Scope Z_scope.
Context {os : Win32} {clock : TimeApi}.

Lemma sint32_small (z : Z) : - 2 ^ 31 <= z < 2 ^ 31 -> sint32 z = z.
Proof.
  intros Hz. unfold sint32.
  destruct (Z.lt_ge_cases z 0) as [Hneg | Hpos].
  - replace (z mod 2 ^ 32) with (z + 2 ^ 32).
    + destruct (Z.ltb_spec (z + 2 ^ 32) (2 ^ 31)); lia.
    + apply Z.mod_unique with (q := -1); lia.
  - rewrite Z.mod_small by lia.
    destruct (Z.ltb_spec z (2 ^ 31)); lia.
Qed.

Lemma sint64_small (z : Z) : - 2 ^ 63 <= z < 2 ^ 63 -> sint64 z = z.
Proof.
  intros Hz. unfold sint64.
  destruct (Z.lt_ge_cases z 0) as [Hneg | Hpos].
  - replace (z mod 2 ^ 64) with (z + 2 ^ 64).
    + destruct (Z.ltb_spec (z + 2 ^ 64) (2 ^ 63)); lia.
    + apply Z.mod_unique with (q := -1); lia.
  - rewrite Z.mod_small by lia.
    destruct (Z.ltb_spec z (2 ^ 63)); lia.
Qed.

Lemma total_bias_sum (tzid : Z) (tzi : TIME_ZONE_INFORMATION) :
  - 2 ^ 31 <= Bias tzi + regime_bias tzid tzi < 2 ^ 31 ->
  total_bias tzid tzi = Bias tzi + regime_bias tzid tzi.
Proof.
  unfold total_bias, regime_bias.
  destruct (tzid =? TIME_ZONE_ID_STANDARD);
    [| destruct (tzid =? TIME_ZONE_ID_DAYLIGHT)];
    intros Hr; try (apply sint32_small; exact Hr); lia.
Qed.

Lemma QuadPart_apply_bias (tzid : Z) (tzi : TIME_ZONE_INFORMATION) (ft : FILETIME) :
  QuadPart (apply_bias tzid tzi ft) =
  (QuadPart ft - sint64 (sint64 (total_bias tzid tzi) * 600000000)) mod 2 ^ 64.
Proof.
  unfold apply_bias.
  set (q := uint64 _). unfold QuadPart at 1. simpl.
  assert (Hq : 0 <= q < 2 ^ 64) by (apply Z.mod_pos_bound; lia).
  assert (0 <= q / 2 ^ 32 < 2 ^ 32) by
    (split; [apply Z.div_pos; lia | apply Z.div_lt_upper_bound; lia]).
  unfold uint32. rewrite !Zmod_mod.
  rewrite (Z.mod_small (q / 2 ^ 32)) by lia.
  pose proof (Z.div_mod q (2 ^ 32)). unfold q, uint64 in *. lia.
Qed.

(** C9: on the fallback path the file time handed on to the calendar
    conversion is the raw 64-bit count minus total bias times 600000000,
    in 64-bit arithmetic, the total bias being the base bias plus the bias
    of the active regime. *)
Theorem fallback_subtracts_bias_in_100ns_units
    (st : proc) (ft : FILETIME) (st_utc : SYSTEMTIME)
    (tzid : Z) (tzi : TIME_ZONE_INFORMATION) :
  - 2 ^ 31 <= Bias tzi + regime_bias tzid tzi < 2 ^ 31 ->
  value (FileTimeToSystemTime ft) = Some st_utc ->
  value GetTimeZoneInformation = (tzid, tzi) ->
  tzid <> TIME_ZONE_ID_INVALID ->
  value (SystemTimeToTzSpecificLocalTime tzi st_utc) = None ->
  let total := Bias tzi + regime_bias tzid tzi in
  let new_ft := apply_bias tzid tzi ft in
  QuadPart new_ft = (QuadPart ft - total * 600000000) mod 2 ^ 64
  /\ sint64 (QuadPart new_ft) = sint64 (sint64 (QuadPart ft) - total * 600000000)
  /\ exists st1,
       FileTimeToPhysfsTime ft st =
       match value (FileTimeToSystemTime new_ft) with
       | Some st_localtz => to_epoch st_localtz st1
       | None => (e ← win32strerror; BAIL_MACRO e (-1)) st1
       end.
Proof.
  intros Hrange Hutc Htz Hvalid Hdirect total new_ft.
  assert (Hquad : QuadPart new_ft = (QuadPart ft - total * 600000000) mod 2 ^ 64).
  { unfold new_ft. rewrite QuadPart_apply_bias, total_bias_sum by exact Hrange.
    fold total. rewrite (sint64_small total) by (unfold total; lia).
    rewrite sint64_small by (unfold total; lia). reflexivity. }
  split; [exact Hquad |]. split.
  - rewrite Hquad. unfold sint64 at 1 2 3.
    rewrite Zmod_mod.
    destruct (Z.ltb_spec (QuadPart ft mod 2 ^ 64) (2 ^ 63)).
    + rewrite Zminus_mod_idemp_l. reflexivity.
    + replace (QuadPart ft mod 2 ^ 64 - 2 ^ 64 - total * 600000000)
        with (QuadPart ft mod 2 ^ 64 - total * 600000000 + (-1) * 2 ^ 64) by lia.
      rewrite Z.mod_add by lia. rewrite Zminus_mod_idemp_l. reflexivity.
  - unfold FileTimeToPhysfsTime, call_FileTimeToSystemTime,
      call_GetTimeZoneInformation, call_SystemTimeToTzSpecificLocalTime.
    run_M. rewrite Hutc. run_M. rewrite Htz. run_M.
    destruct (Z.eqb_spec tzid TIME_ZONE_ID_INVALID) as [| _]; [contradiction |].
    run_M. rewrite Hdirect. run_M. fold new_ft.
    eexists. destruct (value (FileTimeToSystemTime new_ft)); reflexivity.
Qed.

End FileTimeFacts.

(** ** The file handle functions on the sample systems *)

Section FileHandleRuns.

Local Open Scope Z_scope.

(** A file of 10 bytes read to its end: [eof] answers 1. *)
Lemma eof_iff_nonzero_offset_at_length_witness :
  exists r st',
    __PHYSFS_platformEOF
      (os := sample_os 10 10 FILE_ATTRIBUTE_ARCHIVE (quiet (10, 0)) None)
      4096 one_open_file = Some (r, st')
    /\ (r = 1 \/ r = 0)
    /\ (r = 1 <-> 10 <> 0 /\ 10 = 10).
Proof.
  apply (eof_iff_nonzero_offset_at_length
           (os := sample_os 10 10 FILE_ATTRIBUTE_ARCHIVE (quiet (10, 0)) None)
           one_open_file 4096 {| handle := 3; readonly := 1 |} 10 10).
  - reflexivity.
  - lia.
  - lia.
  - split; [reflexivity | intros _; reflexivity].
  - split; [reflexivity | intros _; reflexivity].
Defined.

(** C1 at its failing input, a file of no bytes: the offset, 0, equals the
    length, 0, and [eof] answers 0, so the rule of C1 does not hold of the
    code there. *)
Lemma eof_empty_file_counterexample :
  let os := sample_os 0 0 FILE_ATTRIBUTE_ARCHIVE (quiet (0, 0)) None in
  reports (SetFilePointer 3 0 (Some 0) FILE_CURRENT) 0
  /\ reports (GetFileSize 3) 0
  /\ fst <$> __PHYSFS_platformEOF 4096 one_open_file = Some 0
  /\ ~ (fst <$> __PHYSFS_platformEOF 4096 one_open_file = Some 1 <-> 0 = 0).
Proof.
  assert (Hrun : fst <$> __PHYSFS_platformEOF
                   (os := sample_os 0 0 FILE_ATTRIBUTE_ARCHIVE (quiet (0, 0)) None)
                   4096 one_open_file = Some 0) by (vm_compute; reflexivity).
  simpl. repeat split; try (intros _; reflexivity); try exact Hrun.
  rewrite Hrun. intros [_ Hiff]. specialize (Hiff eq_refl). discriminate.
Qed.

Lemma open_append_failed_seek_releases_witness :
  exists st' e,
    __PHYSFS_platformOpenAppend
      (os := sample_os 0 0 FILE_ATTRIBUTE_ARCHIVE
               (failing (PHYSFS_INVALID_SET_FILE_POINTER, 0) 87) None)
      (text "C:\log.txt") idle = Some (0, st')
    /\ handles st' = handles idle
    /\ heap st' = heap idle
    /\ physfs_err st' = Some e
    /\ trace st' = trace idle ++
          [CallCreateFile (text "C:\log.txt") GENERIC_WRITE OPEN_ALWAYS;
           CallMalloc sizeof_win32file;
           CallSetFilePointer 3 0 None FILE_END;
           CallCloseHandle 3;
           CallFree 4096;
           SetError e].
Proof.
  apply (open_append_failed_seek_releases
           (os := sample_os 0 0 FILE_ATTRIBUTE_ARCHIVE
                    (failing (PHYSFS_INVALID_SET_FILE_POINTER, 0) 87) None)
           idle (text "C:\log.txt") 3 4096).
  - reflexivity.
  - discriminate.
  - simpl. apply not_elem_of_empty.
  - reflexivity.
  - discriminate.
  - reflexivity.
  - reflexivity.
Defined.

(** C7 at a directory that is also read-only: [is_directory] answers 1 by
    testing the directory bit, while [delete] compares the whole attribute
    word, finds it different from FILE_ATTRIBUTE_DIRECTORY and calls
    DeleteFile, never RemoveDirectory. *)
Theorem delete_readonly_directory_calls_DeleteFile :
  let os := sample_os 0 0 (Z.lor FILE_ATTRIBUTE_DIRECTORY FILE_ATTRIBUTE_READONLY)
              (quiet (0, 0)) None in
  let path := text "C:\data" in
  fst <$> __PHYSFS_platformIsDirectory path idle = Some 1
  /\ (trace ∘ snd) <$> __PHYSFS_platformDelete path idle =
     Some [CallGetFileAttributes path;
           CallDeleteFile path;
           SetError (ERR_WIN32 (text "Access is denied."))].
Proof. split; vm_compute; reflexivity. Qed.

(** 30 bytes arrive where 4 elements of 8 bytes were asked for: 3. *)
Lemma read_counts_whole_elements_witness :
  exists st',
    __PHYSFS_platformRead
      (os := sample_os 0 30 FILE_ATTRIBUTE_ARCHIVE (quiet (30, 0)) (Some 30))
      4096 8 4 one_open_file = Some (30 / 8, st')
    /\ 30 / 8 * 8 <= 30 < (30 / 8 + 1) * 8.
Proof.
  apply (read_counts_whole_elements
           (os := sample_os 0 30 FILE_ATTRIBUTE_ARCHIVE (quiet (30, 0)) (Some 30))
           one_open_file 4096 {| handle := 3; readonly := 1 |} 8 4 30).
  - reflexivity.
  - lia.
  - lia.
  - reflexivity.
Defined.

End FileHandleRuns.

(** ** The file time conversion on the sample system *)

Section FileTimeRuns.

Local Open Scope Z_scope.

(** 240 minutes of total bias are 144000000000 units of 100 ns. *)
Lemma fallback_subtracts_bias_in_100ns_units_witness :
  let ft := {| dwLowDateTime := 0x12345678; dwHighDateTime := 0x01C1A2B3 |} in
  let tzi := {| Bias := 300; StandardBias := 0; DaylightBias := -60 |} in
  QuadPart (apply_bias TIME_ZONE_ID_DAYLIGHT tzi ft)
  = (QuadPart ft - 240 * 600000000) mod 2 ^ 64.
Proof.
  refine (proj1 (fallback_subtracts_bias_in_100ns_units
                   (os := sample_os 0 0 FILE_ATTRIBUTE_ARCHIVE (quiet (0, 0)) None)
                   (clock := sample_clock) idle
                   {| dwLowDateTime := 0x12345678; dwHighDateTime := 0x01C1A2B3 |}
                   {| wYear := 2001; wMonth := 2; wDayOfWeek := 0; wDay := 3;
                      wHour := 4; wMinute := 5; wSecond := 6;
                      wMilliseconds := 0x01C1A2B312345678 |}
                   TIME_ZONE_ID_DAYLIGHT
                   {| Bias := 300; StandardBias := 0; DaylightBias := -60 |}
                   _ _ _ _ _)).
  - vm_compute. split; [discriminate | reflexivity].
  - reflexivity.
  - reflexivity.
  - discriminate.
  - reflexivity.
Defined.

End FileTimeRuns.

(** ** The path canonicalizer on given paths *)

Section RealPathRuns.

Variable h : host.
Variable fresh : block.
Variable cwd : list ascii.
Hypothesis Hblock : malloc_path h = Some fresh.

Ltac run_realpath Hcwd :=
  unfold __PHYSFS_platformRealPath; rewrite Hblock;
  unfold absolutize; rewrite Hcwd;
  vm_compute; reflexivity.

(** C2, as the code has it: a ".." at the drive root is made to look
    like a "." entry, and the "." entry that ends the string is cut off
    together with its separator. *)
Theorem realpath_parent_of_drive_root (n : nat) :
  __PHYSFS_platformCurrentDir h = Ret cwd ->
  __PHYSFS_platformRealPath (3 + n) h (Some (text "C:\..")) = Ret (text "C:").
Proof. intros Hcwd. run_realpath Hcwd. Qed.

(** C3 at its own input: the "." entry is taken out, then the ".." entry
    that does not end the string cuts the string at the separator before
    the previous entry, and what followed the ".." is lost. *)
Theorem realpath_interior_parent_truncates (n : nat) :
  __PHYSFS_platformCurrentDir h = Ret cwd ->
  __PHYSFS_platformRealPath (3 + n) h (Some (text "C:\a\.\b\..\c"))
  = Ret (text "C:\a").
Proof. intros Hcwd. run_realpath Hcwd. Qed.

(** C5: a drive-relative path on the current drive is resolved against the
    current directory, one on another drive against that drive's root. *)
Theorem realpath_drive_relative (n : nat) :
  __PHYSFS_platformCurrentDir h = Ret (text "C:\Users\x\") ->
  __PHYSFS_platformRealPath (1 + n) h (Some (text "C:foo"))
    = Ret (text "C:\Users\x\foo")
  /\ __PHYSFS_platformRealPath (1 + n) h (Some (text "D:foo"))
    = Ret (text "D:\foo").
Proof. intros Hcwd. split; run_realpath Hcwd. Qed.

End RealPathRuns.

(** A ".." entry that ends the string is spliced with what the block
    holds past the terminator: the result then depends on what the
    allocator left in the block.  On a zeroed block the parent is reached;
    on a block without a terminator the read runs off its end; and on a
    block that holds the removed entry again the loop does not end within
    the steps given. *)
Example realpath_trailing_parent_reads_fresh_block :
  __PHYSFS_platformRealPath 3 (sample_host_with (filled NUL))
    (Some (text "C:\a\..")) = Ret (text "C:\")
  /\ __PHYSFS_platformRealPath 3 (sample_host_with (filled "X"))
       (Some (text "C:\a\..")) = Undefined
  /\ __PHYSFS_platformRealPath 3 (sample_host_with (holding NUL 8 (text "tmp")))
       (Some (text "C:\a\..")) = Ret (text "C:\tmp")
  /\ __PHYSFS_platformRealPath 100
       (sample_host_with (holding NUL 8 (text "a\..")))
       (Some (text "C:\a\..")) = OutOfFuel.
Proof. repeat split; vm_compute; reflexivity. Qed.

Lemma realpath_parent_of_drive_root_witness :
  __PHYSFS_platformRealPath 3 (sample_host "X") (Some (text "C:\..")) = Ret (text "C:").
Proof.
  apply (realpath_parent_of_drive_root (sample_host "X") (filled "X")
           (text "C:\Users\x\") eq_refl 0).
  vm_compute. reflexivity.
Defined.

(** C2 as the specification words it: no number of steps makes the result
    the drive root with its separator. *)
Lemma realpath_parent_of_drive_root_counterexample :
  ~ exists fuel,
      __PHYSFS_platformRealPath fuel (sample_host "X") (Some (text "C:\.."))
      = Ret (text "C:\").
Proof.
  intros [fuel Hrun].
  destruct fuel as [| [| [| n]]]; vm_compute in Hrun; discriminate.
Qed.

Lemma realpath_interior_parent_truncates_witness :
  __PHYSFS_platformRealPath 3 (sample_host "X") (Some (text "C:\a\.\b\..\c"))
  = Ret (text "C:\a").
Proof.
  apply (realpath_interior_parent_truncates (sample_host "X") (filled "X")
           (text "C:\Users\x\") eq_refl 0).
  vm_compute. reflexivity.
Defined.

Lemma realpath_drive_relative_witness :
  __PHYSFS_platformRealPath 1 (sample_host "X") (Some (text "C:foo"))
    = Ret (text "C:\Users\x\foo")
  /\ __PHYSFS_platformRealPath 1 (sample_host "X") (Some (text "D:foo"))
    = Ret (text "D:\foo").
Proof.
  apply (realpath_drive_relative (sample_host "X") (filled "X") eq_refl 0).
  vm_compute. reflexivity.
Defined.

(** ** Facts on C strings and blocks *)

Section CStringFacts.

Lemma cstr_no_NUL (l : list ascii) : Forall (fun c => c <> NUL) (cstr l).
Proof.
  induction l as [| c rest IH]; simpl; [constructor |].
  destruct (Ascii.eqb_spec c NUL); [constructor |].
  constructor; assumption.
Qed.

Lemma cstr_id (l : list ascii) : Forall (fun c => c <> NUL) l -> cstr l = l.
Proof.
  induction 1 as [| c rest Hc _ IH]; simpl; [reflexivity |].
  destruct (Ascii.eqb_spec c NUL); [contradiction |].
  rewrite IH. reflexivity.
Qed.

Lemma strlen_from_intro (m : block) (n : nat) :
  forall i room,
    (forall k, k < n -> m (i + k) <> NUL) ->
    m (i + n) = NUL ->
    n < room ->
    strlen_from m i room = Some n.
Proof.
  induction n as [| n IH]; intros i room Hbody Hend Hroom;
    (destruct room as [| room]; [lia |]); simpl.
  - rewrite Nat.add_0_r in Hend. rewrite Hend. reflexivity.
  - destruct (Ascii.eqb_spec (m i) NUL) as [Hnul | _].
    + exfalso. apply (Hbody 0); [lia |]. rewrite Nat.add_0_r. exact Hnul.
    + rewrite (IH (S i) room); [reflexivity | | | lia].
      * intros k Hk. replace (S i + k) with (i + S k) by lia. apply Hbody. lia.
      * replace (S i + n) with (i + S n) by lia. exact Hend.
Qed.

Lemma strlen_from_elim (m : block) :
  forall room i n,
    strlen_from m i room = Some n ->
    n < room /\ (forall k, k < n -> m (i + k) <> NUL) /\ m (i + n) = NUL.
Proof.
  induction room as [| room IH]; intros i n Hlen; simpl in Hlen; [discriminate |].
  destruct (Ascii.eqb_spec (m i) NUL) as [Hnul | Hchar].
  - injection Hlen as <-. rewrite Nat.add_0_r. repeat split; [lia | | exact Hnul].
    intros k Hk. lia.
  - destruct (strlen_from m (S i) room) as [n' |] eqn:Hrest; [| discriminate].
    injection Hlen as <-.
    destruct (IH _ _ Hrest) as (Hroom & Hbody & Hend).
    repeat split; [lia | |].
    + intros [| k] Hk; [rewrite Nat.add_0_r; exact Hchar |].
      replace (i + S k) with (S i + k) by lia. apply Hbody. lia.
    + replace (i + S n') with (S i + n') by lia. exact Hend.
Qed.

Lemma map_seq_nth (m : block) (l : list ascii) (p : nat) :
  (forall k, k < length l -> m (p + k) = nth k l NUL) ->
  map m (seq p (length l)) = l.
Proof.
  revert p. induction l as [| c rest IH]; intros p Hm; simpl; [reflexivity |].
  f_equal.
  - specialize (Hm 0). simpl in Hm. rewrite Nat.add_0_r in Hm. apply Hm. lia.
  - apply IH. intros k Hk. replace (S p + k) with (p + S k) by lia.
    apply (Hm (S k)). simpl. lia.
Qed.

(** A block that holds the chars of [l] and then a terminator reads back
    as [l]. *)
Lemma read_cstr_intro (size : nat) (m : block) (l : list ascii) (p : nat) :
  Forall (fun c => c <> NUL) l ->
  (forall k, k < length l -> m (p + k) = nth k l NUL) ->
  m (p + length l) = NUL ->
  p + length l < size ->
  strlen size m p = Some (length l) /\ read_cstr size m p = Some l.
Proof.
  intros Hl Hm Hend Hsize.
  assert (Hlen : strlen size m p = Some (length l)).
  { apply strlen_from_intro; [| exact Hend | lia].
    intros k Hk. rewrite Hm by exact Hk.
    rewrite Forall_forall in Hl. apply Hl.
    apply list_elem_of_In, nth_In. exact Hk. }
  split; [exact Hlen |].
  unfold read_cstr. rewrite Hlen. simpl. f_equal. apply map_seq_nth. exact Hm.
Qed.

Lemma write_chars_inside (m : block) (dst : nat) (l : list ascii) (k : nat) :
  k < length l -> write_chars m dst l (dst + k) = nth k l NUL.
Proof.
  intros Hk. unfold write_chars.
  destruct (Nat.leb_spec dst (dst + k)); [| lia].
  destruct (Nat.ltb_spec (dst + k) (dst + length l)); [| lia].
  simpl. f_equal. lia.
Qed.

Lemma write_chars_before (m : block) (dst : nat) (l : list ascii) (j : nat) :
  j < dst -> write_chars m dst l j = m j.
Proof.
  intros Hj. unfold write_chars.
  destruct (Nat.leb_spec dst j); [lia | reflexivity].
Qed.

Lemma nth_app_NUL (l : list ascii) (k : nat) :
  nth k (l ++ [NUL]) NUL = nth k l NUL.
Proof.
  destruct (Nat.lt_ge_cases k (length l)) as [Hin | Hout].
  - apply app_nth1. exact Hin.
  - rewrite app_nth2 by exact Hout. rewrite (nth_overflow l) by exact Hout.
    destruct (k - length l) as [| [| j]]; reflexivity.
Qed.

(** What [strcpy] leaves in the block. *)
Lemma strcpy_spec (size : nat) (m m' : block) (dst : nat) (src : list ascii) :
  strcpy size m dst src = Some m' ->
  dst + length (cstr src) < size
  /\ (forall k, k <= length (cstr src) -> m' (dst + k) = nth k (cstr src) NUL)
  /\ (forall j, j < dst -> m' j = m j).
Proof.
  unfold strcpy. rewrite length_app. simpl.
  destruct (Nat.leb_spec (dst + (length (cstr src) + 1)) size); [| discriminate].
  intros [= <-]. repeat split; [lia | |].
  - intros k Hk. rewrite write_chars_inside by (rewrite length_app; simpl; lia).
    apply nth_app_NUL.
  - intros j Hj. apply write_chars_before. exact Hj.
Qed.

Lemma strcpy_fits (size : nat) (m : block) (dst : nat) (src : list ascii) :
  dst + length (cstr src) < size ->
  exists m', strcpy size m dst src = Some m'.
Proof.
  intros Hfit. unfold strcpy. rewrite length_app. simpl.
  destruct (Nat.leb_spec (dst + (length (cstr src) + 1)) size); [| lia].
  eexists. reflexivity.
Qed.

End CStringFacts.

(** ** The current directory *)

Section CurrentDirFacts.

Variable h : host.

Local Abbreviation dir := (reported_dir h).

(** The host reports a directory whose length, terminator included, fits a
    DWORD. *)
Hypothesis Hdword : (Z.of_nat (length dir) + 1 < 2 ^ 32)%Z.

Lemma nth_last_lookup (l : list ascii) (c : ascii) :
  l <> [] -> nth (length l - 1) l NUL = c -> last l = Some c.
Proof.
  intros Hne Hnth. rewrite last_lookup.
  replace (pred (length l)) with (length l - 1) by lia.
  destruct (lookup_lt_is_Some_2 l (length l - 1)) as [x Hx].
  { destruct l; [contradiction | simpl; lia]. }
  rewrite Hx. f_equal. rewrite <- Hnth.
  rewrite (nth_lookup l (length l - 1) NUL), Hx. reflexivity.
Qed.

Lemma current_dir_value (fresh : block) :
  malloc_cwd h = Some fresh ->
  dir <> [] ->
  __PHYSFS_platformCurrentDir h =
  Ret (if Ascii.eqb (nth (length dir - 1) dir NUL) SEP then dir else dir ++ [SEP]).
Proof.
  intros Hmalloc Hne.
  assert (Hpos : 0 < length dir) by (destruct dir; [contradiction | simpl; lia]).
  unfold __PHYSFS_platformCurrentDir. fold (reported_dir h). rewrite Hmalloc.
  unfold wrap32.
  rewrite (Z.mod_small (Z.of_nat (length dir) + 1)) by lia.
  rewrite (Z.mod_small (Z.of_nat (length dir) + 1 - 2)) by lia.
  replace (Z.to_nat (Z.of_nat (length dir) + 1 + 2)) with (length dir + 3) by lia.
  replace (Z.to_nat (Z.of_nat (length dir) + 1 - 2)) with (length dir - 1) by lia.
  destruct (Z.ltb_spec (Z.of_nat (length dir)) (Z.of_nat (length dir) + 1)); [| lia].
  set (retval := write_chars fresh 0 (dir ++ [NUL])).
  assert (Hbody : forall k, k <= length dir -> retval k = nth k dir NUL).
  { intros k Hk. unfold retval.
    rewrite <- (Nat.add_0_l k) at 1.
    rewrite write_chars_inside by (rewrite length_app; simpl; lia).
    apply nth_app_NUL. }
  assert (Hend : retval (length dir) = NUL).
  { rewrite Hbody by lia. apply nth_overflow. lia. }
  destruct (read_cstr_intro (length dir + 3) retval dir 0) as [Hlen Hread];
    [apply cstr_no_NUL | intros k Hk; apply Hbody; simpl; lia
     | exact Hend | lia |].
  unfold peek. destruct (Nat.ltb_spec (length dir - 1) (length dir + 3)); [| lia].
  simpl obind. rewrite Hbody by lia.
  destruct (Ascii.eqb (nth (length dir - 1) dir NUL) SEP).
  - simpl obind. rewrite Hread. reflexivity.
  - unfold strcat. rewrite Hlen. simpl mbind.
    destruct (strcpy_fits (length dir + 3) retval (length dir) [SEP])
      as [m2 Hcopy]; [simpl; lia |].
    simpl option_bind. rewrite Hcopy. simpl obind.
    destruct (strcpy_spec _ _ _ _ _ Hcopy) as (_ & Hnew & Hold).
    destruct (read_cstr_intro (length dir + 3) m2 (dir ++ [SEP]) 0) as [_ Hread2].
    + apply Forall_app. split; [apply cstr_no_NUL |].
      constructor; [discriminate | constructor].
    + intros k Hk. rewrite length_app in Hk. simpl in Hk. simpl.
      destruct (Nat.lt_ge_cases k (length dir)) as [Hin | Hout].
      * rewrite Hold by exact Hin. rewrite Hbody by lia.
        symmetry. apply app_nth1. exact Hin.
      * replace k with (length dir + 0) by lia.
        rewrite (Hnew 0) by (simpl; lia).
        rewrite app_nth2 by lia.
        replace (length dir + 0 - length dir) with 0 by lia. reflexivity.
    + rewrite length_app. simpl. rewrite (Hnew 1) by (simpl; lia). reflexivity.
    + rewrite length_app. simpl. lia.
    + rewrite Hread2. reflexivity.
Qed.

Lemma current_dir_of_nothing (fresh : block) :
  malloc_cwd h = Some fresh ->
  dir = [] ->
  __PHYSFS_platformCurrentDir h = Undefined.
Proof.
  intros Hmalloc Hnil.
  unfold __PHYSFS_platformCurrentDir. fold (reported_dir h). rewrite Hmalloc, Hnil.
  simpl length. unfold wrap32.
  change (Z.of_nat 0 + 1)%Z with 1%Z.
  rewrite (Z.mod_small 1) by lia.
  change (1 - 2)%Z with (-1)%Z. change (Z.to_nat (1 + 2)) with 3.
  unfold peek.
  destruct (Nat.ltb_spec (Z.to_nat (-1 mod 2 ^ 32)) 3) as [Hlt | _];
    [| reflexivity].
  exfalso. change (-1 mod 2 ^ 32)%Z with 4294967295%Z in Hlt. lia.
Qed.

(** C10: whatever string the function returns ends with the separator: it
    is the directory the host reports, with one separator appended when
    that directory does not end with one.  A string is returned whenever
    the allocation succeeds and the host reports a directory. *)
Theorem current_directory_ends_with_separator :
  (forall cwd,
      __PHYSFS_platformCurrentDir h = Ret cwd ->
      last cwd = Some SEP
      /\ cwd = (if Ascii.eqb (nth (length dir - 1) dir NUL) SEP
                then dir else dir ++ [SEP]))
  /\ (forall fresh,
        malloc_cwd h = Some fresh -> dir <> [] ->
        exists cwd, __PHYSFS_platformCurrentDir h = Ret cwd).
Proof.
  split.
  - intros cwd Hret.
    destruct (malloc_cwd h) as [fresh |] eqn:Hmalloc.
    + destruct (decide (dir = [])) as [Hnil | Hne].
      * rewrite (current_dir_of_nothing fresh Hmalloc Hnil) in Hret. discriminate.
      * rewrite (current_dir_value fresh Hmalloc Hne) in Hret.
        injection Hret as <-. split; [| reflexivity].
        destruct (Ascii.eqb_spec (nth (length dir - 1) dir NUL) SEP) as [Hsep | _].
        -- apply nth_last_lookup; assumption.
        -- apply last_snoc.
    + unfold __PHYSFS_platformCurrentDir in Hret. rewrite Hmalloc in Hret.
      discriminate.
  - intros fresh Hmalloc Hne. eexists. apply (current_dir_value fresh); assumption.
Qed.

End CurrentDirFacts.

Lemma current_directory_ends_with_separator_witness :
  (forall cwd,
      __PHYSFS_platformCurrentDir (sample_host "X") = Ret cwd ->
      last cwd = Some SEP
      /\ cwd = text "C:\Users\x\")
  /\ (forall fresh,
        malloc_cwd (sample_host "X") = Some fresh ->
        text "C:\Users\x" <> [] ->
        exists cwd, __PHYSFS_platformCurrentDir (sample_host "X") = Ret cwd).
Proof.
  apply (current_directory_ends_with_separator (sample_host "X")).
  vm_compute. reflexivity.
Defined.

(** ** The dot scan leaves nothing it would change *)

Section DotScanFacts.

Lemma SEP_not_NUL : SEP <> NUL.
Proof. discriminate. Qed.

Lemma DOT_not_NUL : DOT <> NUL.
Proof. discriminate. Qed.

Lemma SEP_not_DOT : SEP <> DOT.
Proof. discriminate. Qed.

Lemma plain_empty (m : block) (i : nat) : plain m i i.
Proof. intros j Hj. lia. Qed.

Lemma plain_step (m : block) (i q : nat) :
  m i <> NUL -> ~ (m i = SEP /\ m (S i) = DOT) -> plain m (S i) q -> plain m i q.
Proof.
  intros Hchar Hpair Hrest j Hj.
  destruct (Nat.eq_dec j i) as [-> | Hne]; [split; assumption |].
  apply Hrest. lia.
Qed.

Lemma strstr_from_spec (m : block) :
  forall room i,
    match strstr_from m i room with
    | Some (Some q) =>
        i <= q /\ S q < i + room /\ m q = SEP /\ m (S q) = DOT /\ plain m i q
    | Some None =>
        exists e, i <= e < i + room /\ m e = NUL /\ plain m i e
    | None => forall e, i <= e < i + room -> m e <> NUL
    end.
Proof.
  induction room as [| room IH]; intros i; simpl; [intros e He; lia |].
  destruct (Ascii.eqb_spec (m i) NUL) as [Hnul | Hchar].
  { exists i. split; [lia |]. split; [exact Hnul | apply plain_empty]. }
  destruct room as [| room'].
  { intros e He. replace e with i by lia. exact Hchar. }
  assert (Hnext :
    ~ (m i = SEP /\ m (S i) = DOT) ->
    match strstr_from m (S i) (S room') with
    | Some (Some q) =>
        i <= q /\ S q < i + S (S room') /\ m q = SEP /\ m (S q) = DOT
        /\ plain m i q
    | Some None =>
        exists e, i <= e < i + S (S room') /\ m e = NUL /\ plain m i e
    | None => forall e, i <= e < i + S (S room') -> m e <> NUL
    end).
  { intros Hpair. specialize (IH (S i)).
    destruct (strstr_from m (S i) (S room')) as [[q |] |].
    - destruct IH as (Hle & Hroom & Hq & Hq' & Hplain).
      split; [lia |]. split; [lia |]. split; [exact Hq |].
      split; [exact Hq' |]. apply plain_step; assumption.
    - destruct IH as (e & He & Hnul & Hplain).
      exists e. split; [lia |]. split; [exact Hnul |].
      apply plain_step; assumption.
    - intros e He. destruct (Nat.eq_dec e i) as [-> | Hne]; [exact Hchar |].
      apply IH. lia. }
  destruct (Ascii.eqb_spec (m i) SEP) as [Hsep | Hnosep]; simpl;
    [destruct (Ascii.eqb_spec (m (S i)) DOT) as [Hdot | Hnodot] |]; simpl.
  - split; [lia |]. split; [lia |]. split; [exact Hsep |].
    split; [exact Hdot | apply plain_empty].
  - apply Hnext. tauto.
  - apply Hnext. tauto.
Qed.

Lemma strstr_found (size : nat) (m : block) (p q : nat) :
  strstr_sepdot size m p = Some (Some q) ->
  p <= q /\ S q < size /\ m q = SEP /\ m (S q) = DOT /\ plain m p q.
Proof.
  unfold strstr_sepdot. intros Hfound.
  pose proof (strstr_from_spec m (size - p) p) as Hspec.
  rewrite Hfound in Hspec.
  destruct Hspec as (Hle & Hroom & Hq & Hq' & Hplain).
  split; [exact Hle |]. split; [lia |]. split; [exact Hq |].
  split; [exact Hq' | exact Hplain].
Qed.

Lemma strstr_absent (size : nat) (m : block) (p : nat) :
  strstr_sepdot size m p = Some None ->
  exists e, p <= e < size /\ m e = NUL /\ plain m p e.
Proof.
  unfold strstr_sepdot. intros Habsent.
  pose proof (strstr_from_spec m (size - p) p) as Hspec.
  rewrite Habsent in Hspec.
  destruct Hspec as (e & He & Hnul & Hplain).
  exists e. split; [lia |]. split; [exact Hnul | exact Hplain].
Qed.

Lemma strstr_defined (size : nat) (m : block) (p e : nat) :
  p <= e < size -> m e = NUL -> strstr_sepdot size m p <> None.
Proof.
  unfold strstr_sepdot. intros He Hnul Hnone.
  pose proof (strstr_from_spec m (size - p) p) as Hspec.
  rewrite Hnone in Hspec. apply (Hspec e); [lia | exact Hnul].
Qed.

Lemma scanned_weaken (m : block) (p q : nat) :
  scanned m q -> p <= q -> scanned m p.
Proof. intros Hq Hle i Hi. apply Hq. lia. Qed.

Lemma scanned_plain (m : block) (p q : nat) :
  scanned m p -> plain m p q -> scanned m q.
Proof.
  intros Hp Hplain i Hi.
  destruct (Nat.lt_ge_cases i p) as [Hlow | Hhigh]; [apply Hp; exact Hlow |].
  destruct (Hplain i) as [Hchar Hpair]; [lia |].
  split; [exact Hchar |]. intros Hsep Hdot. tauto.
Qed.

(** The block changes only past the separator at [k]. *)
Lemma scanned_keep (m m1 : block) (k : nat) :
  scanned m k -> m k = SEP ->
  (forall j, j <= k -> m1 j = m j) ->
  scanned m1 k.
Proof.
  intros Hscan Hk Hsame i Hi.
  destruct (Hscan i Hi) as [Hchar Hset].
  rewrite (Hsame i) by lia. split; [exact Hchar |].
  unfold settled_at. rewrite (Hsame i), (Hsame (S i)) by lia.
  intros Hsep Hdot.
  destruct (Nat.eq_dec (S i) k) as [Heq | Hne].
  - rewrite Heq, Hk in Hdot. exfalso. exact (SEP_not_DOT Hdot).
  - rewrite (Hsame (S (S i))) by lia. apply Hset; assumption.
Qed.

(** The string is cut at the separator at [k]. *)
Lemma scanned_cut (m m1 : block) (k : nat) :
  scanned m k -> m k = SEP ->
  (forall j, j < k -> m1 j = m j) -> m1 k = NUL ->
  scanned m1 k.
Proof.
  intros Hscan Hk Hsame Hcut i Hi.
  destruct (Hscan i Hi) as [Hchar Hset].
  rewrite (Hsame i) by lia. split; [exact Hchar |].
  unfold settled_at. rewrite (Hsame i) by lia.
  intros Hsep Hdot.
  destruct (Nat.eq_dec (S i) k) as [Heq | Hne].
  - rewrite Heq, Hcut in Hdot. exfalso. exact (DOT_not_NUL (eq_sym Hdot)).
  - rewrite (Hsame (S i)) in Hdot by lia.
    destruct (Nat.eq_dec (S (S i)) k) as [Heq2 | Hne2].
    + exfalso. apply (Hset Hsep Hdot). left. rewrite Heq2. exact Hk.
    + rewrite (Hsame (S (S i))) by lia. apply Hset; assumption.
Qed.

Lemma prev_sep_spec (m : block) (q : nat) :
  prev_sep m q <= q /\ (prev_sep m q = 0 \/ m (prev_sep m q) = SEP).
Proof.
  induction q as [| q IH]; simpl; [split; [lia | left; reflexivity] |].
  destruct (Ascii.eqb_spec (m (S q)) SEP) as [Hsep | _].
  - split; [lia | right; exact Hsep].
  - destruct IH as [Hle Hor]. split; [lia | exact Hor].
Qed.

Lemma memmove_spec (size : nat) (m m1 : block) (dst src n : nat) :
  memmove size m dst src n = Some m1 ->
  forall j, j < dst -> m1 j = m j.
Proof.
  unfold memmove.
  destruct ((dst + n <=? size) && (src + n <=? size)); [| discriminate].
  intros [= <-] j Hj. destruct (Nat.leb_spec dst j); [lia | reflexivity].
Qed.

Lemma poke_spec (size : nat) (m m1 : block) (i : nat) (c : ascii) :
  poke size m i c = Some m1 ->
  m1 i = c /\ forall j, j <> i -> m1 j = m j.
Proof.
  unfold poke. destruct (i <? size); [| discriminate].
  intros [= <-]. split.
  - rewrite Nat.eqb_refl. reflexivity.
  - intros j Hj. destruct (Nat.eqb_spec j i); [contradiction | reflexivity].
Qed.

Lemma peek_spec (size : nat) (m : block) (i : nat) (c : ascii) :
  peek size m i = Some c -> c = m i /\ i < size.
Proof.
  unfold peek. destruct (Nat.ltb_spec i size); [| discriminate].
  intros [= <-]. split; [reflexivity | assumption].
Qed.

Lemma obind_defined_Ret {A B : Type} (x : option A) (f : A -> outcome B) (r : B) :
  obind (defined x) f = Ret r -> exists a, x = Some a /\ f a = Ret r.
Proof.
  destruct x as [a |]; simpl; [| discriminate].
  intros Hf. exists a. split; [reflexivity | exact Hf].
Qed.

Lemma obind_Ret {A B : Type} (x : outcome A) (f : A -> outcome B) (r : B) :
  obind x f = Ret r -> exists a, x = Ret a /\ f a = Ret r.
Proof.
  destruct x as [a | | |]; simpl; try discriminate.
  intros Hf. exists a. split; [reflexivity | exact Hf].
Qed.

Lemma defined_Ret {A : Type} (x : option A) (a : A) :
  defined x = Ret a -> x = Some a.
Proof. destruct x; simpl; [intros [= ->]; reflexivity | discriminate]. Qed.

Lemma scanned_step (m : block) (q : nat) :
  scanned m q -> m q = SEP -> ~ acts_on (m (S (S q))) -> scanned m (q + 1).
Proof.
  intros Hscan Hq Hnext i Hi.
  destruct (Nat.eq_dec i q) as [-> | Hne]; [| apply Hscan; lia].
  split; [rewrite Hq; exact SEP_not_NUL |]. intros _ _. exact Hnext.
Qed.

(** Every step of the scan keeps what lies below the resume offset
    settled, so the string it ends with has nothing left to act on. *)
Lemma dotscan_settles :
  forall fuel m p m',
    scanned m p ->
    dotscan fuel m p = Ret m' ->
    exists e, e < MAX_PATH /\ m' e = NUL /\ scanned m' e.
Proof.
  induction fuel as [| fuel IH]; intros m p m' Hscan Hrun; [discriminate |].
  cbn [dotscan] in Hrun.
  apply obind_defined_Ret in Hrun as (found & Hfind & Hrun).
  destruct found as [q |].
  2:{ injection Hrun as <-.
      destruct (strstr_absent _ _ _ Hfind) as (e & He & Hnul & Hplain).
      exists e. split; [lia |]. split; [exact Hnul |].
      apply (scanned_plain m p); assumption. }
  destruct (strstr_found _ _ _ _ Hfind) as (Hpq & Hroom & Hq & Hq' & Hplain).
  assert (Hscanq : scanned m q) by (apply (scanned_plain m p); assumption).
  apply obind_defined_Ret in Hrun as (c2 & Hpeek & Hrun).
  apply peek_spec in Hpeek as [-> _].
  replace (q + 2) with (S (S q)) in * by lia.
  destruct (Ascii.eqb_spec (m (S (S q))) SEP) as [Hsep | Hnosep].
  { apply obind_defined_Ret in Hrun as (n & _ & Hrun).
    apply obind_defined_Ret in Hrun as (m1 & Hmove & Hrun).
    apply (IH _ _ _ (scanned_keep m m1 q Hscanq Hq
             (fun j Hj => memmove_spec _ _ _ _ _ _ Hmove j ltac:(lia))) Hrun). }
  destruct (Ascii.eqb_spec (m (S (S q))) NUL) as [Hnul | Hnonul].
  { apply obind_defined_Ret in Hrun as (m1 & Hpoke & Hrun).
    apply poke_spec in Hpoke as [Hcut Hsame].
    apply (IH _ _ _ (scanned_cut m m1 q Hscanq Hq
             (fun j Hj => Hsame j ltac:(lia)) Hcut) Hrun). }
  destruct (Ascii.eqb_spec (m (S (S q))) DOT) as [Hdot | Hnodot].
  2:{ apply (IH _ _ _ (scanned_step m q Hscanq Hq
               ltac:(unfold acts_on; tauto)) Hrun). }
  destruct q as [| q1]; [discriminate |].
  destruct (prev_sep_spec m q1) as [Hple Hpsep].
  destruct (Nat.eqb_spec (prev_sep m q1) 0) as [Hzero | Hnonzero].
  { apply obind_defined_Ret in Hrun as (n & _ & Hrun).
    apply obind_defined_Ret in Hrun as (m1 & Hmove & Hrun).
    apply (IH _ _ _ (scanned_keep m m1 (S q1) Hscanq Hq
             (fun j Hj => memmove_spec _ _ _ _ _ _ Hmove j ltac:(lia))) Hrun). }
  destruct Hpsep as [| Hpsep]; [contradiction |].
  assert (Hscanp : scanned m (prev_sep m q1))
    by (apply (scanned_weaken m _ (S q1)); [exact Hscanq | lia]).
  apply obind_defined_Ret in Hrun as (c3 & _ & Hrun).
  apply obind_Ret in Hrun as (m1 & Hedit & Hrun).
  destruct (Ascii.eqb c3 NUL); cbn [negb] in Hedit.
  - apply obind_defined_Ret in Hedit as (n & _ & Hmove).
    apply defined_Ret in Hmove.
    apply (IH _ _ _ (scanned_keep m m1 _ Hscanp Hpsep
             (fun j Hj => memmove_spec _ _ _ _ _ _ Hmove j ltac:(lia))) Hrun).
  - apply defined_Ret, poke_spec in Hedit as [Hcut Hsame].
    apply (IH _ _ _ (scanned_cut m m1 _ Hscanp Hpsep
             (fun j Hj => Hsame j ltac:(lia)) Hcut) Hrun).
Qed.

(** On a string with nothing left to act on, the scan steps over every
    separator-dot pair and returns the block as it is. *)
Lemma dotscan_fixed (m : block) (e : nat) :
  e < MAX_PATH -> m e = NUL -> scanned m e ->
  forall fuel p, p <= e -> e - p < fuel -> dotscan fuel m p = Ret m.
Proof.
  intros He Hnul Hscan.
  induction fuel as [| fuel IH]; intros p Hp Hfuel; [lia |].
  cbn [dotscan].
  destruct (strstr_sepdot MAX_PATH m p) as [[q |] |] eqn:Hfind; simpl obind.
  - destruct (strstr_found _ _ _ _ Hfind) as (Hpq & Hroom & Hq & Hq' & Hplain).
    assert (Hqe : q < e).
    { destruct (Nat.lt_ge_cases q e) as [Hlt | Hge]; [exact Hlt | exfalso].
      destruct (Nat.eq_dec e q) as [Heq | Hne].
      - rewrite Heq, Hq in Hnul. exact (SEP_not_NUL Hnul).
      - destruct (Hplain e) as [Hchar _]; [lia | contradiction]. }
    assert (Hq'e : S q < e).
    { destruct (Nat.eq_dec (S q) e) as [Heq | Hne]; [exfalso | lia].
      rewrite Heq, Hnul in Hq'. exact (DOT_not_NUL (eq_sym Hq')). }
    destruct (Hscan q Hqe) as [_ Hset]. specialize (Hset Hq Hq').
    unfold peek. destruct (Nat.ltb_spec (q + 2) MAX_PATH); [| lia].
    simpl obind. replace (q + 2) with (S (S q)) by lia.
    destruct (Ascii.eqb_spec (m (S (S q))) SEP) as [Hc | _];
      [exfalso; apply Hset; left; exact Hc |].
    destruct (Ascii.eqb_spec (m (S (S q))) NUL) as [Hc | _];
      [exfalso; apply Hset; right; left; exact Hc |].
    destruct (Ascii.eqb_spec (m (S (S q))) DOT) as [Hc | _];
      [exfalso; apply Hset; right; right; exact Hc |].
    apply IH; lia.
  - reflexivity.
  - exfalso. apply (strstr_defined MAX_PATH m p e); [lia | exact Hnul | exact Hfind].
Qed.

End DotScanFacts.

(** ** Canonicalizing twice *)

Section Idempotence.


Lemma nth_map_seq (m : block) (e k : nat) :
  k < e -> nth k (map m (seq 0 e)) NUL = m k.
Proof.
  intros Hk. rewrite (nth_indep _ NUL (m 0)) by (rewrite length_map, length_seq; lia).
  rewrite map_nth, seq_nth by lia. reflexivity.
Qed.

(** What the function returns is the string of a block that the scan has
    settled up to its terminator. *)
Lemma realpath_result_settled
    (fuel : nat) (h : host) (path : option (list ascii)) (r : list ascii) :
  __PHYSFS_platformRealPath fuel h path = Ret r ->
  exists m e,
    e < MAX_PATH /\ m e = NUL /\ scanned m e /\ r = map m (seq 0 e).
Proof.
  unfold __PHYSFS_platformRealPath. intros Hrun.
  destruct path as [path |]; [| discriminate].
  destruct (Ascii.eqb (char_at path 0) NUL); [discriminate |].
  destruct (malloc_path h) as [fresh |]; [| discriminate].
  apply obind_Ret in Hrun as (m0 & _ & Hrun).
  apply obind_Ret in Hrun as (m & Hscan & Hread).
  apply defined_Ret in Hread.
  apply dotscan_settles in Hscan as (e & He & Hnul & Hsettled);
    [| intros i Hi; lia].
  unfold read_cstr in Hread.
  destruct (strlen MAX_PATH m 0) as [n |] eqn:Hlen; [| discriminate].
  simpl in Hread. injection Hread as <-.
  apply strlen_from_elim in Hlen as (_ & Hbody & Hend). simpl in Hbody, Hend.
  assert (n = e) as ->.
  { destruct (Nat.lt_trichotomy n e) as [Hlt | [Heq | Hgt]]; [| exact Heq |].
    - destruct (Hsettled n Hlt) as [Hchar _]. contradiction.
    - exfalso. apply (Hbody e Hgt). exact Hnul. }
  exists m, e. split; [exact He |]. split; [exact Hnul |].
  split; [exact Hsettled | reflexivity].
Qed.

Lemma absolute_not_empty (r : list ascii) :
  is_absolute r = true -> Ascii.eqb (char_at r 0) NUL = false.
Proof.
  unfold is_absolute, char_at. intros Habs.
  pose proof (cstr_no_NUL r) as Hchars.
  destruct (cstr r) as [| c rest]; [discriminate |].
  simpl. apply Ascii.eqb_neq. inversion Hchars. assumption.
Qed.

Lemma absolute_taken_verbatim
    (h : host) (cwd r : list ascii) (fresh : block) :
  is_absolute r = true ->
  __PHYSFS_platformCurrentDir h = Ret cwd ->
  absolutize h r fresh = defined (strcpy MAX_PATH fresh 0 r).
Proof.
  unfold is_absolute, absolutize. intros Habs Hcwd. rewrite Hcwd.
  destruct (Ascii.eqb (char_at r 0) SEP && Ascii.eqb (char_at r 1) SEP);
    [reflexivity |].
  simpl in Habs. apply andb_prop in Habs as [-> ->]. reflexivity.
Qed.


End Idempotence.



(** ** More on the path canonicalizer *)

Section RealPathMore.

Lemma holds_string_read (size : nat) (m : block) (l : list ascii) :
  holds_string size m l ->
  strlen size m 0 = Some (length l) /\ read_cstr size m 0 = Some l.
Proof.
  intros (Hchars & Hfit & Hm).
  apply read_cstr_intro; [exact Hchars | | | simpl; lia].
  - intros k Hk. simpl. apply Hm. lia.
  - simpl. rewrite Hm by lia. apply nth_overflow. lia.
Qed.

Lemma holds_string_scanned (m : block) (l : list ascii) :
  holds_string MAX_PATH m l -> no_dot_entry l ->
  length l < MAX_PATH /\ m (length l) = NUL /\ scanned m (length l).
Proof.
  intros (Hchars & Hfit & Hm) Hclean.
  split; [exact Hfit |]. split; [rewrite Hm by lia; apply nth_overflow; lia |].
  intros i Hi. split.
  - rewrite Hm by lia. rewrite Forall_forall in Hchars. apply Hchars.
    apply list_elem_of_In, nth_In. exact Hi.
  - unfold settled_at. rewrite (Hm i) by lia. intros Hsep Hdot.
    destruct (Nat.eq_dec (S i) (length l)) as [Heq | Hne].
    + rewrite Hm in Hdot by lia. rewrite nth_overflow in Hdot by lia. discriminate.
    + rewrite Hm in Hdot by lia. rewrite Hm by lia. apply Hclean; assumption.
Qed.

(** A block that holds a string without dot entries goes through the scan
    unchanged and is read back as that string. *)
Lemma scan_of_clean_string (m : block) (l : list ascii) (fuel : nat) :
  holds_string MAX_PATH m l -> no_dot_entry l -> length l < fuel ->
  (do retval <- dotscan fuel m 0; defined (read_cstr MAX_PATH retval 0)) = Ret l.
Proof.
  intros Hholds Hclean Hfuel.
  destruct (holds_string_scanned m l Hholds Hclean) as (Hfit & Hnul & Hscan).
  rewrite (dotscan_fixed m (length l) Hfit Hnul Hscan fuel 0) by lia.
  simpl obind. destruct (holds_string_read _ _ _ Hholds) as [_ Hread].
  rewrite Hread. reflexivity.
Qed.

Lemma strcpy_after (size : nat) (m : block) (pre src l : list ascii) :
  cstr src = l ->
  Forall (fun c => c <> NUL) pre ->
  (forall k, k < length pre -> m k = nth k pre NUL) ->
  length pre + length l < size ->
  exists m', strcpy size m (length pre) src = Some m'
             /\ holds_string size m' (pre ++ l).
Proof.
  intros <- Hpre Hm Hfit.
  destruct (strcpy_fits size m (length pre) src Hfit) as [m' Hcopy].
  exists m'. split; [exact Hcopy |].
  destruct (strcpy_spec _ _ _ _ _ Hcopy) as (_ & Hnew & Hold).
  split; [apply Forall_app; split; [exact Hpre | apply cstr_no_NUL] |].
  split; [rewrite length_app; lia |].
  intros k Hk. rewrite length_app in Hk.
  destruct (Nat.lt_ge_cases k (length pre)) as [Hin | Hout].
  - rewrite Hold by exact Hin. rewrite Hm by exact Hin.
    symmetry. apply app_nth1. exact Hin.
  - replace k with (length pre + (k - length pre)) at 1 by lia.
    rewrite Hnew by lia. rewrite app_nth2 by exact Hout. reflexivity.
Qed.

Lemma strcpy_over (size : nat) (m : block) (dst : nat) (src l : list ascii) :
  cstr src = l -> size <= dst + length l -> strcpy size m dst src = None.
Proof.
  intros <- Hover. unfold strcpy. rewrite length_app. simpl.
  destruct (Nat.leb_spec (dst + (length (cstr src) + 1)) size); [lia | reflexivity].
Qed.

Lemma strcat_holds (size : nat) (m : block) (pre src l : list ascii) :
  cstr src = l ->
  holds_string size m pre ->
  length pre + length l < size ->
  exists m', strcat size m src = Some m' /\ holds_string size m' (pre ++ l).
Proof.
  intros Hsrc Hholds Hfit.
  destruct (holds_string_read _ _ _ Hholds) as [Hlen _].
  destruct Hholds as (Hchars & _ & Hm).
  unfold strcat. rewrite Hlen. simpl.
  apply strcpy_after; [exact Hsrc | exact Hchars | intros k Hk; apply Hm; lia
                       | exact Hfit].
Qed.

Lemma strcat_over (size : nat) (m : block) (pre src l : list ascii) :
  cstr src = l ->
  holds_string size m pre ->
  size <= length pre + length l ->
  strcat size m src = None.
Proof.
  intros Hsrc Hholds Hover.
  destruct (holds_string_read _ _ _ Hholds) as [Hlen _].
  unfold strcat. rewrite Hlen. simpl. apply (strcpy_over _ _ _ _ l); assumption.
Qed.

Lemma strcpy_holds (size : nat) (m : block) (src l : list ascii) :
  cstr src = l ->
  length l < size ->
  exists m', strcpy size m 0 src = Some m' /\ holds_string size m' l.
Proof.
  intros Hsrc Hfit.
  apply (strcpy_after size m [] src l);
    [exact Hsrc | constructor | intros k Hk; simpl in Hk; lia | simpl; exact Hfit].
Qed.

Lemma read_cstr_no_NUL (size : nat) (m : block) (p : nat) (l : list ascii) :
  read_cstr size m p = Some l -> Forall (fun c => c <> NUL) l.
Proof.
  unfold read_cstr. destruct (strlen size m p) as [n |] eqn:Hlen; [| discriminate].
  simpl. intros [= <-].
  apply strlen_from_elim in Hlen as (_ & Hbody & _).
  apply Forall_forall. intros c Hc.
  apply list_elem_of_In, in_map_iff in Hc as (i & <- & Hi).
  apply in_seq in Hi. replace i with (p + (i - p)) by lia. apply Hbody. lia.
Qed.

Lemma current_dir_no_NUL (h : host) (c : list ascii) :
  __PHYSFS_platformCurrentDir h = Ret c -> Forall (fun x => x <> NUL) c.
Proof.
  unfold __PHYSFS_platformCurrentDir.
  destruct (malloc_cwd h) as [fresh |]; [| discriminate].
  intros Hrun.
  apply obind_defined_Ret in Hrun as (last & _ & Hrun).
  apply obind_Ret in Hrun as (m & _ & Hread).
  apply defined_Ret in Hread. exact (read_cstr_no_NUL _ _ _ _ Hread).
Qed.

Lemma nth_0_not_NUL (l : list ascii) :
  Forall (fun c => c <> NUL) l -> l <> [] -> nth 0 l NUL <> NUL.
Proof. intros Hl Hne. destruct l; [contradiction |]. inversion Hl. assumption. Qed.

Lemma colon_at_1 (l : list ascii) : nth 1 l NUL = COLON -> l <> [].
Proof. destruct l; [discriminate | discriminate]. Qed.

(** What the first half writes into the block is the spliced string; when
    that string does not fit the block, a copy runs past its end. *)
Lemma absolutize_splice (h : host) (path c : list ascii) (fresh : block) :
  __PHYSFS_platformCurrentDir h = Ret c ->
  c <> [] ->
  (length (splice c path) < MAX_PATH ->
   exists m, absolutize h path fresh = Ret m
             /\ holds_string MAX_PATH m (splice c path))
  /\ (MAX_PATH <= length (splice c path) ->
      absolutize h path fresh = Undefined).
Proof.
  intros Hcwd Hne.
  pose proof (current_dir_no_NUL h c Hcwd) as Hc.
  pose proof (cstr_no_NUL path) as Hp.
  unfold absolutize, splice, char_at, advance.
  rewrite Hcwd, (cstr_id c Hc).
  remember (cstr path) as p eqn:Hpath. symmetry in Hpath.
  assert (Hrest : cstr (drop 2 p) = drop 2 p) by (apply cstr_id, Forall_drop, Hp).
  assert (Hverbatim :
    (length p < MAX_PATH ->
     exists m, defined (strcpy MAX_PATH fresh 0 path) = Ret m
               /\ holds_string MAX_PATH m p)
    /\ (MAX_PATH <= length p -> defined (strcpy MAX_PATH fresh 0 path) = Undefined)).
  { split; intros Hlen.
    - destruct (strcpy_holds MAX_PATH fresh path p Hpath Hlen) as (m & Hcopy & Hholds).
      exists m. rewrite Hcopy. split; [reflexivity | exact Hholds].
    - rewrite (strcpy_over _ _ _ _ p) by (assumption || (simpl; lia)). reflexivity. }
  assert (Hjoined : forall src l,
    cstr src = l ->
    (length (c ++ l) < MAX_PATH ->
     exists m, (do retval <- defined (strcpy MAX_PATH fresh 0 c);
                defined (strcat MAX_PATH retval src)) = Ret m
               /\ holds_string MAX_PATH m (c ++ l))
    /\ (MAX_PATH <= length (c ++ l) ->
        (do retval <- defined (strcpy MAX_PATH fresh 0 c);
         defined (strcat MAX_PATH retval src)) = Undefined)).
  { intros src l Hsrc. rewrite length_app. split; intros Hlen.
    - destruct (strcpy_holds MAX_PATH fresh c c (cstr_id c Hc))
        as (m1 & Hcopy & Hholds1); [lia |].
      rewrite Hcopy. simpl obind.
      destruct (strcat_holds MAX_PATH m1 c src l Hsrc Hholds1)
        as (m & Hcat & Hholds); [lia |].
      exists m. rewrite Hcat. split; [reflexivity | exact Hholds].
    - destruct (Nat.lt_ge_cases (length c) MAX_PATH) as [Hfit | Hover].
      + destruct (strcpy_holds MAX_PATH fresh c c (cstr_id c Hc) Hfit)
          as (m1 & Hcopy & Hholds1).
        rewrite Hcopy. simpl obind.
        rewrite (strcat_over MAX_PATH m1 c src l) by (assumption || lia).
        reflexivity.
      + rewrite (strcpy_over _ _ _ _ c) by (apply cstr_id; assumption) || (simpl; lia).
        reflexivity. }
  assert (Hpoked : forall (m0 : block) (pre : list ascii) src l,
    cstr src = l ->
    Forall (fun x => x <> NUL) pre ->
    (forall k, k < length pre -> m0 k = nth k pre NUL) ->
    (length (pre ++ l) < MAX_PATH ->
     exists m, defined (strcpy MAX_PATH m0 (length pre) src) = Ret m
               /\ holds_string MAX_PATH m (pre ++ l))
    /\ (MAX_PATH <= length (pre ++ l) ->
        defined (strcpy MAX_PATH m0 (length pre) src) = Undefined)).
  { intros m0 pre src l Hsrc Hpre Hm0. rewrite length_app. split; intros Hlen.
    - destruct (strcpy_after MAX_PATH m0 pre src l Hsrc Hpre Hm0 Hlen)
        as (m & Hcopy & Hholds).
      exists m. rewrite Hcopy. split; [reflexivity | exact Hholds].
    - rewrite (strcpy_over _ _ _ _ l) by assumption. reflexivity. }
  destruct (Ascii.eqb (nth 0 p NUL) SEP && Ascii.eqb (nth 1 p NUL) SEP);
    [exact Hverbatim |].
  destruct (Ascii.eqb_spec (nth 1 p NUL) COLON) as [Hcolon | _].
  - destruct (Ascii.eqb (nth 2 p NUL) SEP); [exact Hverbatim |].
    destruct (Ascii.eqb (nth 0 p NUL) (nth 0 c NUL)); [apply Hjoined, Hrest |].
    unfold poke. simpl Nat.ltb. cbv iota. simpl obind.
    apply (Hpoked _ [nth 0 p NUL; COLON; SEP] (drop 2 p) (drop 2 p) Hrest).
    + repeat constructor; try discriminate.
      apply nth_0_not_NUL; [exact Hp | exact (colon_at_1 p Hcolon)].
    + intros [| [| [| k]]] Hk; simpl in Hk; try lia; reflexivity.
  - destruct (Ascii.eqb (nth 0 p NUL) SEP); [| apply Hjoined, Hpath].
    unfold poke. simpl Nat.ltb. cbv iota. simpl obind.
    apply (Hpoked _ [nth 0 c NUL; COLON] path p Hpath).
    + repeat constructor; try discriminate. apply nth_0_not_NUL; assumption.
    + intros [| [| k]] Hk; simpl in Hk; try lia; reflexivity.
Qed.

Lemma dot_free_spec (r : list ascii) : dot_free r = true -> no_dot_entry r.
Proof.
  induction r as [| a rest IH]; intros Hfree i Hsep Hdot.
  - destruct i; discriminate.
  - simpl in Hfree. apply andb_prop in Hfree as [Hhere Hrest].
    destruct i as [| i]; [| apply (IH Hrest i); assumption].
    simpl in *. intros [Hc | [Hc | Hc]];
      rewrite Hsep, Hdot, Hc in Hhere; discriminate.
Qed.

Lemma first_char (path : list ascii) :
  cstr path <> [] -> Ascii.eqb (char_at path 0) NUL = false.
Proof.
  intros Hne. apply Ascii.eqb_neq. unfold char_at.
  apply nth_0_not_NUL; [apply cstr_no_NUL | exact Hne].
Qed.

(** X1.  Whatever string the canonicalizer returns, no separator in it is
    followed by a "." entry or by two dots: every separator-dot pair left
    is followed by a char that is neither a separator, nor a dot, nor the
    end of the string. *)
Theorem realpath_result_has_no_dot_entry
    (fuel : nat) (h : host) (path : option (list ascii)) (r : list ascii) :
  __PHYSFS_platformRealPath fuel h path = Ret r -> no_dot_entry r.
Proof.
  intros Hrun.
  destruct (realpath_result_settled _ _ _ _ Hrun) as (m & e & He & Hnul & Hscan & ->).
  assert (Hnth : forall k, nth k (map m (seq 0 e)) NUL = if k <? e then m k else NUL).
  { intros k. destruct (Nat.ltb_spec k e); [apply nth_map_seq; assumption |].
    apply nth_overflow. rewrite length_map, length_seq. assumption. }
  intros i. rewrite !Hnth.
  destruct (Nat.ltb_spec i e) as [Hi |]; [| discriminate].
  destruct (Nat.ltb_spec (S i) e) as [Hi' |]; [| discriminate].
  intros Hsep Hdot. destruct (Hscan i Hi) as [_ Hset].
  destruct (Nat.ltb_spec (S (S i)) e) as [_ | Hend]; [apply Hset; assumption |].
  replace e with (S (S i)) in Hnul by lia.
  intros _. apply (Hset Hsep Hdot). right. left. exact Hnul.
Qed.

(** X3.  A path with nothing for the scan to act on comes back as the
    splice of the current directory and the path, in each of the five
    forms a path can have. *)
Theorem realpath_of_clean_path
    (fuel : nat) (h : host) (fresh : block) (c path : list ascii) :
  malloc_path h = Some fresh ->
  __PHYSFS_platformCurrentDir h = Ret c ->
  c <> [] ->
  cstr path <> [] ->
  length (splice c path) < MAX_PATH ->
  no_dot_entry (splice c path) ->
  length (splice c path) < fuel ->
  __PHYSFS_platformRealPath fuel h (Some path) = Ret (splice c path).
Proof.
  intros Hblock Hcwd Hc Hpath Hfit Hclean Hfuel.
  unfold __PHYSFS_platformRealPath. rewrite (first_char path Hpath), Hblock.
  destruct (absolutize_splice h path c fresh Hcwd Hc) as [Hsplice _].
  destruct (Hsplice Hfit) as (m & -> & Hholds).
  simpl obind. apply scan_of_clean_string; assumption.
Qed.

(** X4.  Nothing checks the length: when the splice of the current
    directory and the path has MAX_PATH chars or more, a copy writes past
    the end of the block. *)
Theorem realpath_overflows_on_long_path
    (fuel : nat) (h : host) (fresh : block) (c path : list ascii) :
  malloc_path h = Some fresh ->
  __PHYSFS_platformCurrentDir h = Ret c ->
  c <> [] ->
  cstr path <> [] ->
  MAX_PATH <= length (splice c path) ->
  __PHYSFS_platformRealPath fuel h (Some path) = Undefined.
Proof.
  intros Hblock Hcwd Hc Hpath Hover.
  unfold __PHYSFS_platformRealPath. rewrite (first_char path Hpath), Hblock.
  destruct (absolutize_splice h path c fresh Hcwd Hc) as [_ Hsplice].
  rewrite (Hsplice Hover). reflexivity.
Qed.

(** X5.  An absolute path without dot entries that fits the block is
    returned as it is. *)
Theorem realpath_keeps_clean_absolute_path
    (fuel : nat) (h : host) (fresh : block) (c p : list ascii) :
  malloc_path h = Some fresh ->
  __PHYSFS_platformCurrentDir h = Ret c ->
  Forall (fun x => x <> NUL) p ->
  is_absolute p = true ->
  length p < MAX_PATH ->
  no_dot_entry p ->
  length p < fuel ->
  __PHYSFS_platformRealPath fuel h (Some p) = Ret p.
Proof.
  intros Hblock Hcwd Hchars Habs Hfit Hclean Hfuel.
  unfold __PHYSFS_platformRealPath.
  rewrite (absolute_not_empty p Habs), Hblock.
  rewrite (absolute_taken_verbatim h c p fresh Habs Hcwd).
  destruct (strcpy_holds MAX_PATH fresh p p (cstr_id p Hchars) Hfit)
    as (m & -> & Hholds).
  simpl obind. apply scan_of_clean_string; assumption.
Qed.

End RealPathMore.

Lemma realpath_result_has_no_dot_entry_witness :
  no_dot_entry (text "C:\a\b").
Proof.
  apply (realpath_result_has_no_dot_entry 5 (sample_host "Y")
           (Some (text "C:\a\.\b\.")) (text "C:\a\b")).
  vm_compute. reflexivity.
Defined.

Lemma realpath_of_clean_path_witness :
  __PHYSFS_platformRealPath 40 (sample_host "X") (Some (text "docs\.config\a.txt"))
  = Ret (text "C:\Users\x\docs\.config\a.txt")
  /\ __PHYSFS_platformRealPath 40 (sample_host "X") (Some (text "\boot.ini"))
     = Ret (text "C:\boot.ini").
Proof.
  split.
  - apply (realpath_of_clean_path 40 (sample_host "X") (filled "X")
             (text "C:\Users\x\") (text "docs\.config\a.txt")).
    + reflexivity.
    + vm_compute. reflexivity.
    + discriminate.
    + discriminate.
    + vm_compute. lia.
    + apply dot_free_spec. vm_compute. reflexivity.
    + vm_compute. lia.
  - apply (realpath_of_clean_path 40 (sample_host "X") (filled "X")
             (text "C:\Users\x\") (text "\boot.ini")).
    + reflexivity.
    + vm_compute. reflexivity.
    + discriminate.
    + discriminate.
    + vm_compute. lia.
    + apply dot_free_spec. vm_compute. reflexivity.
    + vm_compute. lia.
Defined.

Lemma realpath_overflows_on_long_path_witness :
  __PHYSFS_platformRealPath 1 (sample_host "X")
    (Some (text "C:\" ++ repeat "a"%char 300)) = Undefined.
Proof.
  apply (realpath_overflows_on_long_path 1 (sample_host "X") (filled "X")
           (text "C:\Users\x\") (text "C:\" ++ repeat "a"%char 300)).
  - reflexivity.
  - vm_compute. reflexivity.
  - discriminate.
  - discriminate.
  - vm_compute. lia.
Defined.

Lemma realpath_keeps_clean_absolute_path_witness :
  __PHYSFS_platformRealPath 30 (sample_host "X") (Some (text "\\server\share\f.txt"))
  = Ret (text "\\server\share\f.txt").
Proof.
  apply (realpath_keeps_clean_absolute_path 30 (sample_host "X") (filled "X")
           (text "C:\Users\x\") (text "\\server\share\f.txt")).
  - reflexivity.
  - vm_compute. reflexivity.
  - vm_compute. repeat constructor; discriminate.
  - reflexivity.
  - vm_compute. lia.
  - apply dot_free_spec. vm_compute. reflexivity.
  - vm_compute. lia.
Defined.

(** ** Names for the host *)

Section DependentFacts.

Lemma strchr_from_spec (m : block) (c : ascii) :
  forall room i,
    match strchr_from m c i room with
    | Some (Some q) =>
        i <= q < i + room /\ m q = c
        /\ forall j, i <= j < q -> m j <> c /\ m j <> NUL
    | Some None =>
        exists e, i <= e < i + room /\ m e = NUL
                  /\ forall j, i <= j < e -> m j <> c /\ m j <> NUL
    | None => forall e, i <= e < i + room -> m e <> NUL
    end.
Proof.
  induction room as [| room IH]; intros i; simpl; [intros e He; lia |].
  destruct (Ascii.eqb_spec (m i) c) as [Hc | Hnc].
  { split; [lia |]. split; [exact Hc |]. intros j Hj. lia. }
  destruct (Ascii.eqb_spec (m i) NUL) as [Hnul | Hchar].
  { exists i. split; [lia |]. split; [exact Hnul |]. intros j Hj. lia. }
  specialize (IH (S i)).
  destruct (strchr_from m c (S i) room) as [[q |] |].
  - destruct IH as (Hq & Hmq & Hbefore).
    split; [lia |]. split; [exact Hmq |]. intros j Hj.
    destruct (Nat.eq_dec j i) as [-> | Hne]; [split; assumption | apply Hbefore; lia].
  - destruct IH as (e & He & Hnul & Hbefore).
    exists e. split; [lia |]. split; [exact Hnul |]. intros j Hj.
    destruct (Nat.eq_dec j i) as [-> | Hne]; [split; assumption | apply Hbefore; lia].
  - intros e He. destruct (Nat.eq_dec e i) as [-> | Hne]; [exact Hchar |].
    apply IH. lia.
Qed.

Lemma to_native_not_NUL (c : ascii) : c <> NUL -> to_native c <> NUL.
Proof.
  unfold to_native. destruct (Ascii.eqb c SLASH); [intros _; discriminate | tauto].
Qed.

Lemma to_native_other (c : ascii) : c <> SLASH -> to_native c = c.
Proof.
  unfold to_native. destruct (Ascii.eqb_spec c SLASH); [contradiction | reflexivity].
Qed.

(** From the test of [p] on, the loop turns every '/' between [p] and the
    terminator at [n] into a separator and leaves the rest of the block. *)
Lemma slash_loop_spec (size n : nat) :
  n < size ->
  forall fuel m p next,
    strchr size m p SLASH = Some next ->
    p <= n -> m n = NUL -> (forall j, j < n -> m j <> NUL) ->
    n - p < fuel ->
    exists m',
      slash_loop size fuel m next = Ret m'
      /\ forall j, m' j = if (p <=? j) && (j <? n) then to_native (m j) else m j.
Proof.
  intros Hn. induction fuel as [| fuel IH];
    intros m p next Hfind Hp Hnul Hchars Hfuel; [lia |].
  unfold strchr in Hfind.
  pose proof (strchr_from_spec m SLASH (size - p) p) as Hspec.
  rewrite Hfind in Hspec. destruct next as [q |].
  - destruct Hspec as (Hq & Hmq & Hbefore).
    assert (Hqn : q < n).
    { destruct (Nat.lt_ge_cases q n) as [Hlt | Hge]; [exact Hlt | exfalso].
      destruct (Nat.eq_dec n q) as [Heq | Hne].
      - rewrite Heq, Hmq in Hnul. discriminate.
      - destruct (Hbefore n) as [_ Hno]; [lia | contradiction]. }
    cbn [slash_loop]. unfold poke.
    destruct (Nat.ltb_spec q size); [| lia]. simpl obind.
    set (m1 := fun j : nat => if j =? q then SEP else m j).
    assert (Hnul1 : m1 n = NUL).
    { unfold m1. destruct (Nat.eqb_spec n q); [lia | exact Hnul]. }
    assert (Hchars1 : forall j, j < n -> m1 j <> NUL).
    { intros j Hj. unfold m1. destruct (Nat.eqb_spec j q);
        [discriminate | apply Hchars; exact Hj]. }
    destruct (strchr size m1 (q + 1) SLASH) as [next |] eqn:Hnext.
    2:{ exfalso. unfold strchr in Hnext.
        pose proof (strchr_from_spec m1 SLASH (size - (q + 1)) (q + 1)) as Hs.
        rewrite Hnext in Hs. apply (Hs n); [lia | exact Hnul1]. }
    simpl obind.
    destruct (IH m1 (q + 1) next Hnext) as (m' & Hrun & Hm'); try assumption; try lia.
    exists m'. split; [exact Hrun |].
    intros j. rewrite Hm'. unfold m1.
    destruct (Nat.leb_spec (q + 1) j), (Nat.leb_spec p j), (Nat.ltb_spec j n),
      (Nat.eqb_spec j q); simpl; try lia; try reflexivity.
    + subst j. rewrite Hmq. reflexivity.
    + symmetry. apply to_native_other. apply Hbefore. lia.
  - destruct Hspec as (e & He & Hnule & Hbefore).
    assert (e = n) as ->.
    { destruct (Nat.lt_trichotomy e n) as [Hlt | [Heq | Hgt]]; [| exact Heq |].
      - exfalso. apply (Hchars e Hlt). exact Hnule.
      - exfalso. destruct (Hbefore n) as [_ Hno]; [lia | contradiction]. }
    exists m. split; [destruct fuel; reflexivity |].
    intros j.
    destruct (Nat.leb_spec p j), (Nat.ltb_spec j n); simpl; try reflexivity.
    symmetry. apply to_native_other. apply Hbefore. lia.
Qed.

Lemma strchr_defined (size : nat) (m : block) (p n : nat) (c : ascii) :
  p <= n < size -> m n = NUL -> exists next, strchr size m p c = Some next.
Proof.
  intros Hn Hnul. unfold strchr.
  pose proof (strchr_from_spec m c (size - p) p) as Hspec.
  destruct (strchr_from m c p (size - p)) as [next |]; [eexists; reflexivity |].
  exfalso. apply (Hspec n); [lia | exact Hnul].
Qed.

(** The block that holds [s] is read back, after the loop, as [s] with
    every '/' turned into a separator. *)
Lemma translate_held_string (size : nat) (m : block) (s : list ascii) :
  holds_string size m s ->
  (do p <- defined (strchr size m 0 SLASH);
   do retval <- slash_loop size size m p;
   defined (read_cstr size retval 0)) = Ret (map to_native s).
Proof.
  intros (Hchars & Hfit & Hm).
  assert (Hnul : m (length s) = NUL)
    by (rewrite Hm by lia; apply nth_overflow; lia).
  assert (Hbody : forall j, j < length s -> m j <> NUL).
  { intros j Hj. rewrite Hm by lia. rewrite Forall_forall in Hchars.
    apply Hchars, list_elem_of_In, nth_In. exact Hj. }
  destruct (strchr_defined size m 0 (length s) SLASH) as [next Hfind];
    [lia | exact Hnul |].
  rewrite Hfind. simpl obind.
  destruct (slash_loop_spec size (length s) Hfit size m 0 next Hfind)
    as (m' & Hrun & Hm'); [lia | exact Hnul | exact Hbody | lia |].
  rewrite Hrun. simpl obind.
  destruct (read_cstr_intro size m' (map to_native s) 0) as [_ Hread].
  - apply Forall_map. eapply Forall_impl; [exact Hchars |].
    intros c Hc. apply to_native_not_NUL. exact Hc.
  - intros k Hk. rewrite length_map in Hk. simpl. rewrite Hm'.
    destruct (Nat.ltb_spec k (length s)); [| lia]. simpl.
    rewrite Hm by lia.
    rewrite (nth_indep (map to_native s) NUL (to_native NUL))
      by (rewrite length_map; exact Hk).
    symmetry. apply map_nth.
  - rewrite length_map. simpl. rewrite Hm'.
    destruct (Nat.ltb_spec (length s) (length s)); [lia |].
    rewrite andb_false_r. exact Hnul.
  - rewrite length_map. simpl. exact Hfit.
  - rewrite Hread. reflexivity.
Qed.

Lemma cvt_value (fresh : block)
    (prepend : option (list ascii)) (dirName : list ascii)
    (append : option (list ascii)) :
  (Z.of_nat (length (chars_of prepend ++ cstr dirName ++ chars_of append)) + 1
   < 2 ^ 32)%Z ->
  __PHYSFS_platformCvtToDependent (Some fresh) prepend dirName append
  = Ret (map to_native (chars_of prepend ++ cstr dirName ++ chars_of append)).
Proof.
  intros Hdword. rewrite !length_app in Hdword.
  unfold __PHYSFS_platformCvtToDependent.
  assert (Hpre : strlen_or_0 prepend = length (chars_of prepend))
    by (destruct prepend; reflexivity).
  assert (Happ : strlen_or_0 append = length (chars_of append))
    by (destruct append; reflexivity).
  rewrite Hpre, Happ. unfold wrap32.
  rewrite Z.mod_small by lia.
  set (size := Z.to_nat _).
  assert (Hsize : size = length (chars_of prepend) + length (cstr dirName)
                         + length (chars_of append) + 1) by (unfold size; lia).
  assert (Hfirst : exists m1,
    match prepend with
    | Some s => strcpy size fresh 0 s
    | None => poke size fresh 0 NUL
    end = Some m1 /\ holds_string size m1 (chars_of prepend)).
  { destruct prepend as [s |]; simpl chars_of in *.
    - apply strcpy_holds; [reflexivity | simpl in Hsize; lia].
    - unfold poke. destruct (Nat.ltb_spec 0 size); [| lia].
      eexists. split; [reflexivity |].
      split; [constructor |]. split; [simpl; lia |].
      intros k Hk. simpl in Hk. replace k with 0 by lia. reflexivity. }
  destruct Hfirst as (m1 & -> & Hholds1). simpl obind.
  destruct (strcat_holds size m1 (chars_of prepend) dirName (cstr dirName)
              eq_refl Hholds1) as (m2 & -> & Hholds2); [lia |].
  simpl obind.
  assert (Hthird : exists m3,
    match append with
    | Some s => strcat size m2 s
    | None => Some m2
    end = Some m3
    /\ holds_string size m3 (chars_of prepend ++ cstr dirName ++ chars_of append)).
  { destruct append as [s |]; simpl chars_of in *.
    - rewrite app_assoc. apply strcat_holds; [reflexivity | exact Hholds2 |].
      rewrite length_app. lia.
    - exists m2. rewrite app_nil_r. split; [reflexivity | exact Hholds2]. }
  destruct Hthird as (m3 & -> & Hholds3). simpl obind.
  apply translate_held_string. exact Hholds3.
Qed.

(** X6.  The three parts are joined in the order prepend, name, append, a
    missing part counting as empty, and every '/' of the result is turned
    into the native separator; every other char is kept.  The length with
    its terminator is one an [int] holds. *)
Theorem cvt_to_dependent_joins_and_translates (fresh : block)
    (prepend : option (list ascii)) (dirName : list ascii)
    (append : option (list ascii)) :
  (Z.of_nat (length (chars_of prepend ++ cstr dirName ++ chars_of append)) + 1
   < 2 ^ 31)%Z ->
  __PHYSFS_platformCvtToDependent (Some fresh) prepend dirName append
  = Ret (map to_native (chars_of prepend ++ cstr dirName ++ chars_of append)).
Proof. intros Hint. apply cvt_value. lia. Qed.

(** X7.  No '/' is left in the name returned, and the name has as many
    chars as the three parts together. *)
Theorem cvt_to_dependent_leaves_no_slash (fresh : block)
    (prepend : option (list ascii)) (dirName : list ascii)
    (append : option (list ascii)) (r : list ascii) :
  (Z.of_nat (length (chars_of prepend ++ cstr dirName ++ chars_of append)) + 1
   < 2 ^ 31)%Z ->
  __PHYSFS_platformCvtToDependent (Some fresh) prepend dirName append = Ret r ->
  ~ In SLASH r
  /\ length r = strlen_or_0 prepend + length (cstr dirName) + strlen_or_0 append.
Proof.
  intros Hint Hrun.
  rewrite (cvt_value fresh prepend dirName append) in Hrun by lia.
  injection Hrun as <-. split.
  - intros Hin. apply in_map_iff in Hin as (c & Hc & _).
    unfold to_native in Hc. destruct (Ascii.eqb_spec c SLASH); [discriminate |].
    contradiction.
  - rewrite length_map, !length_app. destruct prepend, append; simpl; lia.
Qed.

End DependentFacts.

Lemma cvt_to_dependent_joins_and_translates_witness :
  __PHYSFS_platformCvtToDependent (Some (filled "X"))
    (Some (text "C:\games\")) (text "data/maps/e1.map") None
  = Ret (text "C:\games\data\maps\e1.map").
Proof.
  apply (cvt_to_dependent_joins_and_translates (filled "X")
           (Some (text "C:\games\")) (text "data/maps/e1.map") None).
  vm_compute. reflexivity.
Defined.

Lemma cvt_to_dependent_leaves_no_slash_witness :
  ~ In SLASH (text "C:\games\data\maps\e1.map")
  /\ length (text "C:\games\data\maps\e1.map") = 9 + 16 + 0.
Proof.
  apply (cvt_to_dependent_leaves_no_slash (filled "X")
           (Some (text "C:\games\")) (text "data/maps/e1.map") None).
  - vm_compute. reflexivity.
  - vm_compute. reflexivity.
Defined.

(** ** Directory enumeration *)

Section EnumerateFacts.

Lemma visit_all_spec (origdir : list ascii) :
  forall later ent,
    visit_all origdir ent later
    = map (Callback (cstr origdir))
        (List.filter (fun name => negb (pseudo_entry name)) (map cstr (ent :: later))).
Proof.
  assert (Hvisit : forall ent,
    visit origdir ent
    = map (Callback (cstr origdir))
        (List.filter (fun name => negb (pseudo_entry name)) [cstr ent])).
  { intros ent. unfold visit, same_string, pseudo_entry. simpl.
    change (cstr [DOT]) with [DOT]. change (cstr [DOT; DOT]) with [DOT; DOT].
    destruct (bool_decide (cstr ent = [DOT])); [reflexivity |].
    destruct (bool_decide (cstr ent = [DOT; DOT])); reflexivity. }
  induction later as [| next later IH]; intros ent.
  - simpl visit_all. rewrite app_nil_r. apply Hvisit.
  - simpl visit_all. rewrite IH, Hvisit.
    rewrite <- map_app, <- List.filter_app. reflexivity.
Qed.

Lemma poke_separator (size : nat) (m : block) (l : list ascii) :
  holds_string size m l ->
  length l + 1 < size ->
  exists m',
    (do retval <- defined (poke size m (length l) SEP);
     defined (poke size retval (length l + 1) NUL)) = Ret m'
    /\ holds_string size m' (l ++ [SEP]).
Proof.
  intros (Hchars & _ & Hm) Hfit. unfold poke.
  destruct (Nat.ltb_spec (length l) size); [| lia]. simpl obind.
  destruct (Nat.ltb_spec (length l + 1) size); [| lia]. simpl defined.
  eexists. split; [reflexivity |].
  split; [apply Forall_app; split; [exact Hchars | repeat constructor; discriminate] |].
  split; [rewrite length_app; simpl; lia |].
  intros k Hk. rewrite length_app in Hk. simpl in Hk.
  destruct (Nat.eqb_spec k (length l + 1)) as [-> | Hne1].
  - rewrite nth_overflow by (rewrite length_app; simpl; lia). reflexivity.
  - destruct (Nat.eqb_spec k (length l)) as [-> | Hne2].
    + rewrite app_nth2 by lia. rewrite Nat.sub_diag. reflexivity.
    + rewrite Hm by lia. symmetry. apply app_nth1. lia.
Qed.

(** The pattern the search is started with, and what follows the search. *)
Lemma enumerate_value (host : dir_host) (fresh : block) (dirname origdir : list ascii) :
  small_alloc host = Some fresh ->
  cstr dirname <> [] ->
  __PHYSFS_platformEnumerateFiles host dirname origdir
  = Ret ([SearchFirst (search_pattern (cstr dirname)); SmallFree] ++
         match find_files host (search_pattern (cstr dirname)) with
         | None => []
         | Some (ent, later) => visit_all origdir ent later ++ [SearchClose]
         end).
Proof.
  intros Halloc Hne. unfold __PHYSFS_platformEnumerateFiles, search_pattern.
  rewrite Halloc. set (dir := cstr dirname) in *.
  assert (Hpos : 0 < length dir) by (destruct dir; [contradiction | simpl; lia]).
  destruct (strcpy_holds (length dir + 3) fresh dirname dir eq_refl)
    as (m1 & -> & Hholds1); [lia |].
  cbn [obind defined].
  destruct (length dir) as [| before] eqn:Hlen; [lia |].
  unfold peek. destruct (Nat.ltb_spec before (S before + 3)); [| lia].
  cbn [obind defined]. replace (S before - 1) with before by lia.
  destruct Hholds1 as (Hchars & Hfit1 & Hm1). rewrite (Hm1 before) by lia.
  assert (Hholds1 : holds_string (S before + 3) m1 dir) by (repeat split; assumption).
  assert (Hstar : forall m l,
    holds_string (S before + 3) m l -> length l + 1 < S before + 3 ->
    (do SearchPath <- defined (strcat (S before + 3) m ["*"%char]);
     do pattern <- defined (read_cstr (S before + 3) SearchPath 0);
     match find_files host pattern with
     | None => Ret [SearchFirst pattern; SmallFree]
     | Some (ent, later) =>
         Ret ([SearchFirst pattern; SmallFree]
              ++ visit_all origdir ent later ++ [SearchClose])
     end)
    = Ret ([SearchFirst (l ++ ["*"%char]); SmallFree] ++
           match find_files host (l ++ ["*"%char]) with
           | None => []
           | Some (ent, later) => visit_all origdir ent later ++ [SearchClose]
           end)).
  { intros m l Hl Hfit.
    destruct (strcat_holds _ m l ["*"%char] ["*"%char] eq_refl Hl)
      as (m' & -> & Hholds'); [simpl; lia |].
    cbn [obind defined]. destruct (holds_string_read _ _ _ Hholds') as [_ ->].
    cbn [obind defined]. destruct (find_files host (l ++ ["*"%char])) as [[ent later] |];
      reflexivity. }
  destruct (Ascii.eqb (nth before dir NUL) SEP); simpl negb; cbv iota.
  - cbn [obind defined]. rewrite (Hstar m1 dir Hholds1) by lia. reflexivity.
  - rewrite <- Hlen.
    destruct (poke_separator (length dir + 3) m1 dir) as (m2 & Hpoke & Hholds2);
      [rewrite Hlen; exact Hholds1 | lia |].
    rewrite Hlen in Hpoke, Hholds2. rewrite Hlen.
    apply obind_Ret in Hpoke as Hsplit. destruct Hsplit as (mid & Hmid & Hlast).
    rewrite Hmid. cbn [obind defined]. rewrite Hlast. cbn [obind defined].
    rewrite (Hstar m2 (dir ++ [SEP]) Hholds2) by (rewrite length_app; simpl; lia).
    rewrite <- app_assoc. reflexivity.
Qed.

(** X8.  The callback is called once for every entry the search finds
    other than "." and "..", in the order the host gives them and with
    the origdir it was given; then the search is closed. *)
Theorem enumerate_calls_back_for_real_entries
    (host : dir_host) (fresh : block) (dirname origdir ent : list ascii)
    (later : list (list ascii)) :
  small_alloc host = Some fresh ->
  cstr dirname <> [] ->
  find_files host (search_pattern (cstr dirname)) = Some (ent, later) ->
  __PHYSFS_platformEnumerateFiles host dirname origdir
  = Ret ([SearchFirst (search_pattern (cstr dirname)); SmallFree]
         ++ map (Callback (cstr origdir))
              (List.filter (fun name => negb (pseudo_entry name))
                 (map cstr (ent :: later)))
         ++ [SearchClose]).
Proof.
  intros Halloc Hne Hfound.
  rewrite (enumerate_value host fresh dirname origdir Halloc Hne), Hfound.
  rewrite visit_all_spec. reflexivity.
Qed.

(** X9.  When the search cannot be started, the block is released, no
    callback is made and no search is closed. *)
Theorem enumerate_without_search_is_silent
    (host : dir_host) (fresh : block) (dirname origdir : list ascii) :
  small_alloc host = Some fresh ->
  cstr dirname <> [] ->
  find_files host (search_pattern (cstr dirname)) = None ->
  __PHYSFS_platformEnumerateFiles host dirname origdir
  = Ret [SearchFirst (search_pattern (cstr dirname)); SmallFree].
Proof.
  intros Halloc Hne Hnone.
  rewrite (enumerate_value host fresh dirname origdir Halloc Hne), Hnone.
  reflexivity.
Qed.

(** X10.  The name of the directory must not be empty: the char before
    its end is read at an index that wraps. *)
Theorem enumerate_empty_name_is_undefined
    (host : dir_host) (fresh : block) (dirname origdir : list ascii) :
  small_alloc host = Some fresh ->
  cstr dirname = [] ->
  __PHYSFS_platformEnumerateFiles host dirname origdir = Undefined.
Proof.
  intros Halloc Hnil. unfold __PHYSFS_platformEnumerateFiles.
  rewrite Halloc, Hnil. simpl length.
  destruct (strcpy_holds (0 + 3) fresh dirname [] Hnil) as (m1 & -> & _);
    [simpl; lia |].
  reflexivity.
Qed.

End EnumerateFacts.

Lemma enumerate_calls_back_for_real_entries_witness :
  __PHYSFS_platformEnumerateFiles sample_dir (text "C:\games") (text "games")
  = Ret [SearchFirst (text "C:\games\*"); SmallFree;
         Callback (text "games") (text "a.txt");
         Callback (text "games") (text ".config");
         Callback (text "games") (text "saves");
         SearchClose].
Proof.
  apply (enumerate_calls_back_for_real_entries sample_dir (filled "X")
           (text "C:\games") (text "games") (text ".")
           [text ".."; text "a.txt"; text ".config"; text "saves"]).
  - reflexivity.
  - discriminate.
  - reflexivity.
Defined.

Lemma enumerate_without_search_is_silent_witness :
  __PHYSFS_platformEnumerateFiles sample_dir (text "C:\none\") (text "none")
  = Ret [SearchFirst (text "C:\none\*"); SmallFree].
Proof.
  apply (enumerate_without_search_is_silent sample_dir (filled "X")
           (text "C:\none\") (text "none")).
  - reflexivity.
  - discriminate.
  - reflexivity.
Defined.

Lemma enumerate_empty_name_is_undefined_witness :
  __PHYSFS_platformEnumerateFiles sample_dir (text "") (text "") = Undefined.
Proof.
  apply (enumerate_empty_name_is_undefined sample_dir (filled "X") (text "") (text "")).
  - reflexivity.
  - reflexivity.
Defined.

(** ** More on the file functions *)

Section MoreFileFacts.

Local Open Scope Z_scope.
Context {os : Win32} {clock : TimeApi} {attrs : LastWriteApi}.

Lemma keeps_ret {A : Type} (a : A) : keeps_resources (FileIO.ret a).
Proof. intros st. exists a, st. repeat split. Qed.

Lemma keeps_mret {A : Type} (a : A) : keeps_resources (mret a : M A).
Proof. apply keeps_ret. Qed.

Lemma keeps_bind {A B : Type} (m : M A) (f : A -> M B) :
  keeps_resources m -> (forall a, keeps_resources (f a)) ->
  keeps_resources (m ≫= f).
Proof.
  intros Hm Hf st. destruct (Hm st) as (a & st1 & Hrun & Hh & Hp).
  destruct (Hf a st1) as (b & st2 & Hrun2 & Hh2 & Hp2).
  exists b, st2. unfold mbind, M_bind, FileIO.bind. rewrite Hrun.
  split; [exact Hrun2 |]. split; congruence.
Qed.

Lemma keeps_leave_error (code : option Z) : keeps_resources (leave_error code).
Proof. intros st. eexists _, _. repeat split. Qed.

Lemma keeps_log (e : event) : keeps_resources (FileIO.log e).
Proof. intros st. eexists _, _. repeat split. Qed.

Lemma keeps_BAIL {A : Type} (e : physfs_error) (r : A) :
  keeps_resources (BAIL_MACRO e r).
Proof. intros st. eexists _, _. repeat split. Qed.

Lemma keeps_GetLastError : keeps_resources GetLastError.
Proof. intros st. eexists _, _. repeat split. Qed.

Lemma keeps_win32strerror : keeps_resources win32strerror.
Proof.
  unfold win32strerror. apply keeps_bind; [apply keeps_GetLastError |].
  intros code. apply keeps_mret.
Qed.

Ltac keeps_step :=
  first
    [ apply keeps_mret
    | apply keeps_ret
    | apply keeps_leave_error
    | apply keeps_log
    | apply keeps_BAIL
    | apply keeps_GetLastError
    | apply keeps_win32strerror
    | apply keeps_bind; [| intros ?]
    | match goal with
      | |- keeps_resources (match ?x with _ => _ end) => destruct x
      | |- keeps_resources (let '(_, _) := ?x in _) => destruct x
      end ].

Lemma keeps_to_epoch (st_localtz : SYSTEMTIME) : keeps_resources (to_epoch st_localtz).
Proof. unfold to_epoch. repeat keeps_step. Qed.

(** The conversion of a file time opens and allocates nothing. *)
Lemma keeps_FileTimeToPhysfsTime (ft : FILETIME) :
  keeps_resources (FileTimeToPhysfsTime ft).
Proof.
  unfold FileTimeToPhysfsTime, call_FileTimeToSystemTime,
    call_GetTimeZoneInformation, call_SystemTimeToTzSpecificLocalTime.
  repeat first [apply keeps_to_epoch | keeps_step].
Qed.

(** The conversion only adds to the trace, and when it succeeds it adds
    nothing. *)
Lemma FileTimeToPhysfsTime_trace (ft : FILETIME) (st : proc) (r : Z) (st' : proc) :
  FileTimeToPhysfsTime ft st = Some (r, st') ->
  exists tail, trace st' = trace st ++ tail /\ (r <> -1 -> tail = []).
Proof.
  unfold FileTimeToPhysfsTime, call_FileTimeToSystemTime,
    call_GetTimeZoneInformation, call_SystemTimeToTzSpecificLocalTime,
    to_epoch, win32strerror.
  run_M.
  repeat match goal with
         | |- context [match value ?x with _ => _ end] => destruct (value x); run_M
         | |- context [let '(_, _) := ?x in _] => destruct x; run_M
         | |- context [if ?c then _ else _] => destruct c eqn:?; run_M
         end;
    intros [= <- <-]; simpl;
    first [ exists []; split; [symmetry; apply app_nil_r | reflexivity]
          | eexists; split; [reflexivity | intros Hne; exfalso; apply Hne; reflexivity
                                           || (exfalso; lia)] ].
Qed.

Lemma keeps_time_from_attributes (fname : list ascii) :
  keeps_resources (time_from_attributes fname).
Proof.
  unfold time_from_attributes, call_GetFileAttributesEx.
  repeat first [apply keeps_FileTimeToPhysfsTime | keeps_step].
Qed.

Lemma doOpen_no_memory
    (st : proc) (fname : list ascii) (mode creation rdonly h : Z) :
  value (CreateFile fname mode creation) = h ->
  h <> INVALID_HANDLE_VALUE ->
  h ∉ handles st ->
  Malloc sizeof_win32file = 0 ->
  exists st',
    doOpen fname mode creation rdonly st = Some (0, st')
    /\ handles st' = handles st
    /\ heap st' = heap st
    /\ physfs_err st' = Some ERR_OUT_OF_MEMORY
    /\ trace st' = trace st ++
          [CallCreateFile fname mode creation;
           CallMalloc sizeof_win32file;
           CallCloseHandle h;
           SetError ERR_OUT_OF_MEMORY].
Proof.
  intros Hh Hvalid Hnew Hnull.
  unfold doOpen, call_CreateFile, call_Malloc, call_CloseHandle, holds.
  assert (Eh : (h =? INVALID_HANDLE_VALUE) = false) by (apply Z.eqb_neq; assumption).
  assert (Eheld : bool_decide (h ∈ {[h]} ∪ handles st) = true)
    by (apply bool_decide_eq_true_2, elem_of_union_l, elem_of_singleton;
        reflexivity).
  repeat (progress (run_M; rewrite ?Hh, ?Hnull, ?Eh, ?Eheld)).
  eexists. split; [reflexivity |]. simpl.
  split; [| split; [reflexivity | split; [reflexivity |]]].
  - rewrite difference_union_distr_l_L, difference_diag_L, union_empty_l_L.
    apply difference_disjoint_L, disjoint_singleton_r. assumption.
  - repeat rewrite <- app_assoc. reflexivity.
Qed.

(** X11.  When the file opens and the allocation of the handle fails, the
    descriptor is closed before the failure is returned: the process holds
    what it held before, and the error is out of memory. *)
Theorem open_without_memory_closes_descriptor
    (st : proc) (fname : list ascii) (mode creation rdonly h : Z) :
  value (CreateFile fname mode creation) = h ->
  h <> INVALID_HANDLE_VALUE ->
  h ∉ handles st ->
  Malloc sizeof_win32file = 0 ->
  exists st',
    doOpen fname mode creation rdonly st = Some (0, st')
    /\ handles st' = handles st
    /\ heap st' = heap st
    /\ physfs_err st' = Some ERR_OUT_OF_MEMORY
    /\ trace st' = trace st ++
          [CallCreateFile fname mode creation;
           CallMalloc sizeof_win32file;
           CallCloseHandle h;
           SetError ERR_OUT_OF_MEMORY].
Proof. exact (doOpen_no_memory st fname mode creation rdonly h). Qed.

(** What a successful open leaves: one more descriptor, and one more block
    that holds it with the read-only flag given. *)
Lemma doOpen_success
    (st : proc) (fname : list ascii) (mode creation rdonly h p : Z) :
  value (CreateFile fname mode creation) = h ->
  h <> INVALID_HANDLE_VALUE ->
  Malloc sizeof_win32file = p ->
  p <> 0 ->
  exists st',
    doOpen fname mode creation rdonly st = Some (p, st')
    /\ handles st' = {[h]} ∪ handles st
    /\ heap st' = <[p := Some {| handle := h; readonly := rdonly |}]> (heap st)
    /\ trace st' = trace st ++
          [CallCreateFile fname mode creation; CallMalloc sizeof_win32file].
Proof.
  intros Hh Hvalid Hp Hnonnull.
  unfold doOpen, call_CreateFile, call_Malloc, store.
  assert (Eh : (h =? INVALID_HANDLE_VALUE) = false) by (apply Z.eqb_neq; assumption).
  assert (Ep : (p =? 0) = false) by (apply Z.eqb_neq; assumption).
  repeat (progress (run_M; rewrite ?Hh, ?Hp, ?Eh, ?Ep, ?lookup_insert_eq)).
  eexists. split; [reflexivity |]. simpl.
  split; [reflexivity |]. split; [apply insert_insert_eq |].
  repeat rewrite <- app_assoc. reflexivity.
Qed.

(** X12.  A file opened for reading and then closed leaves the process
    with the descriptors and the blocks it had: close releases the
    descriptor, frees the handle and answers 1. *)
Theorem open_read_then_close_releases
    (st : proc) (fname : list ascii) (h p : Z) :
  value (CreateFile fname GENERIC_READ OPEN_EXISTING) = h ->
  h <> INVALID_HANDLE_VALUE ->
  h ∉ handles st ->
  Malloc sizeof_win32file = p ->
  p <> 0 ->
  heap st !! p = None ->
  exists st',
    (opaque ← __PHYSFS_platformOpenRead fname; __PHYSFS_platformClose opaque) st
    = Some (1, st')
    /\ handles st' = handles st
    /\ heap st' = heap st
    /\ trace st' = trace st ++
          [CallCreateFile fname GENERIC_READ OPEN_EXISTING;
           CallMalloc sizeof_win32file;
           CallCloseHandle h;
           CallFree p].
Proof.
  intros Hh Hvalid Hnew Hp Hnonnull Hfree.
  destruct (doOpen_success st fname GENERIC_READ OPEN_EXISTING 1 h p
              Hh Hvalid Hp Hnonnull) as (st1 & Hopen & Hh1 & Hp1 & Ht1).
  unfold __PHYSFS_platformOpenRead, mbind at 1, M_bind, FileIO.bind.
  rewrite Hopen.
  unfold __PHYSFS_platformClose, call_CloseHandle, call_Free, deref, holds.
  assert (Eheld : bool_decide (h ∈ handles st1) = true).
  { apply bool_decide_eq_true_2. rewrite Hh1.
    apply elem_of_union_l, elem_of_singleton. reflexivity. }
  assert (Elook : heap st1 !! p = Some (Some {| handle := h; readonly := 1 |}))
    by (rewrite Hp1; apply lookup_insert_eq).
  repeat (progress (run_M; rewrite ?Elook, ?Eheld)).
  eexists. split; [reflexivity |]. simpl.
  split; [| split].
  - rewrite Hh1, difference_union_distr_l_L, difference_diag_L, union_empty_l_L.
    apply difference_disjoint_L, disjoint_singleton_r. assumption.
  - rewrite Hp1. apply delete_insert_id. assumption.
  - rewrite Ht1. repeat rewrite <- app_assoc. reflexivity.
Qed.

(** X13.  When CloseHandle fails, close returns 0 before it frees
    anything: the block of the handle stays allocated. *)
Theorem close_failure_keeps_block
    (st : proc) (opaque : Z) (f : win32file) :
  heap st !! opaque = Some (Some f) ->
  handle f ∉ handles st ->
  exists st' e,
    __PHYSFS_platformClose opaque st = Some (0, st')
    /\ heap st' = heap st
    /\ handles st' = handles st
    /\ physfs_err st' = Some e
    /\ trace st' = trace st ++ [CallCloseHandle (handle f); SetError e].
Proof.
  intros Hf Hclosed.
  unfold __PHYSFS_platformClose, call_CloseHandle, call_Free, deref, holds,
    win32strerror.
  assert (Eheld : bool_decide (handle f ∈ handles st) = false)
    by (apply bool_decide_eq_false_2; assumption).
  repeat (progress (run_M; rewrite ?Hf, ?Eheld)).
  eexists _, _. split; [reflexivity |]. simpl.
  repeat split. repeat rewrite <- app_assoc. reflexivity.
Qed.

(** X14.  Flushing a handle opened for reading succeeds without a call to
    the system; flushing one opened for writing calls FlushFileBuffers on
    its descriptor. *)
Theorem flush_depends_on_open_mode
    (st : proc) (fname : list ascii) (h p : Z) :
  Malloc sizeof_win32file = p ->
  p <> 0 ->
  (value (CreateFile fname GENERIC_READ OPEN_EXISTING) = h ->
   h <> INVALID_HANDLE_VALUE ->
   exists st',
     (opaque ← __PHYSFS_platformOpenRead fname; __PHYSFS_platformFlush opaque) st
     = Some (1, st')
     /\ trace st' = trace st ++
           [CallCreateFile fname GENERIC_READ OPEN_EXISTING;
            CallMalloc sizeof_win32file])
  /\ (value (CreateFile fname GENERIC_WRITE CREATE_ALWAYS) = h ->
      h <> INVALID_HANDLE_VALUE ->
      exists r st' rest,
        (opaque ← __PHYSFS_platformOpenWrite fname; __PHYSFS_platformFlush opaque) st
        = Some (r, st')
        /\ trace st' = trace st ++
              [CallCreateFile fname GENERIC_WRITE CREATE_ALWAYS;
               CallMalloc sizeof_win32file;
               CallFlushFileBuffers h] ++ rest).
Proof.
  intros Hp Hnonnull. split; intros Hh Hvalid.
  - destruct (doOpen_success st fname GENERIC_READ OPEN_EXISTING 1 h p
                Hh Hvalid Hp Hnonnull) as (st1 & Hopen & _ & Hp1 & Ht1).
    unfold __PHYSFS_platformOpenRead, mbind at 1, M_bind, FileIO.bind.
    rewrite Hopen. unfold __PHYSFS_platformFlush, deref.
    assert (Elook : heap st1 !! p = Some (Some {| handle := h; readonly := 1 |}))
      by (rewrite Hp1; apply lookup_insert_eq).
    repeat (progress (run_M; rewrite ?Elook)).
    eexists. split; [reflexivity | exact Ht1].
  - destruct (doOpen_success st fname GENERIC_WRITE CREATE_ALWAYS 0 h p
                Hh Hvalid Hp Hnonnull) as (st1 & Hopen & _ & Hp1 & Ht1).
    unfold __PHYSFS_platformOpenWrite, mbind at 1, M_bind, FileIO.bind.
    rewrite Hopen. unfold __PHYSFS_platformFlush, call_FlushFileBuffers, deref,
      win32strerror.
    assert (Elook : heap st1 !! p = Some (Some {| handle := h; readonly := 0 |}))
      by (rewrite Hp1; apply lookup_insert_eq).
    repeat (progress (run_M; rewrite ?Elook)).
    destruct (value (FlushFileBuffers h)); run_M.
    + eexists _, _, []. split; [reflexivity |]. simpl. rewrite Ht1.
      repeat rewrite <- app_assoc. reflexivity.
    + eexists _, _, [_]. split; [reflexivity |]. simpl. rewrite Ht1.
      repeat rewrite <- app_assoc. reflexivity.
Qed.

Lemma LOWORDER_mod (pos : Z) : 0 <= pos -> LOWORDER_UINT64 pos = pos mod 2 ^ 32.
Proof.
  intros Hpos. unfold LOWORDER_UINT64, uint32.
  change 0x00000000FFFFFFFF with (Z.ones 32).
  rewrite Z.land_ones by lia. apply Zmod_mod.
Qed.

Lemma HIGHORDER_div (pos : Z) :
  0 <= pos < 2 ^ 64 -> HIGHORDER_UINT64 pos = pos / 2 ^ 32.
Proof.
  intros Hpos. unfold HIGHORDER_UINT64, uint32.
  change 0x00000000FFFFFFFF with (Z.ones 32).
  change 0xFFFFFFFF00000000 with (Z.shiftl (Z.ones 32) 32).
  assert (Hhigh : 0 <= pos / 2 ^ 32 < 2 ^ 32)
    by (split; [apply Z.div_pos; lia | apply Z.div_lt_upper_bound; lia]).
  assert (Hshift :
    Z.shiftr (Z.land pos (Z.shiftl (Z.ones 32) 32)) 32 = pos / 2 ^ 32).
  { rewrite <- (Z.mod_small (pos / 2 ^ 32) (2 ^ 32)) by exact Hhigh.
    rewrite <- Z.land_ones, <- Z.shiftr_div_pow2 by lia.
    apply Z.bits_inj'. intros n Hn.
    rewrite Z.shiftr_spec, !Z.land_spec, Z.shiftr_spec by lia.
    rewrite Z.shiftl_spec by lia.
    replace (n + 32 - 32) with n by lia. reflexivity. }
  rewrite Hshift, Z.land_ones by lia.
  rewrite Zmod_mod. apply Z.mod_small. exact Hhigh.
Qed.

(** X15.  Seek hands the offset to the system in two halves: the low 32
    bits, and the high 32 bits when they are not zero, NULL otherwise;
    the position is counted from the start of the file. *)
Theorem seek_splits_offset (st : proc) (opaque : Z) (f : win32file) (pos : Z) :
  heap st !! opaque = Some (Some f) ->
  0 <= pos < 2 ^ 64 ->
  exists r st' rest,
    __PHYSFS_platformSeek opaque pos st = Some (r, st')
    /\ trace st' = trace st ++
          CallSetFilePointer (handle f) (pos mod 2 ^ 32)
            (if pos <? 2 ^ 32 then None else Some (pos / 2 ^ 32)) FILE_BEGIN
          :: rest.
Proof.
  intros Hf Hpos.
  unfold __PHYSFS_platformSeek, call_SetFilePointer, deref, win32strerror.
  rewrite (LOWORDER_mod pos), (HIGHORDER_div pos) by lia.
  assert (Ehigh : (pos / 2 ^ 32 =? 0) = (pos <? 2 ^ 32)).
  { destruct (Z.ltb_spec pos (2 ^ 32)) as [Hlt | Hge].
    - apply Z.eqb_eq, Z.div_small. lia.
    - apply Z.eqb_neq. pose proof (Z.div_le_mono (2 ^ 32) pos (2 ^ 32)).
      rewrite Z.div_same in H by lia. lia. }
  rewrite Ehigh.
  repeat (progress (run_M; rewrite ?Hf)).
  destruct (value (SetFilePointer _ _ _ _)) as [rc high]. run_M.
  destruct (rc =? PHYSFS_INVALID_SET_FILE_POINTER); run_M;
    [destruct (negb _); run_M |];
    eexists _, _, _; (split; [reflexivity |]); simpl;
    repeat rewrite <- app_assoc; reflexivity.
Qed.

(** X16.  The halves seek sends are those tell joins: when the system
    reports the position in the halves of [pos] as seek splits it, tell
    returns [pos]. *)
Theorem tell_joins_what_seek_splits
    (st : proc) (opaque : Z) (f : win32file) (pos : Z) :
  heap st !! opaque = Some (Some f) ->
  0 <= pos < 2 ^ 63 ->
  value (SetFilePointer (handle f) 0 (Some 0) FILE_CURRENT)
    = (LOWORDER_UINT64 pos, HIGHORDER_UINT64 pos) ->
  (LOWORDER_UINT64 pos = PHYSFS_INVALID_SET_FILE_POINTER ->
   sets_error (SetFilePointer (handle f) 0 (Some 0) FILE_CURRENT) = Some NO_ERROR) ->
  exists st', __PHYSFS_platformTell opaque st = Some (pos, st').
Proof.
  intros Hf Hpos Hval Herr.
  rewrite (LOWORDER_mod pos), (HIGHORDER_div pos) in * by lia.
  destruct (tell_reports st opaque f pos Hf Hpos (conj Hval Herr))
    as (st' & Htell & _).
  exists st'. exact Htell.
Qed.

(** X17.  For a path the system knows no attributes of, exists answers 0
    with the error set, and is_directory answers 1: the failure value has
    the directory bit set. *)
Theorem missing_path_is_reported_as_directory (st : proc) (fname : list ascii) :
  value (GetFileAttributes fname) = PHYSFS_INVALID_FILE_ATTRIBUTES ->
  (exists st' e, __PHYSFS_platformExists fname st = Some (0, st')
                 /\ physfs_err st' = Some e)
  /\ (exists st', __PHYSFS_platformIsDirectory fname st = Some (1, st')).
Proof.
  intros Hattr.
  unfold __PHYSFS_platformExists, __PHYSFS_platformIsDirectory,
    call_GetFileAttributes, win32strerror.
  split; repeat (progress (run_M; rewrite ?Hattr)).
  - eexists _, _. split; reflexivity.
  - eexists. reflexivity.
Qed.

(** X18.  A transfer of [B] bytes with elements of [size] bytes makes
    write return the quotient of [B] by [size], rounded down, and a failed
    transfer makes it return -1 with the error set. *)
Theorem write_counts_whole_elements
    (st : proc) (opaque : Z) (f : win32file) (size count : Z) :
  heap st !! opaque = Some (Some f) ->
  0 < size < 2 ^ 32 ->
  (forall B,
      0 <= B < 2 ^ 32 ->
      value (WriteFile (handle f) (uint32 (count * size))) = Some B ->
      exists st',
        __PHYSFS_platformWrite opaque size count st = Some (B / size, st')
        /\ B / size * size <= B < (B / size + 1) * size)
  /\ (value (WriteFile (handle f) (uint32 (count * size))) = None ->
      exists st' e,
        __PHYSFS_platformWrite opaque size count st = Some (-1, st')
        /\ physfs_err st' = Some e).
Proof.
  intros Hf Hsize. split.
  - intros B HB Hwrite.
    unfold __PHYSFS_platformWrite, call_WriteFile, deref.
    run_M. rewrite Hf. run_M. rewrite Hwrite. run_M.
    destruct (Z.eqb_spec size 0) as [| _]; [lia |].
    assert (Hq : 0 <= B / size <= B).
    { split; [apply Z.div_pos; lia |].
      apply Z.div_le_upper_bound; nia. }
    unfold uint32, sint64. rewrite (Z.mod_small B) by lia.
    rewrite (Z.mod_small (B / size)) by lia.
    destruct (Z.ltb_spec (B / size) (2 ^ 63)); [| lia].
    eexists. split; [reflexivity |].
    pose proof (Z.div_mod B size). pose proof (Z.mod_pos_bound B size). nia.
  - intros Hwrite.
    unfold __PHYSFS_platformWrite, call_WriteFile, deref, win32strerror.
    run_M. rewrite Hf. run_M. rewrite Hwrite. run_M.
    eexists _, _. split; reflexivity.
Qed.

(** X19.  Delete asks for the attributes once and then calls one removal
    primitive once: RemoveDirectory when the attribute word is exactly
    FILE_ATTRIBUTE_DIRECTORY, DeleteFile for every other word; it answers
    1 when that call succeeds, and 0 with the error set when it fails. *)
Theorem delete_calls_one_primitive (st : proc) (path : list ascii) :
  let is_dir := value (GetFileAttributes path) =? FILE_ATTRIBUTE_DIRECTORY in
  let removal := if is_dir then CallRemoveDirectory path else CallDeleteFile path in
  let ok := if is_dir then value (RemoveDirectory path)
            else value (DeleteFile path) in
  exists st',
    __PHYSFS_platformDelete path st = Some (if ok then 1 else 0, st')
    /\ trace st' = trace st ++
          [CallGetFileAttributes path; removal]
          ++ (if ok then []
              else match physfs_err st' with
                   | Some e => [SetError e]
                   | None => []
                   end)
    /\ (ok = false -> physfs_err st' <> None).
Proof.
  unfold __PHYSFS_platformDelete, call_GetFileAttributes,
    call_RemoveDirectory, call_DeleteFile, win32strerror.
  run_M.
  destruct (value (GetFileAttributes path) =? FILE_ATTRIBUTE_DIRECTORY); run_M.
  - destruct (value (RemoveDirectory path)); run_M;
      eexists; (split; [reflexivity |]); simpl;
      (split; [repeat rewrite <- app_assoc; reflexivity | discriminate]).
  - destruct (value (DeleteFile path)); run_M;
      eexists; (split; [reflexivity |]); simpl;
      (split; [repeat rewrite <- app_assoc; reflexivity | discriminate]).
Qed.

Lemma doOpen_refused
    (st : proc) (fname : list ascii) (mode creation rdonly : Z) :
  value (CreateFile fname mode creation) = INVALID_HANDLE_VALUE ->
  exists st',
    doOpen fname mode creation rdonly st = Some (0, st')
    /\ handles st' = handles st
    /\ heap st' = heap st
    /\ exists e, trace st' = trace st ++ [CallCreateFile fname mode creation; SetError e].
Proof.
  intros Hh. unfold doOpen, call_CreateFile, win32strerror.
  repeat (progress (run_M; rewrite ?Hh)).
  eexists. split; [reflexivity |]. simpl. repeat split.
  eexists. repeat rewrite <- app_assoc. reflexivity.
Qed.

(** The second half of the function, from the open on. *)
Lemma last_mod_time_fallback (st : proc) (fname : list ascii) :
  let h := value (CreateFile fname GENERIC_READ OPEN_EXISTING) in
  let p := Malloc sizeof_win32file in
  (h = INVALID_HANDLE_VALUE \/ h ∉ handles st) ->
  (p = 0 \/ heap st !! p = None) ->
  exists r st' rest,
    (f ← __PHYSFS_platformOpenRead fname;
     if f =? 0 then BAIL_NULL (-1)
     else
       file ← deref f;
       rc ← call_GetFileTime (handle file);
       err ← win32strerror;
       call_CloseHandle (handle file) ;;
       call_Free f ;;
       match rc with
       | None => BAIL_MACRO err (-1)
       | Some ft => FileTimeToPhysfsTime ft
       end) st = Some (r, st')
    /\ handles st' = handles st
    /\ heap st' = heap st
    /\ trace st' = trace st ++ CallCreateFile fname GENERIC_READ OPEN_EXISTING :: rest
    /\ (h <> INVALID_HANDLE_VALUE -> p <> 0 ->
        exists rest', rest = CallMalloc sizeof_win32file :: CallCloseHandle h
                             :: CallFree p :: rest').
Proof.
  intros h p Hfresh_h Hfresh_p.
  unfold __PHYSFS_platformOpenRead, mbind at 1, M_bind, FileIO.bind.
  destruct (Z.eq_dec h INVALID_HANDLE_VALUE) as [Hbad | Hvalid].
  { destruct (doOpen_refused st fname GENERIC_READ OPEN_EXISTING 1 Hbad)
      as (st1 & -> & Hh1 & Hp1 & e & Ht1).
    simpl. unfold BAIL_NULL, FileIO.ret.
    eexists _, _, _. split; [reflexivity |]. repeat split; try assumption.
    - exact Ht1.
    - intros Hne. contradiction. }
  destruct Hfresh_h as [| Hnew]; [contradiction |].
  destruct (Z.eq_dec p 0) as [Hnull | Hnonnull].
  { destruct (doOpen_no_memory st fname GENERIC_READ OPEN_EXISTING 1 h
                eq_refl Hvalid Hnew Hnull) as (st1 & -> & Hh1 & Hp1 & _ & Ht1).
    simpl. unfold BAIL_NULL, FileIO.ret.
    eexists _, _, _. split; [reflexivity |]. repeat split; try assumption.
    - exact Ht1.
    - intros _ Hne. contradiction. }
  destruct Hfresh_p as [| Hfree]; [contradiction |].
  destruct (doOpen_success st fname GENERIC_READ OPEN_EXISTING 1 h p
              eq_refl Hvalid eq_refl Hnonnull) as (st1 & -> & Hh1 & Hp1 & Ht1).
  assert (Ep : (p =? 0) = false) by (apply Z.eqb_neq; assumption).
  rewrite Ep.
  unfold call_GetFileTime, call_CloseHandle, call_Free, deref, holds, win32strerror.
  assert (Eheld : bool_decide (h ∈ handles st1) = true).
  { apply bool_decide_eq_true_2. rewrite Hh1.
    apply elem_of_union_l, elem_of_singleton. reflexivity. }
  assert (Elook : heap st1 !! p = Some (Some {| handle := h; readonly := 1 |}))
    by (rewrite Hp1; apply lookup_insert_eq).
  assert (Hhandles : handles st1 ∖ {[h]} = handles st).
  { rewrite Hh1, difference_union_distr_l_L, difference_diag_L, union_empty_l_L.
    apply difference_disjoint_L, disjoint_singleton_r. assumption. }
  assert (Hheap : delete p (heap st1) = heap st)
    by (rewrite Hp1; apply delete_insert_id; assumption).
  repeat (progress (run_M; rewrite ?Elook, ?Eheld)).
  destruct (value (GetFileTime h)) as [ft |]; run_M.
  - match goal with
    | |- context [FileTimeToPhysfsTime ft ?s] =>
        destruct (keeps_FileTimeToPhysfsTime ft s) as (r & st2 & Hconv & Hh2 & Hp2);
        pose proof (FileTimeToPhysfsTime_trace ft s r st2 Hconv) as (tail & Ht2 & _)
    end.
    simpl in Hh2, Hp2, Ht2.
    eexists r, st2, _. split; [exact Hconv |].
    split; [rewrite Hh2; exact Hhandles |].
    split; [rewrite Hp2; exact Hheap |].
    split.
    + rewrite Ht2, Ht1. repeat rewrite <- app_assoc. reflexivity.
    + intros _ _. eexists. reflexivity.
  - eexists _, _, _. split; [reflexivity |]. simpl.
    split; [exact Hhandles |]. split; [exact Hheap |]. split.
    + rewrite Ht1. repeat rewrite <- app_assoc. reflexivity.
    + intros _ _. eexists. reflexivity.
Qed.

(** X20.  Whatever the system answers, the query for the time of the last
    write returns, and the process then holds the descriptors and the
    blocks it held before: the file opened on the fallback path is closed
    and its handle freed on every way out. *)
Theorem last_mod_time_keeps_resources (st : proc) (fname : list ascii) :
  let h := value (CreateFile fname GENERIC_READ OPEN_EXISTING) in
  let p := Malloc sizeof_win32file in
  (h = INVALID_HANDLE_VALUE \/ h ∉ handles st) ->
  (p = 0 \/ heap st !! p = None) ->
  exists r st',
    __PHYSFS_platformGetLastModTime fname st = Some (r, st')
    /\ handles st' = handles st
    /\ heap st' = heap st.
Proof.
  intros h p Hfresh_h Hfresh_p.
  destruct (keeps_time_from_attributes fname st) as (retval & st1 & Hfirst & Hh1 & Hp1).
  unfold __PHYSFS_platformGetLastModTime, mbind at 1, M_bind, FileIO.bind.
  rewrite Hfirst.
  destruct (retval =? -1).
  - destruct (last_mod_time_fallback st1 fname) as (r & st2 & rest & Hrun & Hh2 & Hp2 & _).
    + rewrite Hh1. exact Hfresh_h.
    + rewrite Hp1. exact Hfresh_p.
    + exists r, st2. split; [exact Hrun |]. split; congruence.
  - exists retval, st1. repeat split; assumption.
Qed.

(** X21.  When the attributes of the file give a time other than -1, that
    time is the result and no call is added to the trace: the file is not
    opened. *)
Theorem last_mod_time_from_attributes_opens_nothing
    (st : proc) (fname : list ascii) (r : Z) (st' : proc) :
  time_from_attributes fname st = Some (r, st') ->
  r <> -1 ->
  __PHYSFS_platformGetLastModTime fname st = Some (r, st')
  /\ trace st' = trace st.
Proof.
  intros Hfirst Hr.
  unfold __PHYSFS_platformGetLastModTime, mbind at 1, M_bind, FileIO.bind.
  rewrite Hfirst.
  destruct (Z.eqb_spec r (-1)) as [| _]; [contradiction |].
  split; [reflexivity |].
  revert Hfirst. unfold time_from_attributes, call_GetFileAttributesEx.
  destruct pGetFileAttributesExA as [getattr |]; run_M;
    [| intros [= <- <-]; contradiction].
  destruct (value (getattr fname)) as [ft |];
    [| intros [= <- <-]; contradiction].
  destruct (negb (dwHighDateTime ft =? 0) || negb (dwLowDateTime ft =? 0));
    [| intros [= <- <-]; contradiction].
  intros Hconv.
  destruct (FileTimeToPhysfsTime_trace _ _ _ _ Hconv) as (tail & Ht & Hnil).
  rewrite Ht, (Hnil Hr). simpl. apply app_nil_r.
Qed.

(** X22.  On a system without GetFileAttributesExA the file is opened
    for reading, closed and its handle freed, and the result is made
    after that from what GetFileTime answers for the descriptor of the
    file: the conversion of the time it gives, or -1 with the text of the
    system error it left. *)
Theorem last_mod_time_fallback_opens_and_closes
    (st : proc) (fname : list ascii) (h p : Z) :
  pGetFileAttributesExA = None ->
  value (CreateFile fname GENERIC_READ OPEN_EXISTING) = h ->
  h <> INVALID_HANDLE_VALUE ->
  h ∉ handles st ->
  Malloc sizeof_win32file = p ->
  p <> 0 ->
  heap st !! p = None ->
  exists st1,
    __PHYSFS_platformGetLastModTime fname st =
      match value (GetFileTime h) with
      | Some ft => FileTimeToPhysfsTime ft st1
      | None => (err ← win32strerror; BAIL_MACRO err (-1)) st1
      end
    /\ handles st1 = handles st
    /\ heap st1 = heap st
    /\ (forall code, sets_error (GetFileTime h) = Some code -> last_error st1 = code)
    /\ trace st1 = trace st ++
          [CallCreateFile fname GENERIC_READ OPEN_EXISTING;
           CallMalloc sizeof_win32file;
           CallCloseHandle h;
           CallFree p].
Proof.
  intros Hold Hh Hvalid Hnew Hp Hnonnull Hfree.
  unfold __PHYSFS_platformGetLastModTime, time_from_attributes.
  rewrite Hold. unfold mbind at 1, M_bind, FileIO.bind. simpl.
  unfold __PHYSFS_platformOpenRead, mbind at 1, M_bind, FileIO.bind.
  destruct (doOpen_success st fname GENERIC_READ OPEN_EXISTING 1 h p
              Hh Hvalid Hp Hnonnull) as (st0 & -> & Hh0 & Hp0 & Ht0).
  assert (Ep : (p =? 0) = false) by (apply Z.eqb_neq; assumption).
  rewrite Ep.
  unfold call_GetFileTime, call_CloseHandle, call_Free, deref, holds, win32strerror.
  assert (Eheld : bool_decide (h ∈ handles st0) = true).
  { apply bool_decide_eq_true_2. rewrite Hh0.
    apply elem_of_union_l, elem_of_singleton. reflexivity. }
  assert (Elook : heap st0 !! p = Some (Some {| handle := h; readonly := 1 |}))
    by (rewrite Hp0; apply lookup_insert_eq).
  assert (Hhandles : handles st0 ∖ {[h]} = handles st).
  { rewrite Hh0, difference_union_distr_l_L, difference_diag_L, union_empty_l_L.
    apply difference_disjoint_L, disjoint_singleton_r. assumption. }
  assert (Hheap : delete p (heap st0) = heap st)
    by (rewrite Hp0; apply delete_insert_id; assumption).
  repeat (progress (run_M; rewrite ?Elook, ?Eheld)).
  eexists. split.
  { destruct (value (GetFileTime h)) as [ft |]; run_M; reflexivity. }
  simpl. split; [exact Hhandles |]. split; [exact Hheap |]. split.
  - intros code ->. reflexivity.
  - rewrite Ht0. repeat rewrite <- app_assoc. reflexivity.
Qed.

Lemma chop_newline_first (msg rest : list ascii) (c : ascii) :
  Forall (fun x => ~ newline x) msg -> newline c ->
  chop_newline (msg ++ c :: rest) = msg ++ " "%char :: rest.
Proof.
  intros Hmsg Hc. induction Hmsg as [| x msg Hx _ IH]; simpl.
  - destruct Hc as [-> | ->]; reflexivity.
  - destruct (Ascii.eqb_spec x "010"%char) as [-> | _];
      [exfalso; apply Hx; left; reflexivity |].
    destruct (Ascii.eqb_spec x "013"%char) as [-> | _];
      [exfalso; apply Hx; right; reflexivity |].
    simpl. rewrite IH. reflexivity.
Qed.

(** X23.  The text of a system error has its first carriage return or
    line feed turned into a space and nothing else changed: of a message
    that ends with both, the second stays. *)
Theorem win32strerror_blanks_first_newline
    (st : proc) (msg rest : list ascii) (c : ascii) :
  Forall (fun x => ~ newline x /\ x <> NUL) msg ->
  newline c ->
  Forall (fun x => x <> NUL) rest ->
  FormatMessage (last_error st) = msg ++ c :: rest ->
  win32strerror st = Some (ERR_WIN32 (msg ++ " "%char :: rest), st).
Proof.
  intros Hmsg Hc Hrest Htext. unfold win32strerror. run_M. rewrite Htext.
  rewrite cstr_id.
  - rewrite chop_newline_first; [reflexivity | | exact Hc].
    eapply Forall_impl; [exact Hmsg |]. intros x [Hx _]. exact Hx.
  - apply Forall_app. split.
    + eapply Forall_impl; [exact Hmsg |]. intros x [_ Hx]. exact Hx.
    + constructor; [destruct Hc as [-> | ->]; discriminate | exact Hrest].
Qed.

End MoreFileFacts.

(** ** The file functions on the sample systems, once more *)

Section MoreFileRuns.

Local Open Scope Z_scope.

Lemma open_without_memory_closes_descriptor_witness :
  exists st',
    doOpen (os := no_memory_os) (text "C:\a.txt") GENERIC_READ OPEN_EXISTING 1 idle
    = Some (0, st')
    /\ handles st' = handles idle
    /\ heap st' = heap idle
    /\ physfs_err st' = Some ERR_OUT_OF_MEMORY
    /\ trace st' = trace idle ++
          [CallCreateFile (text "C:\a.txt") GENERIC_READ OPEN_EXISTING;
           CallMalloc sizeof_win32file;
           CallCloseHandle 3;
           SetError ERR_OUT_OF_MEMORY].
Proof.
  apply (open_without_memory_closes_descriptor (os := no_memory_os)
           idle (text "C:\a.txt") GENERIC_READ OPEN_EXISTING 1 3).
  - reflexivity.
  - discriminate.
  - simpl. apply not_elem_of_empty.
  - reflexivity.
Defined.

Lemma open_read_then_close_releases_witness :
  exists st',
    (opaque ← __PHYSFS_platformOpenRead (os := plain_os) (text "C:\a.txt");
     __PHYSFS_platformClose (os := plain_os) opaque) idle
    = Some (1, st')
    /\ handles st' = handles idle
    /\ heap st' = heap idle
    /\ trace st' = trace idle ++
          [CallCreateFile (text "C:\a.txt") GENERIC_READ OPEN_EXISTING;
           CallMalloc sizeof_win32file;
           CallCloseHandle 3;
           CallFree 4096].
Proof.
  apply (open_read_then_close_releases (os := plain_os) idle (text "C:\a.txt") 3 4096).
  - reflexivity.
  - discriminate.
  - simpl. apply not_elem_of_empty.
  - reflexivity.
  - discriminate.
  - reflexivity.
Defined.

Lemma close_failure_keeps_block_witness :
  exists st' e,
    __PHYSFS_platformClose (os := plain_os) 4096 stale_file = Some (0, st')
    /\ heap st' = heap stale_file
    /\ handles st' = handles stale_file
    /\ physfs_err st' = Some e
    /\ trace st' = trace stale_file ++ [CallCloseHandle 3; SetError e].
Proof.
  apply (close_failure_keeps_block (os := plain_os) stale_file 4096
           {| handle := 3; readonly := 1 |}).
  - reflexivity.
  - simpl. apply not_elem_of_empty.
Defined.

Lemma flush_depends_on_open_mode_witness :
  exists st',
    (opaque ← __PHYSFS_platformOpenRead (os := plain_os) (text "C:\a.txt");
     __PHYSFS_platformFlush (os := plain_os) opaque) idle
    = Some (1, st')
    /\ trace st' = trace idle ++
          [CallCreateFile (text "C:\a.txt") GENERIC_READ OPEN_EXISTING;
           CallMalloc sizeof_win32file].
Proof.
  refine (proj1 (flush_depends_on_open_mode (os := plain_os)
                   idle (text "C:\a.txt") 3 4096 _ _) _ _).
  - reflexivity.
  - discriminate.
  - reflexivity.
  - discriminate.
Defined.

Lemma seek_splits_offset_witness :
  exists r st' rest,
    __PHYSFS_platformSeek (os := plain_os) 4096 5000000000 one_open_file
    = Some (r, st')
    /\ trace st' = trace one_open_file ++
          CallSetFilePointer 3 705032704 (Some 1) FILE_BEGIN :: rest.
Proof.
  apply (seek_splits_offset (os := plain_os) one_open_file 4096
           {| handle := 3; readonly := 1 |} 5000000000).
  - reflexivity.
  - lia.
Defined.

Lemma tell_joins_what_seek_splits_witness :
  exists st',
    __PHYSFS_platformTell
      (os := sample_os 5000000000 6000000000 FILE_ATTRIBUTE_ARCHIVE (quiet (0, 0)) None)
      4096 one_open_file = Some (5000000000, st').
Proof.
  apply (tell_joins_what_seek_splits
           (os := sample_os 5000000000 6000000000 FILE_ATTRIBUTE_ARCHIVE
                    (quiet (0, 0)) None)
           one_open_file 4096 {| handle := 3; readonly := 1 |} 5000000000).
  - reflexivity.
  - lia.
  - vm_compute. reflexivity.
  - intros _. reflexivity.
Defined.

Lemma missing_path_is_reported_as_directory_witness :
  (exists st' e,
      __PHYSFS_platformExists
        (os := sample_os 0 0 PHYSFS_INVALID_FILE_ATTRIBUTES (quiet (0, 0)) None)
        (text "C:\none") idle = Some (0, st')
      /\ physfs_err st' = Some e)
  /\ (exists st',
        __PHYSFS_platformIsDirectory
          (os := sample_os 0 0 PHYSFS_INVALID_FILE_ATTRIBUTES (quiet (0, 0)) None)
          (text "C:\none") idle = Some (1, st')).
Proof.
  apply (missing_path_is_reported_as_directory
           (os := sample_os 0 0 PHYSFS_INVALID_FILE_ATTRIBUTES (quiet (0, 0)) None)
           idle (text "C:\none")).
  reflexivity.
Defined.

Lemma write_counts_whole_elements_witness :
  exists st',
    __PHYSFS_platformWrite (os := plain_os) 4096 8 4 one_open_file
    = Some (30 / 8, st')
    /\ 30 / 8 * 8 <= 30 < (30 / 8 + 1) * 8.
Proof.
  refine (proj1 (write_counts_whole_elements (os := plain_os)
                   one_open_file 4096 {| handle := 3; readonly := 1 |} 8 4 _ _)
            30 _ _).
  - reflexivity.
  - lia.
  - lia.
  - reflexivity.
Defined.

Lemma last_mod_time_keeps_resources_witness :
  exists r st',
    __PHYSFS_platformGetLastModTime
      (os := plain_os) (clock := sample_clock) (attrs := sample_attrs_old)
      (text "C:\a.txt") idle = Some (r, st')
    /\ handles st' = handles idle
    /\ heap st' = heap idle.
Proof.
  apply (last_mod_time_keeps_resources
           (os := plain_os) (clock := sample_clock) (attrs := sample_attrs_old)
           idle (text "C:\a.txt")).
  - right. simpl. apply not_elem_of_empty.
  - right. reflexivity.
Defined.

Lemma last_mod_time_from_attributes_opens_nothing_witness :
  let st' := {| handles := ∅; heap := ∅; last_error := 120;
                physfs_err := None; trace := [] |} in
  __PHYSFS_platformGetLastModTime
    (os := plain_os) (clock := sample_clock) (attrs := sample_attrs)
    (text "C:\a.txt") idle = Some (306, st')
  /\ trace st' = trace idle.
Proof.
  apply (last_mod_time_from_attributes_opens_nothing
           (os := plain_os) (clock := sample_clock) (attrs := sample_attrs)
           idle (text "C:\a.txt") 306).
  - vm_compute. reflexivity.
  - discriminate.
Defined.

Lemma last_mod_time_fallback_opens_and_closes_witness :
  exists st1,
    __PHYSFS_platformGetLastModTime
      (os := plain_os) (clock := sample_clock) (attrs := sample_attrs_old)
      (text "C:\a.txt") idle =
      match value (GetFileTime (LastWriteApi := sample_attrs_old) 3) with
      | Some ft =>
          FileTimeToPhysfsTime (os := plain_os) (clock := sample_clock) ft st1
      | None => (err ← win32strerror (os := plain_os); BAIL_MACRO err (-1)) st1
      end
    /\ handles st1 = handles idle
    /\ heap st1 = heap idle
    /\ (forall code,
          sets_error (GetFileTime (LastWriteApi := sample_attrs_old) 3) = Some code ->
          last_error st1 = code)
    /\ trace st1 = trace idle ++
          [CallCreateFile (text "C:\a.txt") GENERIC_READ OPEN_EXISTING;
           CallMalloc sizeof_win32file;
           CallCloseHandle 3;
           CallFree 4096].
Proof.
  apply (last_mod_time_fallback_opens_and_closes
           (os := plain_os) (clock := sample_clock) (attrs := sample_attrs_old)
           idle (text "C:\a.txt") 3 4096).
  - reflexivity.
  - reflexivity.
  - discriminate.
  - simpl. apply not_elem_of_empty.
  - reflexivity.
  - discriminate.
  - reflexivity.
Defined.

Lemma win32strerror_blanks_first_newline_witness :
  win32strerror (os := crlf_os) idle
  = Some (ERR_WIN32 (text "Access is denied." ++ [" "; "010"]%char), idle).
Proof.
  apply (win32strerror_blanks_first_newline (os := crlf_os) idle
           (text "Access is denied.") ["010"%char] "013"%char).
  - apply Forall_forall. intros x Hx.
    repeat (apply elem_of_cons in Hx as [-> | Hx];
            [split; [intros [H | H]; discriminate | discriminate] |]).
    inversion Hx.
  - right. reflexivity.
  - repeat constructor. discriminate.
  - reflexivity.
Defined.

End MoreFileRuns.

(** ** The directory of the executable *)

Section ExePathFacts.

Local Open Scope Z_scope.

Lemma grow_finds_length (host : exe_host) :
  module_known host = true ->
  (forall bytes, realloc_ok host bytes = true) ->
  0 < Z.of_nat (length (module_path host)) < 2 ^ 31 ->
  forall turns buflen,
    0 < buflen ->
    Z.of_nat (length (module_path host)) < buflen * 2 ^ (Z.of_nat turns - 1) ->
    (1 <= turns)%nat ->
    grow turns host buflen = inl (Z.of_nat (length (module_path host))).
Proof.
  intros Hknown Hrealloc HL.
  induction turns as [| turns IH]; intros buflen Hbuf Henough Hturns; [lia |].
  cbn [grow]. rewrite Hrealloc. cbn [negb].
  unfold GetModuleFileNameW. rewrite Hknown.
  set (L := Z.of_nat (length (module_path host))) in *.
  destruct (Z.eqb_spec (Z.min L buflen) 0) as [Hzero | _]; [lia |].
  destruct (Z.ltb_spec (Z.min L buflen) buflen) as [Hfits | Hfull].
  - f_equal. lia.
  - assert (Hle : buflen <= L) by lia.
    replace (Z.of_nat (S turns) - 1) with (Z.of_nat turns) in Henough by lia.
    assert (Hturns' : (1 <= turns)%nat).
    { destruct turns as [| turns']; [| lia]. simpl in Henough. lia. }
    unfold uint32. rewrite Z.mod_small by lia.
    apply IH; [lia | | exact Hturns'].
    replace (Z.of_nat turns) with (Z.succ (Z.of_nat turns - 1)) in Henough by lia.
    rewrite Z.pow_succ_r in Henough by lia. lia.
Qed.

Lemma last_wsep_found (modpath : list Z) (at_ : nat) :
  nth at_ modpath 0 = WSEP ->
  forall q,
    (at_ <= q)%nat ->
    (forall i, (at_ < i <= q)%nat -> nth i modpath 0 <> WSEP) ->
    last_wsep modpath q = at_.
Proof.
  intros Hat. induction q as [| q IH]; intros Hq Hafter; [simpl; lia |].
  simpl. destruct (Z.eqb_spec (nth (S q) modpath 0) WSEP) as [Hsep | Hnot].
  - destruct (Nat.eq_dec at_ (S q)) as [-> | Hne]; [reflexivity |].
    exfalso. apply (Hafter (S q)); [lia | exact Hsep].
  - destruct (Nat.eq_dec at_ (S q)) as [-> | Hne]; [contradiction |].
    apply IH; [lia |]. intros i Hi. apply Hafter. lia.
Qed.

Lemma last_wsep_absent (modpath : list Z) :
  forall q,
    (forall i, (0 < i <= q)%nat -> nth i modpath 0 <> WSEP) ->
    last_wsep modpath q = 0%nat.
Proof.
  induction q as [| q IH]; intros Hafter; [reflexivity |].
  simpl. destruct (Z.eqb_spec (nth (S q) modpath 0) WSEP) as [Hsep | _].
  - exfalso. apply (Hafter (S q)); [lia | exact Hsep].
  - apply IH. intros i Hi. apply Hafter. lia.
Qed.

(** X24.  The string returned is the path of the executable up to its
    last separator, that separator included, converted to UTF-8. *)
Theorem exe_path_is_directory_of_module
    (host : exe_host) (dir name : list Z) :
  module_known host = true ->
  (forall bytes, realloc_ok host bytes = true) ->
  (forall bytes, malloc_ok host bytes = true) ->
  module_path host = dir ++ WSEP :: name ->
  ~ In WSEP name ->
  Z.of_nat (length (module_path host)) < 2 ^ 31 ->
  getExePath host = Dir (cstr (utf8FromUcs2 host (dir ++ [WSEP]))).
Proof.
  intros Hknown Hrealloc Hmalloc Hpath Hname Hlen.
  assert (HL : length (module_path host) = (length dir + S (length name))%nat)
    by (rewrite Hpath, length_app; reflexivity).
  unfold getExePath.
  rewrite (grow_finds_length host Hknown Hrealloc) by (simpl; lia).
  destruct (Z.ltb_spec 0 (Z.of_nat (length (module_path host)))); [| lia].
  rewrite Nat2Z.id, firstn_all.
  assert (Hat : nth (length dir) (module_path host) 0 = WSEP).
  { rewrite Hpath, app_nth2 by lia. rewrite Nat.sub_diag. reflexivity. }
  rewrite (last_wsep_found (module_path host) (length dir) Hat).
  - rewrite Hat. rewrite Z.eqb_refl, andb_false_r, Hmalloc.
    rewrite Hpath.
    replace (length dir + 1)%nat with (length (dir ++ [WSEP]))
      by (rewrite length_app; reflexivity).
    change (dir ++ WSEP :: name) with (dir ++ [WSEP] ++ name).
    rewrite app_assoc, take_app_length. reflexivity.
  - lia.
  - intros i Hi Hsep. apply Hname.
    rewrite Hpath, app_nth2 in Hsep by lia.
    destruct (i - length dir)%nat as [| k] eqn:Hk; [lia |].
    simpl in Hsep. rewrite <- Hsep. apply nth_In. lia.
Qed.

(** X25.  A path of the executable without any separator has no
    directory: NULL is returned with the error that says so. *)
Theorem exe_path_without_separator_fails (host : exe_host) :
  module_known host = true ->
  (forall bytes, realloc_ok host bytes = true) ->
  module_path host <> [] ->
  ~ In WSEP (module_path host) ->
  Z.of_nat (length (module_path host)) < 2 ^ 31 ->
  getExePath host = Null ERR_GETMODFN_NO_DIR.
Proof.
  intros Hknown Hrealloc Hne Hnone Hlen.
  assert (Hpos : (0 < length (module_path host))%nat)
    by (destruct (module_path host); [contradiction | simpl; lia]).
  assert (Hchars : forall i, (i < length (module_path host))%nat ->
                             nth i (module_path host) 0 <> WSEP).
  { intros i Hi Hsep. apply Hnone. rewrite <- Hsep. apply nth_In. exact Hi. }
  unfold getExePath.
  rewrite (grow_finds_length host Hknown Hrealloc) by (simpl; lia).
  destruct (Z.ltb_spec 0 (Z.of_nat (length (module_path host)))); [| lia].
  rewrite Nat2Z.id, firstn_all.
  rewrite last_wsep_absent by (intros i Hi; apply Hchars; lia).
  simpl Nat.eqb. cbn [andb].
  destruct (Z.eqb_spec (nth 0 (module_path host) 0) WSEP) as [Hsep | _];
    [exfalso; exact (Hchars 0%nat Hpos Hsep) | reflexivity].
Qed.

(** The loop ends within its 27 turns whatever the system answers. *)
Lemma grow_ends (host : exe_host) :
  forall turns k,
    (turns + k = 27)%nat -> (1 <= turns)%nat ->
    grow turns host (uint32 (64 * 2 ^ Z.of_nat k)) <> inr Turning.
Proof.
  induction turns as [| turns IH]; intros k Hsum Hturns; [lia |].
  cbn [grow].
  destruct (negb (realloc_ok host _)); [discriminate |].
  destruct (GetModuleFileNameW host _ =? 0) eqn:Hrc; [discriminate |].
  destruct (GetModuleFileNameW host _ <? _); [discriminate |].
  destruct turns as [| turns'].
  - exfalso. replace k with 26%nat in Hrc by lia.
    change (uint32 (64 * 2 ^ Z.of_nat 26)) with 0 in Hrc.
    unfold GetModuleFileNameW in Hrc.
    destruct (module_known host); [| discriminate].
    apply Z.eqb_neq in Hrc. lia.
  - replace (uint32 (uint32 (64 * 2 ^ Z.of_nat k) * 2))
      with (uint32 (64 * 2 ^ Z.of_nat (S k))).
    + apply IH; lia.
    + unfold uint32. rewrite Z.mul_mod_idemp_l by lia. f_equal.
      rewrite Nat2Z.inj_succ, Z.pow_succ_r by lia. lia.
Qed.

(** X26.  Whatever the system answers, the buffer stops growing within 27
    turns: the function returns a string or NULL. *)
Theorem exe_path_search_ends (host : exe_host) : getExePath host <> Turning.
Proof.
  unfold getExePath.
  pose proof (grow_ends host 27 0 eq_refl ltac:(lia)) as Hends.
  change (uint32 (64 * 2 ^ Z.of_nat 0)) with 64 in Hends.
  destruct (grow 27 host 64) as [buflen | failure].
  - destruct (0 <? buflen); [| discriminate].
    destruct (_ && _); [discriminate |].
    destruct (malloc_ok host _); discriminate.
  - intros ->. apply Hends. reflexivity.
Qed.

End ExePathFacts.

Lemma exe_path_is_directory_of_module_witness :
  getExePath sample_exe = Dir (text "C:\games\").
Proof.
  apply (exe_path_is_directory_of_module sample_exe
           (map (fun c => Z.of_nat (nat_of_ascii c)) (text "C:\games"))
           (map (fun c => Z.of_nat (nat_of_ascii c)) (text "doom.exe"))).
  - reflexivity.
  - reflexivity.
  - reflexivity.
  - reflexivity.
  - vm_compute. intuition discriminate.
  - vm_compute. reflexivity.
Defined.

Lemma exe_path_without_separator_fails_witness :
  getExePath {| module_path := [100; 111; 111; 109]%Z;
                module_known := true;
                realloc_ok := fun _ => true;
                malloc_ok := fun _ => true;
                module_error := [];
                utf8FromUcs2 := fun _ => [] |}
  = Null ERR_GETMODFN_NO_DIR.
Proof.
  apply exe_path_without_separator_fails.
  - reflexivity.
  - reflexivity.
  - discriminate.
  - vm_compute. intuition discriminate.
  - vm_compute. reflexivity.
Defined.

(** ** Removable media *)

Section MediaFacts.

Local Open Scope Z_scope.

Lemma detect_one_spec (host : cd_host) (ch : ascii) (st : cd_state) :
  exists probes,
    detect_one host ch st =
    {| error_mode := error_mode st;
       cd_trace := cd_trace st ++ probes
                   ++ (if cd_with_media host ch then [CdCallback (drive_str ch)] else []) |}
    /\ probes =
       (if GetDriveType host (drive_str ch) =? DRIVE_CDROM
        then [CallSetErrorMode SEM_FAILCRITICALERRORS;
              CallGetVolumeInformation (drive_str ch);
              CallSetErrorMode (error_mode st)]
        else []).
Proof.
  unfold detect_one, cd_with_media, mediaInDrive, SetErrorMode.
  destruct st as [mode tr]. simpl.
  destruct (GetDriveType host (drive_str ch) =? DRIVE_CDROM); simpl.
  - destruct (GetVolumeInformation host (drive_str ch)); simpl;
      eexists; (split; [| reflexivity]); simpl;
      repeat rewrite <- app_assoc; rewrite ?app_nil_r; reflexivity.
  - eexists. split; [| reflexivity]. rewrite !app_nil_r. reflexivity.
Qed.

Lemma detect_from_spec (host : cd_host) :
  forall count ch st,
    error_mode (detect_from host ch count st) = error_mode st
    /\ List.filter (fun e => match e with CdCallback _ => true | _ => false end)
         (cd_trace (detect_from host ch count st))
       = List.filter (fun e => match e with CdCallback _ => true | _ => false end)
           (cd_trace st)
         ++ map (fun c => CdCallback (drive_str c))
              (List.filter (cd_with_media host) (map ascii_of_nat (seq ch count)))
    /\ forall drive,
         In (CallGetVolumeInformation drive) (cd_trace (detect_from host ch count st)) ->
         In (CallGetVolumeInformation drive) (cd_trace st)
         \/ GetDriveType host drive = DRIVE_CDROM.
Proof.
  induction count as [| count IH]; intros ch st; cbn [detect_from seq map].
  - simpl. split; [reflexivity |]. split; [rewrite app_nil_r; reflexivity |].
    intros drive Hin. left. exact Hin.
  - destruct (detect_one_spec host (ascii_of_nat ch) st) as (probes & Hone & Hprobes).
    remember (detect_one host (ascii_of_nat ch) st) as st1 eqn:Hst1.
    assert (Hmode1 : error_mode st1 = error_mode st) by (rewrite Hone; reflexivity).
    assert (Htrace1 : cd_trace st1 = cd_trace st ++ probes
              ++ (if cd_with_media host (ascii_of_nat ch)
                  then [CdCallback (drive_str (ascii_of_nat ch))] else []))
      by (rewrite Hone; reflexivity).
    clear Hone Hst1.
    destruct (IH (S ch) st1) as (Hmode & Hcalls & Hvol).
    split; [congruence |]. split.
    + rewrite Hcalls, Htrace1, !List.filter_app.
      assert (Hnone : List.filter
                (fun e => match e with CdCallback _ => true | _ => false end) probes = []).
      { rewrite Hprobes. destruct (_ =? _); reflexivity. }
      rewrite Hnone. cbn [List.filter].
      destruct (cd_with_media host (ascii_of_nat ch)); simpl;
        repeat rewrite <- app_assoc; reflexivity.
    + intros drive Hin. destruct (Hvol drive Hin) as [Hold | Hcd]; [| right; exact Hcd].
      rewrite Htrace1 in Hold.
      apply in_app_or in Hold as [Hold | Hold]; [left; exact Hold |].
      apply in_app_or in Hold as [Hold | Hold].
      * rewrite Hprobes in Hold.
        destruct (Z.eqb_spec (GetDriveType host (drive_str (ascii_of_nat ch))) DRIVE_CDROM)
          as [Hcd | _]; [| contradiction].
        simpl in Hold. destruct Hold as [Hold | [Hold | [Hold | []]]];
          try discriminate. injection Hold as <-. right. exact Hcd.
      * destruct (cd_with_media host (ascii_of_nat ch)); simpl in Hold;
          [destruct Hold as [Hold | []]; discriminate | contradiction].
Qed.

(** X27.  The callback is made for the drives from A to Z that are CD-ROM
    drives with a medium, in that order and under the names A:\ to Z:\;
    only CD-ROM drives are probed for a medium, and the error mode of the
    process is afterwards what it was. *)
Theorem detect_cds_reports_loaded_drives (host : cd_host) (mode : Z) :
  let st' := __PHYSFS_platformDetectAvailableCDs host
               {| error_mode := mode; cd_trace := [] |} in
  error_mode st' = mode
  /\ List.filter (fun e => match e with CdCallback _ => true | _ => false end)
       (cd_trace st')
     = map (fun c => CdCallback (drive_str c))
         (List.filter (cd_with_media host) drive_letters)
  /\ forall drive,
       In (CallGetVolumeInformation drive) (cd_trace st') ->
       GetDriveType host drive = DRIVE_CDROM.
Proof.
  intros st'. subst st'. unfold __PHYSFS_platformDetectAvailableCDs, drive_letters.
  generalize (detect_from_spec host 26 65 {| error_mode := mode; cd_trace := [] |}).
  generalize (detect_from host 65 26 {| error_mode := mode; cd_trace := [] |}).
  generalize (map ascii_of_nat (seq 65 26)).
  intros letters st' (Hmode & Hcalls & Hvol).
  cbn [cd_trace error_mode List.filter app] in Hmode, Hcalls, Hvol.
  split; [exact Hmode |]. split; [exact Hcalls |].
  intros drive Hin. destruct (Hvol drive Hin) as [[] | Hcd]. exact Hcd.
Qed.

(** A run: drive D is probed and reported, drive F is probed and left
    out, no other drive is probed. *)
Example detect_cds_on_two_drives :
  cd_trace (__PHYSFS_platformDetectAvailableCDs sample_drives
              {| error_mode := 0; cd_trace := [] |})
  = [CallSetErrorMode SEM_FAILCRITICALERRORS;
     CallGetVolumeInformation (text "D:\");
     CallSetErrorMode 0;
     CdCallback (text "D:\");
     CallSetErrorMode SEM_FAILCRITICALERRORS;
     CallGetVolumeInformation (text "F:\");
     CallSetErrorMode 0].
Proof. vm_compute. reflexivity. Qed.

End MediaFacts.

(** ** Dot entries taken out *)

Section DotRemoval.

(** The search from [p] finds the first separator-dot pair, which is at
    [q] or before it when there is a pair at [q]. *)
Lemma strstr_first (m : block) (p q e : nat) :
  p <= q -> (forall i, p <= i < q -> m i <> NUL) ->
  m q = SEP -> m (S q) = DOT ->
  S q < e < MAX_PATH -> m e = NUL ->
  exists q1,
    strstr_sepdot MAX_PATH m p = Some (Some q1)
    /\ p <= q1 <= q /\ m q1 = SEP /\ m (S q1) = DOT /\ plain m p q1.
Proof.
  intros Hpq Hchars Hq Hq' He Hnul.
  destruct (strstr_sepdot MAX_PATH m p) as [[q1 |] |] eqn:Hfind.
  - destruct (strstr_found _ _ _ _ Hfind) as (Hp1 & _ & H1 & H1' & Hplain).
    exists q1. split; [reflexivity |].
    split; [| split; [exact H1 | split; [exact H1' | exact Hplain]]].
    split; [exact Hp1 |].
    destruct (Nat.le_gt_cases q1 q) as [Hle | Hgt]; [exact Hle | exfalso].
    destruct (Hplain q) as [_ Hno]; [lia |]. apply Hno. split; assumption.
  - exfalso. destruct (strstr_absent _ _ _ Hfind) as (e1 & He1 & Hnul1 & Hplain).
    destruct (Nat.lt_ge_cases e1 q) as [Hlt | Hge].
    + apply (Hchars e1); [lia | exact Hnul1].
    + destruct (Nat.eq_dec e1 q) as [-> | Hne];
        [rewrite Hq in Hnul1; discriminate |].
      destruct (Hplain q) as [_ Hno]; [lia |]. apply Hno. split; assumption.
  - exfalso. apply (strstr_defined MAX_PATH m p e); [lia | exact Hnul | exact Hfind].
Qed.

(** The scan steps over the pairs it does not act on: from [p] it gets
    to the pair at [q] in at most [q - p] turns. *)
Lemma dotscan_skip (m : block) (q e : nat) :
  scanned m q -> m q = SEP -> m (S q) = DOT ->
  S q < e < MAX_PATH -> m e = NUL ->
  forall n p,
    q - p <= n -> p <= q ->
    exists used,
      used <= q - p
      /\ forall extra, dotscan (used + S extra) m p = dotscan (S extra) m q.
Proof.
  intros Hscan Hq Hq' He Hnul.
  assert (Hat : strstr_sepdot MAX_PATH m q = Some (Some q)).
  { destruct (strstr_first m q q e) as (q1 & Hfind & Hq1 & _);
      try assumption; try lia.
    replace q1 with q in Hfind by lia. exact Hfind. }
  induction n as [| n IH]; intros p Hn Hpq.
  - exists 0. split; [lia |]. intros extra. replace p with q by lia. reflexivity.
  - destruct (strstr_first m p q e) as (q1 & Hfind & Hq1 & H1 & H1' & Hplain);
      try assumption.
    { intros i Hi. apply Hscan. lia. }
    destruct (Nat.eq_dec q1 q) as [-> | Hne].
    + exists 0. split; [lia |]. intros extra.
      cbn [dotscan Nat.add]. rewrite Hfind, Hat. reflexivity.
    + destruct (IH (q1 + 1)) as (used & Hused & Hskip); [lia | lia |].
      exists (S used). split; [lia |]. intros extra.
      rewrite <- Hskip. cbn [dotscan Nat.add]. rewrite Hfind. cbn [obind defined].
      unfold peek. destruct (Nat.ltb_spec (q1 + 2) MAX_PATH); [| lia].
      cbn [obind defined]. replace (q1 + 2) with (S (S q1)) by lia.
      destruct (Hscan q1) as [_ Hset]; [lia |]. specialize (Hset H1 H1').
      destruct (Ascii.eqb_spec (m (S (S q1))) SEP) as [Hc | _];
        [exfalso; apply Hset; left; exact Hc |].
      destruct (Ascii.eqb_spec (m (S (S q1))) NUL) as [Hc | _];
        [exfalso; apply Hset; right; left; exact Hc |].
      destruct (Ascii.eqb_spec (m (S (S q1))) DOT) as [Hc | _];
        [exfalso; apply Hset; right; right; exact Hc |].
      reflexivity.
Qed.

(** Below the end of [a], a block that holds [a] followed by a separator
    and more is scanned when [a] with the separator has no dot entry. *)
Lemma scanned_prefix (m : block) (a rest : list ascii) :
  holds_string MAX_PATH m (a ++ SEP :: rest) ->
  no_dot_entry (a ++ [SEP]) ->
  scanned m (length a).
Proof.
  intros (Hchars & Hfit & Hm) Hclean i Hi.
  rewrite length_app in Hfit, Hm. simpl in Hfit, Hm.
  assert (Hlow : forall k, k <= length a -> m k = nth k (a ++ [SEP]) NUL).
  { intros k Hk. rewrite Hm by lia.
    destruct (Nat.eq_dec k (length a)) as [-> | Hne].
    - rewrite !app_nth2 by lia. rewrite Nat.sub_diag. reflexivity.
    - rewrite !app_nth1 by lia. reflexivity. }
  split.
  - rewrite Hm by lia. rewrite Forall_forall in Hchars. apply Hchars.
    apply list_elem_of_In, nth_In. rewrite length_app. simpl. lia.
  - unfold settled_at. rewrite (Hlow i), (Hlow (S i)) by lia. intros Hsep Hdot.
    destruct (Nat.eq_dec (S i) (length a)) as [Heq | Hne].
    + rewrite Heq, app_nth2 in Hdot by lia. rewrite Nat.sub_diag in Hdot.
      discriminate.
    + rewrite (Hlow (S (S i))) by lia. apply Hclean; assumption.
Qed.

Lemma strstr_at_pair (m : block) (q e : nat) :
  m q = SEP -> m (S q) = DOT -> S q < e < MAX_PATH -> m e = NUL ->
  strstr_sepdot MAX_PATH m q = Some (Some q).
Proof.
  intros Hq Hq' He Hnul.
  destruct (strstr_first m q q e) as (q1 & Hfind & Hq1 & _);
    try assumption; try lia.
  replace q1 with q in Hfind by lia. exact Hfind.
Qed.

Lemma nth_before_separator (a rest : list ascii) (k : nat) :
  k <= length a -> nth k (a ++ SEP :: rest) NUL = nth k (a ++ [SEP]) NUL.
Proof.
  intros Hk. destruct (Nat.eq_dec k (length a)) as [-> | Hne].
  - rewrite !app_nth2 by lia. rewrite Nat.sub_diag. reflexivity.
  - rewrite !app_nth1 by lia. reflexivity.
Qed.

Lemma no_dot_entry_prefix (a rest : list ascii) :
  no_dot_entry (a ++ SEP :: rest) -> no_dot_entry (a ++ [SEP]).
Proof.
  intros Hclean i Hsep Hdot.
  assert (Hi : S (S i) <= length a).
  { destruct (Nat.le_gt_cases (S (S i)) (length a)) as [Hle | Hgt]; [exact Hle |].
    exfalso. destruct (Nat.eq_dec (S i) (length a)) as [Heq | Hne].
    - rewrite Heq, app_nth2 in Hdot by lia. rewrite Nat.sub_diag in Hdot.
      discriminate.
    - rewrite nth_overflow in Hdot; [discriminate |].
      rewrite length_app. simpl. lia. }
  rewrite <- (nth_before_separator a rest) in Hsep, Hdot |- * by lia.
  apply Hclean; assumption.
Qed.

Lemma no_dot_entry_before_separator (a : list ascii) :
  no_dot_entry (a ++ [SEP]) -> no_dot_entry a.
Proof.
  intros Hclean i Hsep Hdot.
  assert (Hi : S i < length a).
  { destruct (Nat.lt_ge_cases (S i) (length a)) as [Hlt | Hge]; [exact Hlt |].
    rewrite nth_overflow in Hdot by lia. discriminate. }
  specialize (Hclean i). rewrite !app_nth1 in Hclean by lia.
  specialize (Hclean Hsep Hdot).
  destruct (Nat.eq_dec (S (S i)) (length a)) as [Heq | Hne].
  - exfalso. apply Hclean. left. rewrite Heq, app_nth2 by lia.
    rewrite Nat.sub_diag. reflexivity.
  - rewrite app_nth1 in Hclean by lia. exact Hclean.
Qed.

(** From any place in it, a block that holds a string without dot entries
    goes through the scan unchanged. *)
Lemma scan_of_clean_string_from (m : block) (l : list ascii) (fuel p : nat) :
  holds_string MAX_PATH m l -> no_dot_entry l ->
  p <= length l -> length l - p < fuel ->
  (do retval <- dotscan fuel m p; defined (read_cstr MAX_PATH retval 0)) = Ret l.
Proof.
  intros Hholds Hclean Hp Hfuel.
  destruct (holds_string_scanned m l Hholds Hclean) as (Hfit & Hnul & Hscan).
  rewrite (dotscan_fixed m (length l) Hfit Hnul Hscan fuel p) by lia.
  simpl obind. destruct (holds_string_read _ _ _ Hholds) as [_ Hread].
  rewrite Hread. reflexivity.
Qed.

(** X28.  A "." entry inside an absolute path is taken out with one of
    its separators: when what is left has no dot entry, it is the
    result. *)
Theorem realpath_takes_out_dot_entry
    (fuel : nat) (h : host) (fresh : block) (c a b : list ascii) :
  malloc_path h = Some fresh ->
  __PHYSFS_platformCurrentDir h = Ret c ->
  Forall (fun x => x <> NUL) a ->
  Forall (fun x => x <> NUL) b ->
  is_absolute (a ++ SEP :: DOT :: SEP :: b) = true ->
  length a + length b + 3 < MAX_PATH ->
  no_dot_entry (a ++ SEP :: b) ->
  length a + length b + 3 < fuel ->
  __PHYSFS_platformRealPath fuel h (Some (a ++ SEP :: DOT :: SEP :: b))
  = Ret (a ++ SEP :: b).
Proof.
  intros Hblock Hcwd Ha Hb Habs Hfit Hclean Hfuel.
  set (path := a ++ SEP :: DOT :: SEP :: b) in *.
  assert (Hlen : length path = length a + length b + 3).
  { unfold path. rewrite length_app. simpl. lia. }
  assert (Hchars : Forall (fun x => x <> NUL) path).
  { unfold path. apply Forall_app. split; [exact Ha |].
    repeat (constructor; [discriminate |]). exact Hb. }
  unfold __PHYSFS_platformRealPath.
  rewrite (absolute_not_empty path Habs), Hblock.
  rewrite (absolute_taken_verbatim h c path fresh Habs Hcwd).
  destruct (strcpy_holds MAX_PATH fresh path path (cstr_id path Hchars))
    as (m & -> & Hholds); [lia |].
  cbn [obind defined].
  pose proof Hholds as (_ & _ & Hm). rewrite Hlen in Hm.
  assert (Hq : m (length a) = SEP).
  { rewrite Hm by lia. unfold path. rewrite app_nth2 by lia.
    rewrite Nat.sub_diag. reflexivity. }
  assert (Hq1 : m (S (length a)) = DOT).
  { rewrite Hm by lia. unfold path. rewrite app_nth2 by lia.
    replace (S (length a) - length a) with 1 by lia. reflexivity. }
  assert (Hq2 : m (length a + 2) = SEP).
  { rewrite Hm by lia. unfold path. rewrite app_nth2 by lia.
    replace (length a + 2 - length a) with 2 by lia. reflexivity. }
  assert (Hrest : forall j, j <= length b -> m (length a + 3 + j) = nth j b NUL).
  { intros j Hj. rewrite Hm by lia. unfold path. rewrite app_nth2 by lia.
    replace (length a + 3 + j - length a) with (S (S (S j))) by lia. reflexivity. }
  assert (Hnul : m (length a + 3 + length b) = NUL).
  { rewrite Hrest by lia. apply nth_overflow. lia. }
  assert (Hscan : scanned m (length a)).
  { apply (scanned_prefix m a (DOT :: SEP :: b)); [exact Hholds |].
    apply (no_dot_entry_prefix a b). exact Hclean. }
  destruct (dotscan_skip m (length a) (length a + 3 + length b) Hscan Hq Hq1
              ltac:(lia) Hnul (length a) 0) as (used & Hused & Hskip); [lia | lia |].
  replace fuel with (used + S (fuel - used - 1)) by lia.
  rewrite Hskip. cbn [dotscan].
  rewrite (strstr_at_pair m (length a) (length a + 3 + length b) Hq Hq1
             ltac:(lia) Hnul).
  cbn [obind defined]. unfold peek.
  destruct (Nat.ltb_spec (length a + 2) MAX_PATH); [| lia].
  cbn [obind defined]. rewrite Hq2, Ascii.eqb_refl.
  assert (Hstrlen : strlen MAX_PATH m (length a + 3) = Some (length b)).
  { unfold strlen. apply strlen_from_intro; [| exact Hnul | lia].
    intros k Hk. rewrite Hrest by lia. rewrite Forall_forall in Hb. apply Hb.
    apply list_elem_of_In, nth_In. exact Hk. }
  rewrite Hstrlen. cbn [obind defined]. unfold memmove.
  destruct (Nat.leb_spec (length a + 1 + (length b + 1)) MAX_PATH); [| lia].
  destruct (Nat.leb_spec (length a + 3 + (length b + 1)) MAX_PATH); [| lia].
  cbn [andb obind defined].
  apply scan_of_clean_string_from;
    [| exact Hclean | rewrite length_app; simpl; lia | rewrite length_app; simpl; lia].
  split; [apply Forall_app; split; [exact Ha | constructor; [discriminate | exact Hb]] |].
  split; [rewrite length_app; simpl; lia |].
  intros k Hk. rewrite length_app in Hk. simpl in Hk.
  destruct (Nat.leb_spec (length a + 1) k) as [Hin | Hout].
  - destruct (Nat.ltb_spec k (length a + 1 + (length b + 1))); [| lia].
    cbn [andb]. rewrite Hrest by lia. rewrite app_nth2 by lia.
    replace (k - length a) with (S (k - (length a + 1))) by lia. reflexivity.
  - cbn [andb]. rewrite Hm by lia. unfold path.
    rewrite (nth_before_separator a (DOT :: SEP :: b)) by lia.
    rewrite (nth_before_separator a b) by lia. reflexivity.
Qed.

(** X29.  A "." entry that ends an absolute path is cut off with its
    separator: what stands before it is the result. *)
Theorem realpath_cuts_trailing_dot_entry
    (fuel : nat) (h : host) (fresh : block) (c a : list ascii) :
  malloc_path h = Some fresh ->
  __PHYSFS_platformCurrentDir h = Ret c ->
  Forall (fun x => x <> NUL) a ->
  is_absolute (a ++ [SEP; DOT]) = true ->
  length a + 2 < MAX_PATH ->
  no_dot_entry (a ++ [SEP]) ->
  length a + 2 < fuel ->
  __PHYSFS_platformRealPath fuel h (Some (a ++ [SEP; DOT])) = Ret a.
Proof.
  intros Hblock Hcwd Ha Habs Hfit Hclean Hfuel.
  set (path := a ++ [SEP; DOT]) in *.
  assert (Hlen : length path = length a + 2).
  { unfold path. rewrite length_app. simpl. lia. }
  assert (Hchars : Forall (fun x => x <> NUL) path).
  { unfold path. apply Forall_app. split; [exact Ha |].
    repeat (constructor; [discriminate |]). constructor. }
  unfold __PHYSFS_platformRealPath.
  rewrite (absolute_not_empty path Habs), Hblock.
  rewrite (absolute_taken_verbatim h c path fresh Habs Hcwd).
  destruct (strcpy_holds MAX_PATH fresh path path (cstr_id path Hchars))
    as (m & -> & Hholds); [lia |].
  cbn [obind defined].
  pose proof Hholds as (_ & _ & Hm). rewrite Hlen in Hm.
  assert (Hq : m (length a) = SEP).
  { rewrite Hm by lia. unfold path. rewrite app_nth2 by lia.
    rewrite Nat.sub_diag. reflexivity. }
  assert (Hq1 : m (S (length a)) = DOT).
  { rewrite Hm by lia. unfold path. rewrite app_nth2 by lia.
    replace (S (length a) - length a) with 1 by lia. reflexivity. }
  assert (Hnul : m (length a + 2) = NUL).
  { rewrite Hm by lia. apply nth_overflow. lia. }
  assert (Hscan : scanned m (length a)).
  { apply (scanned_prefix m a [DOT]); [exact Hholds | exact Hclean]. }
  destruct (dotscan_skip m (length a) (length a + 2) Hscan Hq Hq1
              ltac:(lia) Hnul (length a) 0) as (used & Hused & Hskip); [lia | lia |].
  replace fuel with (used + S (fuel - used - 1)) by lia.
  rewrite Hskip. cbn [dotscan].
  rewrite (strstr_at_pair m (length a) (length a + 2) Hq Hq1 ltac:(lia) Hnul).
  cbn [obind defined]. unfold peek.
  destruct (Nat.ltb_spec (length a + 2) MAX_PATH); [| lia].
  cbn [obind defined]. rewrite Hnul.
  change (Ascii.eqb NUL SEP) with false. change (Ascii.eqb NUL NUL) with true.
  cbn iota. unfold poke.
  destruct (Nat.ltb_spec (length a) MAX_PATH); [| lia].
  cbn [obind defined].
  apply scan_of_clean_string_from;
    [| apply no_dot_entry_before_separator; exact Hclean | lia | lia].
  split; [exact Ha |]. split; [lia |].
  intros k Hk. destruct (Nat.eqb_spec k (length a)) as [-> | Hne].
  - symmetry. apply nth_overflow. lia.
  - rewrite Hm by lia. unfold path. apply app_nth1. lia.
Qed.

Lemma realpath_takes_out_dot_entry_witness :
  __PHYSFS_platformRealPath 30 (sample_host "X") (Some (text "C:\a\.\b.txt"))
  = Ret (text "C:\a\b.txt").
Proof.
  apply (realpath_takes_out_dot_entry 30 (sample_host "X") (filled "X")
           (text "C:\Users\x\") (text "C:\a") (text "b.txt")).
  - reflexivity.
  - vm_compute. reflexivity.
  - vm_compute. repeat constructor; discriminate.
  - vm_compute. repeat constructor; discriminate.
  - reflexivity.
  - vm_compute. lia.
  - apply dot_free_spec. vm_compute. reflexivity.
  - vm_compute. lia.
Defined.

Lemma realpath_cuts_trailing_dot_entry_witness :
  __PHYSFS_platformRealPath 30 (sample_host "X") (Some (text "C:\a\b\."))
  = Ret (text "C:\a\b").
Proof.
  apply (realpath_cuts_trailing_dot_entry 30 (sample_host "X") (filled "X")
           (text "C:\Users\x\") (text "C:\a\b")).
  - reflexivity.
  - vm_compute. reflexivity.
  - vm_compute. repeat constructor; discriminate.
  - reflexivity.
  - vm_compute. lia.
  - apply dot_free_spec. vm_compute. reflexivity.
  - vm_compute. lia.
Defined.

End DotRemoval.

(** ** The adjustment by hand, there and back *)

Section BiasFacts.

Local Open Scope Z_scope.

Lemma sint64_congruent (z : Z) : exists k, sint64 z = z + k * 2 ^ 64.
Proof.
  unfold sint64. pose proof (Z.div_mod z (2 ^ 64) ltac:(lia)) as Hz.
  destruct (z mod 2 ^ 64 <? 2 ^ 63).
  - exists (- (z / 2 ^ 64)). lia.
  - exists (- (z / 2 ^ 64) - 1). lia.
Qed.

Lemma QuadPart_words (lo hi : Z) :
  0 <= lo < 2 ^ 32 -> 0 <= hi < 2 ^ 32 ->
  let q := QuadPart {| dwLowDateTime := lo; dwHighDateTime := hi |} in
  0 <= q < 2 ^ 64 /\ uint32 q = lo /\ uint32 (q / 2 ^ 32) = hi.
Proof.
  intros Hlo Hhi. unfold QuadPart, uint32. cbn [dwLowDateTime dwHighDateTime].
  rewrite (Z.mod_small lo), (Z.mod_small hi) by lia.
  replace (lo + 2 ^ 32 * hi) with (lo + hi * 2 ^ 32) by lia.
  split; [lia |]. split.
  - rewrite Z_mod_plus_full. apply Z.mod_small. lia.
  - rewrite Z.div_add by lia. rewrite Z.div_small by lia.
    apply Z.mod_small. lia.
Qed.

(** X30.  The adjustment by hand loses nothing of the file time: adjusted
    by a total bias and then by the opposite one, the two words of a file
    time are what they were, whether or not the 64-bit count wrapped in
    between. *)
Theorem opposite_biases_cancel
    (tzid1 tzid2 : Z) (tzi1 tzi2 : TIME_ZONE_INFORMATION) (ft : FILETIME) :
  0 <= dwLowDateTime ft < 2 ^ 32 ->
  0 <= dwHighDateTime ft < 2 ^ 32 ->
  total_bias tzid2 tzi2 = - total_bias tzid1 tzi1 ->
  apply_bias tzid2 tzi2 (apply_bias tzid1 tzi1 ft) = ft.
Proof.
  intros Hlo Hhi Hopp. destruct ft as [lo hi]. simpl in Hlo, Hhi.
  destruct (QuadPart_words lo hi Hlo Hhi) as (Hq & Hlow & Hhigh).
  unfold apply_bias at 1. rewrite QuadPart_apply_bias, Hopp.
  set (q := QuadPart {| dwLowDateTime := lo; dwHighDateTime := hi |}) in *.
  set (T := total_bias tzid1 tzi1).
  destruct (sint64_congruent T) as [k1 Hk1].
  destruct (sint64_congruent (sint64 T * 600000000)) as [k2 Hk2].
  destruct (sint64_congruent (- T)) as [k3 Hk3].
  destruct (sint64_congruent (sint64 (- T) * 600000000)) as [k4 Hk4].
  assert (Hback : uint64 ((q - sint64 (sint64 T * 600000000)) mod 2 ^ 64
                          - sint64 (sint64 (- T) * 600000000)) = q).
  { unfold uint64. rewrite Zminus_mod_idemp_l.
    replace (q - sint64 (sint64 T * 600000000) - sint64 (sint64 (- T) * 600000000))
      with (q + (- (k1 * 600000000 + k2 + k3 * 600000000 + k4)) * 2 ^ 64) by lia.
    rewrite Z_mod_plus_full. apply Z.mod_small. exact Hq. }
  rewrite Hback, Hlow, Hhigh. reflexivity.
Qed.

(** A bias of five hours and one of minus five hours, on a file time whose
    count wraps when five hours are taken from it. *)
Lemma opposite_biases_cancel_witness :
  let ft := {| dwLowDateTime := 7; dwHighDateTime := 0 |} in
  apply_bias TIME_ZONE_ID_STANDARD
    {| Bias := -300; StandardBias := 0; DaylightBias := 60 |}
    (apply_bias TIME_ZONE_ID_STANDARD
       {| Bias := 300; StandardBias := 0; DaylightBias := -60 |} ft)
  = ft.
Proof.
  apply (opposite_biases_cancel TIME_ZONE_ID_STANDARD TIME_ZONE_ID_STANDARD
           {| Bias := 300; StandardBias := 0; DaylightBias := -60 |}
           {| Bias := -300; StandardBias := 0; DaylightBias := 60 |}
           {| dwLowDateTime := 7; dwHighDateTime := 0 |}).
  - simpl. lia.
  - simpl. lia.
  - reflexivity.
Defined.

End BiasFacts.

(** ** Paths without a parent entry *)

Section ParentFree.

Lemma parent_free_spec (r : list ascii) : parent_free r = true -> no_parent_entry r.
Proof.
  induction r as [| a rest IH]; intros Hfree i Hsep Hdot.
  - destruct i; discriminate.
  - simpl in Hfree. apply andb_prop in Hfree as [Hhere Hrest].
    destruct i as [| i]; [| apply (IH Hrest i); assumption].
    simpl in *. intros Hc. rewrite Hsep, Hdot, Hc in Hhere. discriminate.
Qed.

Lemma split_at_three (l : list ascii) :
  forall q, q + 2 < length l ->
  exists a b,
    l = a ++ nth q l NUL :: nth (q + 1) l NUL :: nth (q + 2) l NUL :: b
    /\ length a = q.
Proof.
  intros q. revert l. induction q as [| q IH]; intros l Hq.
  - destruct l as [| x0 [| x1 [| x2 b]]]; simpl in Hq; try lia.
    exists [], b. split; reflexivity.
  - destruct l as [| x l]; simpl in Hq; [lia |].
    destruct (IH l) as (a & b & Heq & Hlen); [lia |].
    exists (x :: a), b. simpl. split; [f_equal; exact Heq | f_equal; exact Hlen].
Qed.

Lemma split_at_two (l : list ascii) :
  forall q, q + 2 = length l ->
  exists a, l = a ++ [nth q l NUL; nth (q + 1) l NUL] /\ length a = q.
Proof.
  intros q. revert l. induction q as [| q IH]; intros l Hq.
  - destruct l as [| x0 [| x1 [| x2 b]]]; simpl in Hq; try lia.
    exists []. split; reflexivity.
  - destruct l as [| x l]; simpl in Hq; [lia |].
    destruct (IH l) as (a & Heq & Hlen); [lia |].
    exists (x :: a). simpl. split; [f_equal; exact Heq | f_equal; exact Hlen].
Qed.

(** One "." entry taken out of the block: the turn of the scan at a
    separator-dot pair that a separator follows. *)
Lemma take_out_step (m : block) (a b : list ascii) :
  holds_string MAX_PATH m (a ++ SEP :: DOT :: SEP :: b) ->
  strlen MAX_PATH m (length a + 3) = Some (length b)
  /\ exists m1,
       memmove MAX_PATH m (length a + 1) (length a + 3) (length b + 1) = Some m1
       /\ holds_string MAX_PATH m1 (a ++ SEP :: b).
Proof.
  intros (Hchars & Hfit & Hm).
  rewrite length_app in Hfit, Hm. simpl in Hfit, Hm.
  apply Forall_app in Hchars as [Ha Hrest].
  do 3 (apply Forall_cons in Hrest as [_ Hrest]).
  assert (Hb : forall j, j <= length b -> m (length a + 3 + j) = nth j b NUL).
  { intros j Hj. rewrite Hm by lia. rewrite app_nth2 by lia.
    replace (length a + 3 + j - length a) with (S (S (S j))) by lia. reflexivity. }
  assert (Hnul : m (length a + 3 + length b) = NUL).
  { rewrite Hb by lia. apply nth_overflow. lia. }
  split.
  { unfold strlen. apply strlen_from_intro; [| exact Hnul | lia].
    intros k Hk. rewrite Hb by lia. rewrite Forall_forall in Hrest. apply Hrest.
    apply list_elem_of_In, nth_In. exact Hk. }
  unfold memmove.
  destruct (Nat.leb_spec (length a + 1 + (length b + 1)) MAX_PATH); [| lia].
  destruct (Nat.leb_spec (length a + 3 + (length b + 1)) MAX_PATH); [| lia].
  cbn [andb]. eexists. split; [reflexivity |].
  split; [apply Forall_app; split;
          [exact Ha | apply Forall_cons; split; [discriminate | exact Hrest]] |].
  split; [rewrite length_app; simpl; lia |].
  intros k Hk. rewrite length_app in Hk. simpl in Hk.
  destruct (Nat.leb_spec (length a + 1) k) as [Hin | Hout].
  - destruct (Nat.ltb_spec k (length a + 1 + (length b + 1))); [| lia].
    cbn [andb]. rewrite Hb by lia. rewrite app_nth2 by lia.
    replace (k - length a) with (S (k - (length a + 1))) by lia. reflexivity.
  - cbn [andb]. rewrite Hm by lia.
    rewrite (nth_before_separator a (DOT :: SEP :: b)) by lia.
    rewrite (nth_before_separator a b) by lia. reflexivity.
Qed.

(** A "." entry cut off the end of the block: the turn of the scan at a
    separator-dot pair that the terminator follows. *)
Lemma cut_step (m : block) (a : list ascii) :
  holds_string MAX_PATH m (a ++ [SEP; DOT]) ->
  exists m1,
    poke MAX_PATH m (length a) NUL = Some m1 /\ holds_string MAX_PATH m1 a.
Proof.
  intros (Hchars & Hfit & Hm).
  rewrite length_app in Hfit, Hm. simpl in Hfit, Hm.
  apply Forall_app in Hchars as [Ha _].
  unfold poke. destruct (Nat.ltb_spec (length a) MAX_PATH); [| lia].
  eexists. split; [reflexivity |].
  split; [exact Ha |]. split; [lia |].
  intros k Hk. destruct (Nat.eqb_spec k (length a)) as [-> | Hne].
  - symmetry. apply nth_overflow. lia.
  - rewrite Hm by lia. apply app_nth1. lia.
Qed.

Lemma no_parent_entry_taken_out (a b : list ascii) :
  no_parent_entry (a ++ SEP :: DOT :: SEP :: b) -> no_parent_entry (a ++ SEP :: b).
Proof.
  intros Hpar.
  assert (Hlow : forall k, k <= length a ->
            nth k (a ++ SEP :: b) NUL = nth k (a ++ SEP :: DOT :: SEP :: b) NUL).
  { intros k Hk. rewrite (nth_before_separator a (DOT :: SEP :: b)) by lia.
    apply nth_before_separator. lia. }
  assert (Hhigh : forall k, length a < k ->
            nth k (a ++ SEP :: b) NUL = nth (k + 2) (a ++ SEP :: DOT :: SEP :: b) NUL).
  { intros k Hk. rewrite !app_nth2 by lia.
    replace (k - length a) with (S (k - length a - 1)) by lia.
    replace (k + 2 - length a) with (S (S (S (k - length a - 1)))) by lia.
    reflexivity. }
  assert (Hsep : nth (length a + 2) (a ++ SEP :: DOT :: SEP :: b) NUL = SEP).
  { rewrite app_nth2 by lia.
    replace (length a + 2 - length a) with 2 by lia. reflexivity. }
  intros i Hi Hi' Hi''.
  destruct (Nat.lt_trichotomy (S i) (length a)) as [Hlt | [Heq | Hgt]].
  - rewrite Hlow in Hi, Hi', Hi'' by lia. exact (Hpar i Hi Hi' Hi'').
  - rewrite Hlow in Hi' by lia. rewrite Heq, app_nth2 in Hi' by lia.
    rewrite Nat.sub_diag in Hi'. discriminate.
  - destruct (Nat.eq_dec i (length a)) as [-> | Hne].
    + rewrite Hhigh in Hi', Hi'' by lia.
      apply (Hpar (length a + 2) Hsep).
      * replace (S (length a + 2)) with (S (length a) + 2) by lia. exact Hi'.
      * replace (S (S (length a + 2))) with (S (S (length a)) + 2) by lia. exact Hi''.
    + rewrite Hhigh in Hi, Hi', Hi'' by lia.
      apply (Hpar (i + 2) Hi).
      * replace (S (i + 2)) with (S i + 2) by lia. exact Hi'.
      * replace (S (S (i + 2))) with (S (S i) + 2) by lia. exact Hi''.
Qed.

Lemma no_parent_entry_cut (a rest : list ascii) :
  no_parent_entry (a ++ rest) -> no_parent_entry a.
Proof.
  intros Hpar i Hi Hi' Hi''.
  assert (Hlt : S (S i) < length a).
  { destruct (Nat.lt_ge_cases (S (S i)) (length a)) as [Hlt | Hge]; [exact Hlt |].
    rewrite nth_overflow in Hi'' by lia. discriminate. }
  apply (Hpar i); rewrite app_nth1 by lia; assumption.
Qed.

(** The scan of a string without a parent entry ends, with fuel for one
    turn per char, and only takes chars out. *)
Lemma dotscan_without_parent :
  forall fuel (m : block) (l : list ascii) (p : nat),
    holds_string MAX_PATH m l ->
    no_parent_entry l ->
    p <= length l ->
    length l - p < fuel ->
    exists m' l',
      dotscan fuel m p = Ret m'
      /\ holds_string MAX_PATH m' l'
      /\ sublist l' l.
Proof.
  induction fuel as [| fuel IH]; intros m l p Hholds Hpar Hp Hfuel; [lia |].
  pose proof Hholds as (Hchars & Hfit & Hm).
  assert (Hnul : m (length l) = NUL).
  { rewrite Hm by lia. apply nth_overflow. lia. }
  assert (Hchar : forall k, k < length l -> m k <> NUL).
  { intros k Hk. rewrite Hm by lia. rewrite Forall_forall in Hchars.
    apply Hchars, list_elem_of_In, nth_In. exact Hk. }
  cbn [dotscan].
  destruct (strstr_sepdot MAX_PATH m p) as [[q |] |] eqn:Hfind; cbn [obind defined].
  - destruct (strstr_found _ _ _ _ Hfind) as (Hpq & _ & Hq & Hq' & Hplain).
    assert (Hqe : S q < length l).
    { destruct (Nat.lt_ge_cases (S q) (length l)) as [Hlt | Hge]; [exact Hlt |].
      exfalso. destruct (Nat.eq_dec (length l) (S q)) as [Heq | Hne1].
      - rewrite Heq, Hq' in Hnul. discriminate.
      - destruct (Nat.eq_dec (length l) q) as [Heq | Hne2].
        + rewrite Heq, Hq in Hnul. discriminate.
        + destruct (Hplain (length l)) as [Hc _]; [lia | contradiction]. }
    unfold peek. destruct (Nat.ltb_spec (q + 2) MAX_PATH); [| lia].
    cbn [obind defined].
    assert (Hthird : m (q + 2) = nth (q + 2) l NUL) by (apply Hm; lia).
    rewrite Hm in Hq, Hq' by lia.
    destruct (Ascii.eqb_spec (m (q + 2)) SEP) as [Hsep | Hnsep].
    { assert (Hlong : q + 2 < length l).
      { destruct (Nat.eq_dec (q + 2) (length l)) as [Heq | Hne]; [| lia].
        rewrite Heq, Hnul in Hsep. discriminate. }
      destruct (split_at_three l q Hlong) as (a & b & Heq & Hlen).
      replace (q + 1) with (S q) in Heq by lia.
      rewrite Hq, Hq', <- Hthird, Hsep in Heq. subst l q.
      destruct (take_out_step m a b Hholds) as (Hrest & m1 & Hmove & Hholds1).
      rewrite Hrest. cbn [obind defined]. rewrite Hmove. cbn [obind defined].
      rewrite length_app in Hp, Hfuel. simpl in Hp, Hfuel.
      destruct (IH m1 (a ++ SEP :: b) (length a) Hholds1
                  (no_parent_entry_taken_out a b Hpar))
        as (m' & l' & Hrun & Hholds' & Hsub).
      { rewrite length_app. simpl. lia. }
      { rewrite length_app. simpl. lia. }
      exists m', l'. split; [exact Hrun |]. split; [exact Hholds' |].
      etransitivity; [exact Hsub |].
      apply sublist_app; [reflexivity |].
      apply sublist_skip, sublist_cons, sublist_cons. reflexivity. }
    destruct (Ascii.eqb_spec (m (q + 2)) NUL) as [Hend | Hnend].
    { assert (Hlast : q + 2 = length l).
      { destruct (Nat.eq_dec (q + 2) (length l)) as [Heq | Hne]; [exact Heq |].
        exfalso. apply (Hchar (q + 2)); [lia | exact Hend]. }
      destruct (split_at_two l q Hlast) as (a & Heq & Hlen).
      replace (q + 1) with (S q) in Heq by lia.
      rewrite Hq, Hq' in Heq. subst l q.
      destruct (cut_step m a Hholds) as (m1 & -> & Hholds1).
      cbn [obind defined].
      rewrite length_app in Hp, Hfuel. simpl in Hp, Hfuel.
      destruct (IH m1 a (length a) Hholds1 (no_parent_entry_cut a _ Hpar))
        as (m' & l' & Hrun & Hholds' & Hsub); [lia | lia |].
      exists m', l'. split; [exact Hrun |]. split; [exact Hholds' |].
      etransitivity; [exact Hsub |]. apply sublist_inserts_r. reflexivity. }
    destruct (Ascii.eqb_spec (m (q + 2)) DOT) as [Hdot | Hndot].
    { exfalso. apply (Hpar q Hq Hq').
      replace (S (S q)) with (q + 2) by lia. rewrite <- Hthird. exact Hdot. }
    apply IH; [exact Hholds | exact Hpar | lia | lia].
  - exists m, l. split; [reflexivity |]. split; [exact Hholds | reflexivity].
  - exfalso. apply (strstr_defined MAX_PATH m p (length l)); [lia | exact Hnul | exact Hfind].
Qed.

(** A string held by a block that is scanned up to its terminator has no
    dot entry. *)
Lemma scanned_string_has_no_dot_entry (m : block) (r : list ascii) (e : nat) :
  holds_string MAX_PATH m r -> m e = NUL -> scanned m e -> no_dot_entry r.
Proof.
  intros (Hchars & Hfit & Hm) Hnul Hscan.
  assert (He : e = length r).
  { destruct (Nat.lt_trichotomy e (length r)) as [Hlt | [Heq | Hgt]]; [| exact Heq |].
    - exfalso. rewrite Hm in Hnul by lia. rewrite Forall_forall in Hchars.
      apply (Hchars (nth e r NUL)); [| exact Hnul].
      apply list_elem_of_In, nth_In. exact Hlt.
    - exfalso. destruct (Hscan (length r) Hgt) as [Hc _]. apply Hc.
      rewrite Hm by lia. apply nth_overflow. lia. }
  subst e. intros i Hsep Hdot.
  assert (Hi : S i < length r).
  { destruct (Nat.lt_ge_cases (S i) (length r)) as [Hlt | Hge]; [exact Hlt |].
    rewrite nth_overflow in Hdot by lia. discriminate. }
  destruct (Hscan i) as [_ Hset]; [lia |].
  rewrite <- (Hm (S (S i))) by lia. apply Hset; rewrite Hm by lia; assumption.
Qed.

(** X2.  A path without a ".." entry has a result, and the result fits:
    when the splice of the current directory and the path is shorter than
    MAX_PATH and no separator in it is followed by two dots, the
    canonicalizer returns a string within one turn of the scan per char;
    the string has no dot entry, and it is the splice with chars taken
    out, none added or moved, so it is no longer than the splice. *)
Theorem realpath_result_fits
    (fuel : nat) (h : host) (fresh : block) (c path : list ascii) :
  malloc_path h = Some fresh ->
  __PHYSFS_platformCurrentDir h = Ret c ->
  c <> [] ->
  cstr path <> [] ->
  length (splice c path) < MAX_PATH ->
  no_parent_entry (splice c path) ->
  length (splice c path) < fuel ->
  exists r,
    __PHYSFS_platformRealPath fuel h (Some path) = Ret r
    /\ no_dot_entry r
    /\ sublist r (splice c path)
    /\ length r <= length (splice c path).
Proof.
  intros Hblock Hcwd Hc Hpath Hfit Hpar Hfuel.
  unfold __PHYSFS_platformRealPath. rewrite (first_char path Hpath), Hblock.
  destruct (absolutize_splice h path c fresh Hcwd Hc) as [Hsplice _].
  destruct (Hsplice Hfit) as (m & -> & Hholds).
  cbn [obind defined].
  destruct (dotscan_without_parent fuel m (splice c path) 0 Hholds Hpar)
    as (m' & r & Hrun & Hholds' & Hsub); [lia | lia |].
  rewrite Hrun. cbn [obind defined].
  destruct (holds_string_read _ _ _ Hholds') as [_ Hread]. rewrite Hread.
  exists r. split; [reflexivity |].
  apply dotscan_settles in Hrun as (e & _ & Hnul & Hscan); [| intros i Hi; lia].
  split; [exact (scanned_string_has_no_dot_entry m' r e Hholds' Hnul Hscan) |].
  split; [exact Hsub | apply sublist_length; exact Hsub].
Qed.

Lemma realpath_result_fits_witness :
  exists r,
    __PHYSFS_platformRealPath 40 (sample_host "X") (Some (text "docs\.\a\.")) = Ret r
    /\ no_dot_entry r
    /\ sublist r (splice (text "C:\Users\x\") (text "docs\.\a\."))
    /\ length r <= length (splice (text "C:\Users\x\") (text "docs\.\a\.")).
Proof.
  apply (realpath_result_fits 40 (sample_host "X") (filled "X")
           (text "C:\Users\x\") (text "docs\.\a\.")).
  - reflexivity.
  - vm_compute. reflexivity.
  - discriminate.
  - discriminate.
  - vm_compute. lia.
  - apply parent_free_spec. vm_compute. reflexivity.
  - vm_compute. lia.
Defined.

End ParentFree.
